(** * Diagram Scholar: the markdown formatter, the quiz view and the app shell

    A shallow embedding of the client-side logic of the repository:
    - [ExplanationView.formatText] and [parseInlineStyles]
      (src/components/ExplanationView.tsx),
    - the state and the handlers of [QuizView] (components/QuizView.tsx),
    - [processFile], [handleGenerateMoreQuestions] and [handleReset] of [App]
      (src/App.tsx) together with the service functions they call
      (src/services/geminiService.ts).

    JavaScript strings are sequences of UTF-16 code units; they are modelled
    as lists of code units so that [trim], [\s], [\d] and the regular
    expression dot see exactly the characters the engine sees. *)

From Stdlib Require Import ZArith NArith Lia Ascii String DecimalString.
From stdpp Require Import base list.

Local Open Scope N_scope.

(* ===================================================================== *)
(** ** JavaScript strings                                                 *)
(* ===================================================================== *)

Module JS.

Definition char := N.
Definition jsstring := list char.

(** An ASCII literal as a JavaScript string. *)
Definition lit (s : string) : jsstring :=
  map N_of_ascii (list_ascii_of_string s).
Arguments lit s%_string.

(** WhiteSpace and LineTerminator code points: what [String.prototype.trim]
    strips and what [\s] matches. *)
Definition isWhiteSpace (c : char) : bool :=
  (c =? 9) || (c =? 10) || (c =? 11) || (c =? 12) || (c =? 13) || (c =? 32)
  || (c =? 160) || (c =? 5760) || ((8192 <=? c) && (c <=? 8202))
  || (c =? 8232) || (c =? 8233) || (c =? 8239) || (c =? 8287)
  || (c =? 12288) || (c =? 65279).

(** LineTerminator code points: what the regular expression dot refuses. *)
Definition isLineTerminator (c : char) : bool :=
  (c =? 10) || (c =? 13) || (c =? 8232) || (c =? 8233).

(** [\d] *)
Definition isDigit (c : char) : bool := (48 <=? c) && (c <=? 57).

Definition star : char := 42.

(** [s.startsWith(p)] *)
Fixpoint startsWith (s p : jsstring) {struct p} : bool :=
  match p, s with
  | [], _ => true
  | _ :: _, [] => false
  | a :: p', b :: s' => (b =? a) && startsWith s' p'
  end.

(** [s.endsWith(p)] *)
Definition endsWith (s p : jsstring) : bool := startsWith (rev s) (rev p).

Fixpoint trimStart (s : jsstring) : jsstring :=
  match s with
  | [] => []
  | c :: s' => if isWhiteSpace c then trimStart s' else s
  end.

Definition trimEnd (s : jsstring) : jsstring := rev (trimStart (rev s)).

(** [s.trim()] *)
Definition trim (s : jsstring) : jsstring := trimEnd (trimStart s).

(** [s === ''] *)
Definition isEmpty (s : jsstring) : bool :=
  match s with [] => true | _ :: _ => false end.

(** [s.split(sep)] for a separator of one code unit; the empty string splits
    into one empty piece. *)
Fixpoint split (s : jsstring) (sep : char) : list jsstring :=
  match s with
  | [] => [[]]
  | c :: s' =>
      if c =? sep then [] :: split s' sep
      else match split s' sep with
           | piece :: pieces => (c :: piece) :: pieces
           | [] => [[c]]
           end
  end.

(** [s.replace(pat, '')] with a string pattern: the first occurrence of
    [pat] is removed, a string without an occurrence is returned as it is. *)
Fixpoint replace (s pat : jsstring) : jsstring :=
  match s with
  | [] => []
  | c :: s' => if startsWith s pat then drop (length pat) s
               else c :: replace s' pat
  end.

(** [s.slice(start, end)], negative positions counted from the end. *)
Definition slice (s : jsstring) (start end_ : Z) : jsstring :=
  let len := Z.of_nat (length s) in
  let from := if (start <? 0)%Z then Z.max (len + start) 0 else Z.min start len in
  let to := if (end_ <? 0)%Z then Z.max (len + end_) 0 else Z.min end_ len in
  take (Z.to_nat (to - from)) (drop (Z.to_nat from) s).

(** The longest prefix of digits and what follows it. *)
Fixpoint spanDigits (s : jsstring) : jsstring * jsstring :=
  match s with
  | [] => ([], [])
  | c :: s' => if isDigit c then let '(ds, r) := spanDigits s' in (c :: ds, r)
               else ([], s)
  end.

(** The longest prefix a greedy run of regular expression dots consumes. *)
Fixpoint dotStar (s : jsstring) : jsstring :=
  match s with
  | [] => []
  | c :: s' => if isLineTerminator c then [] else c :: dotStar s'
  end.

End JS.

(* ===================================================================== *)
(** ** ExplanationView.tsx                                                *)
(* ===================================================================== *)

Module ExplanationView.
Import JS.

(** The children [parseInlineStyles] returns: a string, or a [<strong>]
    element keyed by its position in the array of parts. *)
Inductive inline : Type :=
  | Text (s : jsstring)
  | Strong (key : nat) (s : jsstring).

(** [<li key={`li-${i}`}>]: the bullet glyph and the class names are
    constant decoration and are left out, here and below. *)
Record li : Type := Li { li_key : nat; li_body : list inline }.

(** The elements [formatText] pushes; [key] is the index of the line that
    produced the element.  [C] is how the children of a [<ul>] are held:
    the items themselves in the functional reading of the loop, the address
    of the array of items in the reading with a store further down. *)
Inductive element (C : Type) : Type :=
  | Ul (key : nat) (items : C)
  | H2 (key : nat) (text : jsstring)
  | H3 (key : nat) (text : jsstring)
  | Numbered (key : nat) (number : jsstring) (body : list inline)
  | Spacer (key : nat)
  | P (key : nat) (body : list inline).
Arguments Ul {C} key items.
Arguments H2 {C} key text.
Arguments H3 {C} key text.
Arguments Numbered {C} key number body.
Arguments Spacer {C} key.
Arguments P {C} key body.

Definition node : Type := element (list li).

(** *** The regular expressions *)

(** After an opening delimiter: the lazy [.*?] followed by the closing
    delimiter.  Returns the enclosed text and what follows the match. *)
Fixpoint lazyBody (s : jsstring) : option (jsstring * jsstring) :=
  match s with
  | [] => None
  | c :: s' =>
      if startsWith s [star; star] then Some ([], drop 2 s)
      else if isLineTerminator c then None
      else match lazyBody s' with
           | Some (b, r) => Some (c :: b, r)
           | None => None
           end
  end.

(** The bold expression (two stars, a lazy run of dots, two stars) anchored
    at the head of [s]: the matched text and the rest of the string. *)
Definition matchBold (s : jsstring) : option (jsstring * jsstring) :=
  if startsWith s [star; star] then
    match lazyBody (drop 2 s) with
    | Some (b, r) => Some ([star; star] ++ b ++ [star; star], r)
    | None => None
    end
  else None.

(** [text.split(re)] where [re] is the bold expression in a capture group
    with the flag g: the loop of RegExp.prototype[@@split], which works on
    a copy of the expression and in which neither the flag g nor
    [lastIndex] of the literal play a part.
    [piece] is the text since the end of the last match; at each position
    the expression is tried; a match closes the piece, is pushed itself
    (the capture group) and the scan resumes behind it.  [fuel] bounds the
    number of positions visited. *)
Fixpoint splitLoop (fuel : nat) (piece s : jsstring) : list jsstring :=
  match fuel, s with
  | S fuel', c :: s' =>
      match matchBold s with
      | Some (m, r) => piece :: m :: splitLoop fuel' [] r
      | None => splitLoop fuel' (piece ++ [c]) s'
      end
  | _, _ => [piece ++ s]
  end.

Definition splitBold (text : jsstring) : list jsstring :=
  splitLoop (length text) [] text.

Definition boldDelim : jsstring := [star; star].

Definition parseInlineStyles (text : jsstring) : list inline :=
  let parts := splitBold text in
  imap (fun i part =>
          if startsWith part boldDelim && endsWith part boldDelim
          then Strong i (slice part 2 (-2))
          else Text part) parts.

(** [/^\d+\.\s/.test(s)]: the greedy [\d+] never needs to give a digit back,
    because what must follow it is a dot. *)
Definition numberedTest (s : jsstring) : bool :=
  match spanDigits s with
  | (_ :: _, dot :: w :: _) => (dot =? 46) && isWhiteSpace w
  | _ => false
  end.

(** [s.match(re)] for the expression: start, group 1 of digits, a dot, a
    white space, group 2 a greedy run of dots.  Groups 1 and 2, [None] for
    [null]. *)
Definition numberedMatch (s : jsstring) : option (jsstring * jsstring) :=
  match spanDigits s with
  | (d :: ds, dot :: w :: r) =>
      if (dot =? 46) && isWhiteSpace w then Some (d :: ds, dotStar r) else None
  | _ => None
  end.

(** *** formatText *)

Definition isBullet (line : jsstring) : bool :=
  startsWith (trim line) (lit "- ").

(** The two local arrays of [formatText]. *)
Record loopState : Type := LoopState {
  elements : list node;
  currentListItems : list li
}.

Definition push (n : node) (st : loopState) : loopState :=
  LoopState (elements st ++ [n]) (currentListItems st).

(** One iteration of the [for] loop on [line = lines[i]], with
    [nextLine = lines[i + 1]] ([None] is [undefined]). *)
Definition iteration (i : nat) (line : jsstring) (nextLine : option jsstring)
    (st : loopState) : loopState :=
  if isBullet line then
    let items :=
      currentListItems st ++ [Li i (parseInlineStyles (replace line (lit "- ")))] in
    let flush :=
      match nextLine with
      | None => true
      | Some next => isEmpty next || negb (isBullet next)
      end in
    if flush then LoopState (elements st ++ [Ul i items]) []
    else LoopState (elements st) items
  else if startsWith line (lit "## ") then
    push (H2 i (replace line (lit "## "))) st
  else if startsWith line (lit "### ") then
    push (H3 i (replace line (lit "### "))) st
  else if numberedTest (trim line) then
    match numberedMatch line with
    | Some (num, rest) => push (Numbered i num (parseInlineStyles rest)) st
    | None => st
    end
  else if isEmpty (trim line) then push (Spacer i) st
  else push (P i (parseInlineStyles line)) st.

Definition loopBody (lines : list jsstring) (st : loopState) (i : nat) : loopState :=
  match lines !! i with
  | Some line => iteration i line (lines !! (i + 1)%nat) st
  | None => st
  end.

(** [for (let i = 0; i < lines.length; i++)] from empty arrays. *)
Definition formatLoop (lines : list jsstring) : loopState :=
  foldl (loopBody lines) (LoopState [] []) (seq 0 (length lines)).

Definition formatLines (lines : list jsstring) : list node :=
  elements (formatLoop lines).

Definition formatText (text : jsstring) : list node :=
  formatLines (split text 10).

End ExplanationView.

Module ExplanationViewStore.
Import JS ExplanationView.

(** *** formatText with its arrays in a store

    The source builds its result by mutation: [elements] and
    [currentListItems] are arrays, [push] updates them in place, the
    [<ul>] element receives the array [currentListItems] itself as its
    children, and the flush binds the variable to a new array.  Here the
    arrays live in a store; an address is an index into it. *)

Abbreviation loc := nat.

Inductive object : Type :=
  | NodeArray (l : list (element loc))
  | LiArray (l : list li).

Abbreviation store := (list object).

(** [[]]: a new array behind the objects already allocated. *)
Definition newArray (o : object) (h : store) : loc * store :=
  (length h, h ++ [o]).

(** [a.push(x)] on an array of list items. *)
Definition pushLi (a : loc) (x : li) (h : store) : store :=
  match h !! a with
  | Some (LiArray l) => <[a := LiArray (l ++ [x])]> h
  | _ => h
  end.

(** [a.push(x)] on an array of elements. *)
Definition pushNode (a : loc) (x : element loc) (h : store) : store :=
  match h !! a with
  | Some (NodeArray l) => <[a := NodeArray (l ++ [x])]> h
  | _ => h
  end.

(** One iteration; [elements] is a constant binding, [cur] is the array the
    variable [currentListItems] is bound to. *)
Definition iterationS (elements : loc) (i : nat) (line : jsstring)
    (nextLine : option jsstring) (st : loc * store) : loc * store :=
  let '(cur, h) := st in
  if isBullet line then
    let h1 := pushLi cur (Li i (parseInlineStyles (replace line (lit "- ")))) h in
    let flush :=
      match nextLine with
      | None => true
      | Some next => isEmpty next || negb (isBullet next)
      end in
    if flush then
      let h2 := pushNode elements (Ul i cur) h1 in
      newArray (LiArray []) h2
    else (cur, h1)
  else if startsWith line (lit "## ") then
    (cur, pushNode elements (H2 i (replace line (lit "## "))) h)
  else if startsWith line (lit "### ") then
    (cur, pushNode elements (H3 i (replace line (lit "### "))) h)
  else if numberedTest (trim line) then
    match numberedMatch line with
    | Some (num, rest) =>
        (cur, pushNode elements (Numbered i num (parseInlineStyles rest)) h)
    | None => (cur, h)
    end
  else if isEmpty (trim line) then (cur, pushNode elements (Spacer i) h)
  else (cur, pushNode elements (P i (parseInlineStyles line)) h).

Definition loopBodyS (lines : list jsstring) (elements : loc)
    (st : loc * store) (i : nat) : loc * store :=
  match lines !! i with
  | Some line => iterationS elements i line (lines !! (i + 1)%nat) st
  | None => st
  end.

(** A call of [formatText] on the store [h]: the address of the array it
    returns and the store it leaves. *)
Definition formatTextS (text : jsstring) (h : store) : loc * store :=
  let lines := split text 10 in
  let '(elements, h1) := newArray (NodeArray []) h in
  let '(cur, h2) := newArray (LiArray []) h1 in
  let '(_, h3) := foldl (loopBodyS lines elements) (cur, h2) (seq 0 (length lines)) in
  (elements, h3).

(** What a reader of the store sees behind an element and behind the
    returned array. *)
Definition readElement (h : store) (e : element loc) : option node :=
  match e with
  | Ul k c => match h !! c with
              | Some (LiArray l) => Some (Ul k l)
              | _ => None
              end
  | H2 k t => Some (H2 k t)
  | H3 k t => Some (H3 k t)
  | Numbered k n b => Some (Numbered k n b)
  | Spacer k => Some (Spacer k)
  | P k b => Some (P k b)
  end.

Definition readNodes (h : store) (a : loc) : option (list node) :=
  match h !! a with
  | Some (NodeArray l) => mapM (readElement h) l
  | _ => None
  end.

End ExplanationViewStore.

(* ===================================================================== *)
(** ** types.ts and services/geminiService.ts                             *)
(* ===================================================================== *)

Module Types.
Import JS.

Record QuizQuestion : Type := {
  question : jsstring;
  options : list jsstring;
  correctAnswerIndex : Z;
  explanation : jsstring
}.

Record AnalysisResult : Type := {
  title : jsstring;
  ar_explanation : jsstring;
  relationshipDescription : jsstring;
  quiz : list QuizQuestion
}.

Inductive Status : Type := idle | analyzing | complete | error.

Record ProcessingState : Type := {
  status : Status;
  ps_error : option jsstring
}.

(** What a [catch] clause can receive here: an [Error] with its message, or
    the progress event a failing [FileReader] rejects with, which has no
    [message]. *)
Inductive thrown : Type :=
  | Error (message : jsstring)
  | ProgressEvent.

(** [err.message] *)
Definition message (e : thrown) : option jsstring :=
  match e with
  | Error m => Some m
  | ProgressEvent => None
  end.

(** Truthiness of a value of type [string | undefined | null]. *)
Definition truthy (v : option jsstring) : bool :=
  match v with
  | Some (_ :: _) => true
  | _ => false
  end.

(** [v || d] *)
Definition orElse (v : option jsstring) (d : jsstring) : jsstring :=
  match v with
  | Some (c :: s) => c :: s
  | _ => d
  end.

(** A number other than NaN, which [JSON.parse] never returns: a sign, a
    mantissa and a binary exponent, or an infinity. *)
Inductive double : Type :=
  | Finite (negative : bool) (mantissa : N) (exponent : Z)
  | Infinity (negative : bool).

(** The values the code holds where TypeScript says [AnalysisResult] or
    [QuizQuestion[]]: the declarations are erased, [JSON.parse(text) as T]
    is [JSON.parse(text)], so a reply of the model of any shape flows into
    the state.  An object is the list of its own enumerable properties;
    the first pair of a name is the property. *)
#[warnings="-register-all"]
Inductive value : Type :=
  | Undefined
  | Null
  | Boolean (b : bool)
  | Number (d : double)
  | Str (s : jsstring)
  | Arr (items : list value)
  | Obj (props : list (jsstring * value)).

(** Truthiness of a value. *)
Definition truthyValue (v : value) : bool :=
  match v with
  | Undefined | Null => false
  | Boolean b => b
  | Number (Finite _ mantissa _) => negb (mantissa =? 0)
  | Number (Infinity _) => true
  | Str s => negb (isEmpty s)
  | Arr _ | Obj _ => true
  end.

(** The decimal form of an index, the name of an element of an array. *)
Definition decimal (i : nat) : jsstring :=
  lit (NilZero.string_of_uint (Nat.to_uint i)).

(** The own enumerable properties of a value, which [{...v}] copies: those
    of an object, the elements of an array and the code units of a string
    under their indices, none for the other values. *)
Definition ownEnumerable (v : value) : list (jsstring * value) :=
  match v with
  | Obj props => props
  | Arr items => imap (fun i x => (decimal i, x)) items
  | Str s => imap (fun i c => (decimal i, Str [c])) s
  | _ => []
  end.

Fixpoint lookupProp (name : jsstring) (props : list (jsstring * value)) : value :=
  match props with
  | [] => Undefined
  | (k, x) :: rest => if decide (k = name) then x else lookupProp name rest
  end.

(** [v.name] for a name that no prototype defines and that is not
    [length], as [quiz], [title], [explanation] and
    [relationshipDescription] are: the own property, [undefined] without
    one; [None] is the TypeError of a read on [null] or [undefined]. *)
Definition get (v : value) (name : jsstring) : option value :=
  match v with
  | Undefined | Null => None
  | _ => Some (lookupProp name (ownEnumerable v))
  end.

(** The properties with [name] set to [x]: in its place when there is
    one, else at the end. *)
Fixpoint assign (name : jsstring) (x : value) (props : list (jsstring * value))
    : list (jsstring * value) :=
  match props with
  | [] => [(name, x)]
  | (k, y) :: rest =>
      if decide (k = name) then (name, x) :: rest
      else (k, y) :: assign name x rest
  end.

(** The value of a record of the declared type. *)
Definition ofQuizQuestion (q : QuizQuestion) : value :=
  Obj [ (lit "question", Str (question q));
        (lit "options", Arr (map Str (options q)));
        (lit "correctAnswerIndex",
         Number (Finite (correctAnswerIndex q <? 0)%Z
                   (Z.abs_N (correctAnswerIndex q)) 0));
        (lit "explanation", Str (explanation q)) ].

Definition ofQuiz (qs : list QuizQuestion) : value := Arr (map ofQuizQuestion qs).

Definition ofAnalysisResult (r : AnalysisResult) : value :=
  Obj [ (lit "title", Str (title r));
        (lit "explanation", Str (ar_explanation r));
        (lit "relationshipDescription", Str (relationshipDescription r));
        (lit "quiz", ofQuiz (quiz r)) ].

End Types.

Module Service.
Import JS Types.

Inductive schema : Type := RESPONSE_SCHEMA | QUIZ_ONLY_SCHEMA | noSchema.

(** The argument of [ai.models.generateContent]: the image part, the text
    part and the response schema of the configuration. *)
Record request : Type := {
  inlineMimeType : jsstring;
  inlineData : option jsstring;
  prompt : jsstring;
  responseSchema : schema
}.

(** The world outside: the configured key, the remote model and
    [JSON.parse] on its answers.  [generateContent] gives [None] when the
    call rejects, else [response.text], which may be undefined;
    [JSON_parse] gives [None] when [JSON.parse] throws, else the value it
    returns, of whatever shape. *)
Record Env : Type := {
  API_KEY : option jsstring;
  generateContent : request -> option (option jsstring);
  JSON_parse : jsstring -> option value
}.

(** A service call: what it returns or throws, and the requests it sent to
    the model. *)
Definition call (A : Type) : Type := (A + thrown) * list request.

Definition analyzePrompt : jsstring :=
  lit "Analyze this diagram. Provide a 10th-grade level explanation, key terms, a specific relationship description, and a 3-question practice quiz.".

Definition analyzeImage (env : Env) (base64Data : option jsstring)
    (mimeType : jsstring) : call value :=
  if negb (truthy (API_KEY env)) then
    (inr (Error (lit "API Key is missing. Please check your environment configuration.")), [])
  else
    let req := {| inlineMimeType := mimeType; inlineData := base64Data;
                  prompt := analyzePrompt; responseSchema := RESPONSE_SCHEMA |} in
    let failed := inr (Error (lit "Failed to analyze the diagram. Please try again.")) in
    match generateContent env req with
    | None => (failed, [req])
    | Some text =>
        if negb (truthy text) then (failed, [req])
        else match JSON_parse env (orElse text []) with
             | Some result => (inl result, [req])
             | None => (failed, [req])
             end
    end.

Definition morePrompt : jsstring :=
  lit "Generate 3 NEW and DIFFERENT multiple-choice practice questions based on this diagram. Focus on different aspects than standard identification if possible.".

(** [result.quiz] is read inside the [try]: on a reply that parses to
    [null] the read throws and the [catch] replaces the exception; on any
    other reply it gives the property, [undefined] when there is none. *)
Definition generateMoreQuestions (env : Env) (base64Data : option jsstring)
    (mimeType : jsstring) : call value :=
  if negb (truthy (API_KEY env)) then
    (inr (Error (lit "API Key is missing.")), [])
  else
    let req := {| inlineMimeType := mimeType; inlineData := base64Data;
                  prompt := morePrompt; responseSchema := QUIZ_ONLY_SCHEMA |} in
    let failed := inr (Error (lit "Failed to generate new questions.")) in
    match generateContent env req with
    | None => (failed, [req])
    | Some text =>
        if negb (truthy text) then (failed, [req])
        else match JSON_parse env (orElse text []) with
             | Some result =>
                 match get result (lit "quiz") with
                 | Some quiz => (inl quiz, [req])
                 | None => (failed, [req])
                 end
             | None => (failed, [req])
             end
    end.

Definition askAiTutor (env : Env) (base64Data : option jsstring)
    (mimeType : jsstring) (question : jsstring) : call jsstring :=
  if negb (truthy (API_KEY env)) then
    (inr (Error (lit "API Key is missing.")), [])
  else
    let req := {| inlineMimeType := mimeType; inlineData := base64Data;
                  prompt := question; responseSchema := noSchema |} in
    match generateContent env req with
    | None => (inr (Error (lit "Failed to get an answer.")), [req])
    | Some text =>
        (inl (orElse text (lit "I couldn't generate a response. Please try again.")), [req])
    end.

(** [src.split(',')[1]] *)
Definition rawBase64Of (src : jsstring) : option jsstring := split src 44 !! 1%nat.

(** The longest prefix free of semicolons and what follows it. *)
Fixpoint spanNotSemicolon (s : jsstring) : jsstring * jsstring :=
  match s with
  | [] => ([], [])
  | c :: s' => if c =? 59 then ([], s)
               else let '(b, r) := spanNotSemicolon s' in (c :: b, r)
  end.

(** Group 1 of the first match of the expression "data:", one or more
    characters other than a semicolon, a semicolon; [None] when nothing
    matches. *)
Fixpoint dataMimeMatch (s : jsstring) : option jsstring :=
  match s with
  | [] => None
  | _ :: s' =>
      if startsWith s (lit "data:") then
        match spanNotSemicolon (drop 5 s) with
        | (c :: b, semi :: _) => Some (c :: b)
        | _ => dataMimeMatch s'
        end
      else dataMimeMatch s'
  end.

(** [src.match(re)?.[1] || 'image/png'] *)
Definition mimeTypeOf (src : jsstring) : jsstring :=
  orElse (dataMimeMatch src) (lit "image/png").

End Service.

(* ===================================================================== *)
(** ** components/QuizView.tsx                                            *)
(* ===================================================================== *)

Module QuizView.
Import JS Types Service.

Inductive Sender : Type := user | ai.

(** [id] is the number whose decimal form the source stores. *)
Record ChatMessage : Type := {
  id : Z;
  sender : Sender;
  text : jsstring
}.

(** A slot of [userAnswers]: [null], a number, or an empty slot of the
    array (read as [undefined]). *)
Inductive answer : Type :=
  | null
  | number (index : Z)
  | emptySlot.

(** [a[i]] for a number [i]; [None] is [undefined]. *)
Definition arrayGet {A : Type} (a : list A) (i : Z) : option A :=
  if (i <? 0)%Z then None else a !! Z.to_nat i.

(** [a[i] = v] on an array of answers: inside the array the slot is
    overwritten, beyond its end the array grows with empty slots, a
    negative [i] names a property and leaves the slots alone. *)
Definition arraySet (a : list answer) (i : Z) (v : answer) : list answer :=
  if (i <? 0)%Z then a
  else if decide (Z.to_nat i < length a)%nat then <[Z.to_nat i := v]> a
  else a ++ replicate (Z.to_nat i - length a) emptySlot ++ [v].

(** The props the handlers read and the state of the component. *)
Record State : Type := {
  questions : list QuizQuestion;
  imageSrc : option jsstring;
  currentQuestionIndex : Z;
  userAnswers : list answer;
  showResults : bool;
  chatMessages : list ChatMessage;
  chatInput : jsstring;
  isChatLoading : bool
}.

Definition setCurrentQuestionIndex (f : Z -> Z) (s : State) : State :=
  {| questions := questions s; imageSrc := imageSrc s;
     currentQuestionIndex := f (currentQuestionIndex s);
     userAnswers := userAnswers s; showResults := showResults s;
     chatMessages := chatMessages s; chatInput := chatInput s;
     isChatLoading := isChatLoading s |}.

Definition setUserAnswers (a : list answer) (s : State) : State :=
  {| questions := questions s; imageSrc := imageSrc s;
     currentQuestionIndex := currentQuestionIndex s;
     userAnswers := a; showResults := showResults s;
     chatMessages := chatMessages s; chatInput := chatInput s;
     isChatLoading := isChatLoading s |}.

Definition setShowResults (b : bool) (s : State) : State :=
  {| questions := questions s; imageSrc := imageSrc s;
     currentQuestionIndex := currentQuestionIndex s;
     userAnswers := userAnswers s; showResults := b;
     chatMessages := chatMessages s; chatInput := chatInput s;
     isChatLoading := isChatLoading s |}.

Definition setChatMessages (f : list ChatMessage -> list ChatMessage)
    (s : State) : State :=
  {| questions := questions s; imageSrc := imageSrc s;
     currentQuestionIndex := currentQuestionIndex s;
     userAnswers := userAnswers s; showResults := showResults s;
     chatMessages := f (chatMessages s); chatInput := chatInput s;
     isChatLoading := isChatLoading s |}.

Definition setChatInput (v : jsstring) (s : State) : State :=
  {| questions := questions s; imageSrc := imageSrc s;
     currentQuestionIndex := currentQuestionIndex s;
     userAnswers := userAnswers s; showResults := showResults s;
     chatMessages := chatMessages s; chatInput := v;
     isChatLoading := isChatLoading s |}.

Definition setIsChatLoading (b : bool) (s : State) : State :=
  {| questions := questions s; imageSrc := imageSrc s;
     currentQuestionIndex := currentQuestionIndex s;
     userAnswers := userAnswers s; showResults := showResults s;
     chatMessages := chatMessages s; chatInput := chatInput s;
     isChatLoading := b |}.

(** [new Array(questions.length).fill(null)] *)
Definition freshAnswers (qs : list QuizQuestion) : list answer :=
  replicate (length qs) null.

(** The component as first mounted. *)
Definition mount (qs : list QuizQuestion) (src : option jsstring) : State :=
  {| questions := qs; imageSrc := src; currentQuestionIndex := 0;
     userAnswers := freshAnswers qs; showResults := false;
     chatMessages := []; chatInput := []; isChatLoading := false |}.

(** [currentAnswer !== null] *)
Definition isAnswered (s : State) : bool :=
  match arrayGet (userAnswers s) (currentQuestionIndex s) with
  | Some null => false
  | _ => true
  end.

Definition handleOptionClick (index : Z) (s : State) : State :=
  if isAnswered s then s
  else
    let newAnswers := arraySet (userAnswers s) (currentQuestionIndex s) (number index) in
    setUserAnswers newAnswers s.

Definition handleNext (s : State) : State :=
  if (currentQuestionIndex s <? Z.of_nat (length (questions s)) - 1)%Z
  then setCurrentQuestionIndex (fun prev => prev + 1)%Z s
  else setShowResults true s.

Definition handlePrevious (s : State) : State :=
  if (currentQuestionIndex s >? 0)%Z
  then setCurrentQuestionIndex (fun prev => prev - 1)%Z s
  else s.

Definition resetQuiz (s : State) : State :=
  setShowResults false
    (setUserAnswers (freshAnswers (questions s))
       (setCurrentQuestionIndex (fun _ => 0%Z) s)).

(** The component given a new [questions] prop: the state is the one the
    hooks hold, it is the prop that differs. *)
Definition withQuestions (qs : list QuizQuestion) (s : State) : State :=
  {| questions := qs; imageSrc := imageSrc s;
     currentQuestionIndex := currentQuestionIndex s;
     userAnswers := userAnswers s; showResults := showResults s;
     chatMessages := chatMessages s; chatInput := chatInput s;
     isChatLoading := isChatLoading s |}.

(** The effect with the dependency [questions].  It runs after the render
    with the new prop has been committed. *)
Definition questionsEffect (s : State) : State :=
  setShowResults false
    (setUserAnswers (freshAnswers (questions s))
       (setCurrentQuestionIndex (fun _ => 0%Z) s)).

(** [handleChatSubmit] up to its [await]: the guard, the user message, the
    cleared input and the loading flag.  [now] is [Date.now()].  Returns the
    pending call of [askAiTutor] with the new state, or [None] when the
    guard returns at once. *)
Definition chatGuard (s : State) : bool :=
  isEmpty (trim (chatInput s)) || negb (truthy (imageSrc s)) || isChatLoading s.

Definition handleChatSubmit_send (now : Z) (s : State)
    : option ((option jsstring * jsstring * jsstring) * State) :=
  if chatGuard s then None
  else
    let userMsg := {| id := now; sender := user; text := chatInput s |} in
    let s1 := setIsChatLoading true
                (setChatInput []
                   (setChatMessages (fun prev => prev ++ [userMsg]) s)) in
    let src := orElse (imageSrc s) [] in
    Some ((rawBase64Of src, mimeTypeOf src, text userMsg), s1).

Definition apology : jsstring := lit "Sorry, I couldn't answer that right now.".

(** [handleChatSubmit] from the settled [await] on: the answer or the
    apology, then the [finally] clause.  [now] is the second [Date.now()]. *)
Definition handleChatSubmit_settle (outcome : jsstring + thrown) (now : Z)
    (s : State) : State :=
  let msg :=
    match outcome with
    | inl responseText => {| id := now + 1; sender := ai; text := responseText |}
    | inr _ => {| id := now + 1; sender := ai; text := apology |}
    end in
  setIsChatLoading false (setChatMessages (fun prev => prev ++ [msg]) s).

(** What the handlers of a mounted component can be called with. *)
Inductive event : Type :=
  | OptionClick (index : Z)
  | Next
  | Previous
  | ResetQuiz
  | ChatInputChanged (v : jsstring)
  | ChatSubmit (now : Z)
  | ChatSettled (outcome : jsstring + thrown) (now : Z).

Definition step (s : State) (e : event) : State :=
  match e with
  | OptionClick index => handleOptionClick index s
  | Next => handleNext s
  | Previous => handlePrevious s
  | ResetQuiz => resetQuiz s
  | ChatInputChanged v => setChatInput v s
  | ChatSubmit now =>
      match handleChatSubmit_send now s with
      | Some (_, s') => s'
      | None => s
      end
  | ChatSettled outcome now => handleChatSubmit_settle outcome now s
  end.

Definition run (s : State) (es : list event) : State := foldl step s es.

(** [handleChatSubmit] with the answer of the service at hand. *)
Definition handleChatSubmit (env : Env) (now now' : Z) (s : State) : State :=
  match handleChatSubmit_send now s with
  | Some ((raw, mime, q), s1) =>
      handleChatSubmit_settle (fst (askAiTutor env raw mime q)) now' s1
  | None => s
  end.

(** [userAnswers.reduce(callback, 0)] from [index] on with the accumulator
    [score]: the callback is not called on an empty slot; on a filled one it
    reads [questions[index].correctAnswerIndex], which throws when
    [questions[index]] is undefined ([None]), and adds one when the answer
    is strictly equal to it, which [null] never is. *)
Fixpoint scoreFrom (index : nat) (answers : list answer)
    (qs : list QuizQuestion) (score : Z) : option Z :=
  match answers with
  | [] => Some score
  | emptySlot :: rest => scoreFrom (S index) rest qs score
  | a :: rest =>
      match qs !! index with
      | None => None
      | Some q =>
          let hit :=
            match a with
            | number n => (n =? correctAnswerIndex q)%Z
            | _ => false
            end in
          scoreFrom (S index) rest qs (if hit then (score + 1)%Z else score)
      end
  end.

Definition calculateScore (s : State) : option Z :=
  scoreFrom 0 (userAnswers s) (questions s) 0.

(** What the component returns: the notice of an empty quiz, the results
    with the score, or the current question with its answer.  [None] is an
    exception thrown while rendering: [calculateScore] throwing, or a
    property read on an undefined [currentQuestion].  The percentage and
    the feedback message of the results are computed from the score in
    floating point and are left out. *)
Inductive view : Type :=
  | NoQuestions
  | Results (score : Z)
  | Question (currentQuestion : QuizQuestion) (currentAnswer : option answer).

Definition renderQuiz (s : State) : option view :=
  if decide (length (questions s) = 0%nat) then Some NoQuestions
  else if showResults s then
    match calculateScore s with
    | Some score => Some (Results score)
    | None => None
    end
  else
    match arrayGet (questions s) (currentQuestionIndex s) with
    | Some q => Some (Question q (arrayGet (userAnswers s) (currentQuestionIndex s)))
    | None => None
    end.

(** The life of the component.  After a handler has set state, and when
    the parent passes a new [questions] array, the component function runs
    again; an exception thrown by it is caught by nothing (there is no
    error boundary), so the component is removed: [None].  A new
    [questions] array is first rendered with the state as it is; the effect
    that resets the state runs only once that render has returned, and the
    reset state is rendered in turn. *)
Inductive update : Type :=
  | Handled (e : event)
  | NewQuestions (qs : list QuizQuestion).

Definition commit (s : State) : option State :=
  match renderQuiz s with
  | Some _ => Some s
  | None => None
  end.

Definition advance (s : State) (u : update) : option State :=
  match u with
  | Handled e => commit (step s e)
  | NewQuestions qs =>
      match commit (withQuestions qs s) with
      | Some rendered => commit (questionsEffect rendered)
      | None => None
      end
  end.

Definition life (mounted : option State) (us : list update) : option State :=
  foldl (fun o u => match o with Some s => advance s u | None => None end)
    mounted us.

End QuizView.

(* ===================================================================== *)
(** ** App.tsx                                                            *)
(* ===================================================================== *)

Module App.
Import JS Types Service.

(** What [processFile] uses of a [File]: its MIME type, and what reading it
    as a data URL gives ([None] when the reader fails). *)
Record File : Type := {
  type : jsstring;
  dataURL : option jsstring
}.

(** A promise the component awaits, with what its continuation holds: the
    file [processFile] is reading, the outcome of the analysis it has asked
    for, or the outcome of the call for more questions together with the
    [result] that [handleGenerateMoreQuestions] read when it was called. *)
Inductive task : Type :=
  | Reading (file : File)
  | Analyzing (outcome : value + thrown)
  | Generating (captured : value) (outcome : value + thrown).

(** The state of the component, the value of the file input when it is
    mounted, the requests sent to the model so far and the promises that
    have not settled yet. *)
Record State : Type := {
  image : option jsstring;
  result : value;
  processingState : ProcessingState;
  isDragging : bool;
  isGeneratingMore : bool;
  fileInput : option jsstring;
  apiCalls : list request;
  pending : list task
}.

Definition initial : State :=
  {| image := None; result := Null;
     processingState := {| status := idle; ps_error := None |};
     isDragging := false; isGeneratingMore := false;
     fileInput := Some []; apiCalls := []; pending := [] |}.

(** Handlers are written in a monad of state and exceptions; an [await] is
    a bind. *)
Definition M (A : Type) : Type := State -> (A + thrown) * State.

Definition ret {A : Type} (a : A) : M A := fun s => (inl a, s).

Definition bind {A B : Type} (m : M A) (k : A -> M B) : M B :=
  fun s => match m s with
           | (inl a, s') => k a s'
           | (inr e, s') => (inr e, s')
           end.

Definition throw {A : Type} (e : thrown) : M A := fun s => (inr e, s).

Definition tryCatch {A : Type} (body : M A) (handler : thrown -> M A) : M A :=
  fun s => match body s with
           | (inl a, s') => (inl a, s')
           | (inr e, s') => handler e s'
           end.

(** [try body finally cleanup] *)
Definition tryFinally {A : Type} (body : M A) (cleanup : M unit) : M A :=
  fun s => match body s with
           | (r, s') => match cleanup s' with
                        | (inl _, s'') => (r, s'')
                        | (inr e, s'') => (inr e, s'')
                        end
           end.

Definition modify (f : State -> State) : M unit := fun s => (inl tt, f s).

Declare Scope app_scope.
Delimit Scope app_scope with app.
Notation "x <- m ;; k" := (bind m (fun x => k))
  (at level 100, m at next level, right associativity) : app_scope.
Notation "m ;; k" := (bind m (fun _ => k))
  (at level 100, right associativity) : app_scope.
Local Open Scope app_scope.

Definition setImage (v : option jsstring) : M unit :=
  modify (fun s =>
    {| image := v; result := result s; processingState := processingState s;
       isDragging := isDragging s; isGeneratingMore := isGeneratingMore s;
       fileInput := fileInput s; apiCalls := apiCalls s; pending := pending s |}).

Definition setResult (v : value) : M unit :=
  modify (fun s =>
    {| image := image s; result := v; processingState := processingState s;
       isDragging := isDragging s; isGeneratingMore := isGeneratingMore s;
       fileInput := fileInput s; apiCalls := apiCalls s; pending := pending s |}).

Definition setProcessingState (v : ProcessingState) : M unit :=
  modify (fun s =>
    {| image := image s; result := result s; processingState := v;
       isDragging := isDragging s; isGeneratingMore := isGeneratingMore s;
       fileInput := fileInput s; apiCalls := apiCalls s; pending := pending s |}).

Definition setIsGeneratingMore (v : bool) : M unit :=
  modify (fun s =>
    {| image := image s; result := result s; processingState := processingState s;
       isDragging := isDragging s; isGeneratingMore := v;
       fileInput := fileInput s; apiCalls := apiCalls s; pending := pending s |}).

Definition clearFileInput : M unit :=
  modify (fun s =>
    {| image := image s; result := result s; processingState := processingState s;
       isDragging := isDragging s; isGeneratingMore := isGeneratingMore s;
       fileInput := match fileInput s with Some _ => Some [] | None => None end;
       apiCalls := apiCalls s; pending := pending s |}).

(** Awaiting a service call with nothing happening meanwhile: its requests
    reach the model, its outcome is returned or thrown. *)
Definition await {A : Type} (c : call A) : M A :=
  fun s =>
    (fst c,
     {| image := image s; result := result s; processingState := processingState s;
        isDragging := isDragging s; isGeneratingMore := isGeneratingMore s;
        fileInput := fileInput s; apiCalls := apiCalls s ++ snd c;
        pending := pending s |}).

Definition readFileAsBase64 (file : File) : M jsstring :=
  match dataURL file with
  | Some url => ret url
  | None => throw ProgressEvent
  end.

(** [processFile] run from its first line to its last with nothing
    happening at its two [await]s. *)
Definition processFile (env : Env) (file : File) : M unit :=
  setImage None ;;
  setResult Null ;;
  setProcessingState {| status := analyzing; ps_error := None |} ;;
  if negb (startsWith (type file) (lit "image/")) then
    setProcessingState
      {| status := error;
         ps_error := Some (lit "Please upload a valid image file.") |}
  else
    tryCatch
      (base64Data <- readFileAsBase64 file ;;
       setImage (Some base64Data) ;;
       let rawBase64 := rawBase64Of base64Data in
       let mimeType := type file in
       analysisData <- await (analyzeImage env rawBase64 mimeType) ;;
       setResult analysisData ;;
       setProcessingState {| status := complete; ps_error := None |})
      (fun err =>
         setProcessingState
           {| status := error;
              ps_error :=
                Some (orElse (message err)
                        (lit "An unexpected error occurred while processing the image.")) |}).

Definition handleReset : M unit :=
  setImage None ;;
  setResult Null ;;
  setProcessingState {| status := idle; ps_error := None |} ;;
  clearFileInput.

(** The state a handler leaves. *)
Definition exec {A : Type} (m : M A) (s : State) : State := snd (m s).

Definition setIsDragging (v : bool) : M unit :=
  modify (fun s =>
    {| image := image s; result := result s; processingState := processingState s;
       isDragging := v; isGeneratingMore := isGeneratingMore s;
       fileInput := fileInput s; apiCalls := apiCalls s; pending := pending s |}).

(** *** The handlers between their awaits

    An [async] function runs up to its first [await] when it is called and
    goes on when the awaited promise has settled; whatever the page lets
    the user do meanwhile runs in between.  So each function is cut at its
    [await]s: the first part leaves a [task], the settling of the task
    runs the next part. *)

Definition setPending (f : list task -> list task) : M unit :=
  modify (fun s =>
    {| image := image s; result := result s; processingState := processingState s;
       isDragging := isDragging s; isGeneratingMore := isGeneratingMore s;
       fileInput := fileInput s; apiCalls := apiCalls s;
       pending := f (pending s) |}).

Definition spawn (t : task) : M unit := setPending (fun ts => ts ++ [t]).

(** Calling a service function: what it sends leaves now, its outcome
    comes with the promise. *)
Definition callService {A : Type} (c : call A) : M (A + thrown) :=
  fun s =>
    (inl (fst c),
     {| image := image s; result := result s; processingState := processingState s;
        isDragging := isDragging s; isGeneratingMore := isGeneratingMore s;
        fileInput := fileInput s; apiCalls := apiCalls s ++ snd c;
        pending := pending s |}).

(** The value of a settled promise, returned or thrown. *)
Definition settled {A : Type} (outcome : A + thrown) : M A :=
  match outcome with
  | inl a => ret a
  | inr e => throw e
  end.

(** The [catch] clause of [processFile]. *)
Definition processFile_catch (err : thrown) : M unit :=
  setProcessingState
    {| status := error;
       ps_error :=
         Some (orElse (message err)
                 (lit "An unexpected error occurred while processing the image.")) |}.

(** [processFile] up to [await readFileAsBase64(file)]. *)
Definition processFile_start (file : File) : M unit :=
  setImage None ;;
  setResult Null ;;
  setProcessingState {| status := analyzing; ps_error := None |} ;;
  if negb (startsWith (type file) (lit "image/")) then
    setProcessingState
      {| status := error;
         ps_error := Some (lit "Please upload a valid image file.") |}
  else spawn (Reading file).

(** [processFile] from the settled read to [await analyzeImage(...)]. *)
Definition processFile_read (env : Env) (file : File) : M unit :=
  tryCatch
    (base64Data <- readFileAsBase64 file ;;
     setImage (Some base64Data) ;;
     let rawBase64 := rawBase64Of base64Data in
     let mimeType := type file in
     outcome <- callService (analyzeImage env rawBase64 mimeType) ;;
     spawn (Analyzing outcome))
    processFile_catch.

(** [processFile] from the settled analysis on. *)
Definition processFile_analyzed (outcome : value + thrown) : M unit :=
  tryCatch
    (analysisData <- settled outcome ;;
     setResult analysisData ;;
     setProcessingState {| status := complete; ps_error := None |})
    processFile_catch.

(** [{ ...result, quiz: newQuestions }] *)
Definition withQuiz (result newQuestions : value) : value :=
  Obj (assign (lit "quiz") newQuestions (ownEnumerable result)).

(** [handleGenerateMoreQuestions] up to [await generateMoreQuestions(...)]:
    the guard, the flag, the request.  The continuation keeps the [result]
    of the render in which the handler was created. *)
Definition handleGenerateMoreQuestions_send (env : Env) : M unit :=
  fun s =>
    match image s with
    | Some (c :: img) =>
        if truthyValue (result s) then
          (setIsGeneratingMore true ;;
           let rawBase64 := rawBase64Of (c :: img) in
           let mimeType := mimeTypeOf (c :: img) in
           outcome <- callService (generateMoreQuestions env rawBase64 mimeType) ;;
           spawn (Generating (result s) outcome)) s
        else (inl tt, s)
    | _ => (inl tt, s)
    end.

(** [handleGenerateMoreQuestions] from the settled call on: [setResult]
    with the spread of the [result] the continuation kept, the empty
    [catch], the [finally]. *)
Definition handleGenerateMoreQuestions_settle (captured : value)
    (outcome : value + thrown) : M unit :=
  tryFinally
    (tryCatch
       (newQuestions <- settled outcome ;;
        setResult (withQuiz captured newQuestions))
       (fun _ => ret tt))
    (setIsGeneratingMore false).

(** [files] is the list of files of the input, empty when there is none. *)
Definition handleFileChange (files : list File) : M unit :=
  match files !! 0%nat with
  | None => ret tt
  | Some file => processFile_start file
  end.

Definition handleDragOver : M unit := setIsDragging true.

Definition handleDragLeave : M unit := setIsDragging false.

Definition handleDrop (files : list File) : M unit :=
  setIsDragging false ;;
  match files !! 0%nat with
  | Some file => processFile_start file
  | None => ret tt
  end.

(** The continuation of a task. *)
Definition continue (env : Env) (t : task) : M unit :=
  match t with
  | Reading file => processFile_read env file
  | Analyzing outcome => processFile_analyzed outcome
  | Generating captured outcome =>
      handleGenerateMoreQuestions_settle captured outcome
  end.

(** The [i]-th pending promise settles. *)
Definition settle (env : Env) (i : nat) : M unit :=
  fun s =>
    match pending s !! i with
    | Some t => (setPending (delete i) ;; continue env t) s
    | None => (inl tt, s)
    end.

(** *** The app as the page wires it

    What can happen to the mounted app: the events of the elements the
    page shows, and the settling of a pending promise.  When a render
    throws (a child reads a property of a result that is not of the
    declared type), the app is removed and handles nothing more: a run of
    the app is then a beginning of a run below, so what holds of every
    state of every run below holds of the app. *)
Inductive event : Type :=
  | FileChange (files : list File)
  | DragOver
  | DragLeave
  | Drop (files : list File)
  | GenerateMore
  | Reset
  | Settled (i : nat).

Definition handler (env : Env) (e : event) : M unit :=
  match e with
  | FileChange files => handleFileChange files
  | DragOver => handleDragOver
  | DragLeave => handleDragLeave
  | Drop files => handleDrop files
  | GenerateMore => handleGenerateMoreQuestions_send env
  | Reset => handleReset
  | Settled i => settle env i
  end.

Definition hasStatus (s : State) (st : Status) : bool :=
  match status (processingState s), st with
  | idle, idle | analyzing, analyzing | complete, complete | error, error => true
  | _, _ => false
  end.

(** The elements that carry the handlers are rendered by status: the drop
    zone and the file input on the page of 'idle' only, 'Analyze New' in
    'complete', 'Try Again' in 'error', nothing that can be used in
    'analyzing'.  QuizView, which holds the button of [onGenerateMore], is
    rendered in 'complete' with a truthy [result], and the button is
    disabled while [isGeneratingMore]; that the button is shown on the
    page of the results of a quiz with questions only is left out, so the
    event is allowed in more states than the page allows it. *)
Definition enabled (s : State) (e : event) : bool :=
  match e with
  | FileChange _ | DragOver | DragLeave | Drop _ => hasStatus s idle
  | Reset => hasStatus s complete || hasStatus s error
  | GenerateMore =>
      hasStatus s complete && truthyValue (result s) && negb (isGeneratingMore s)
  | Settled _ => true
  end.

Definition step (env : Env) (s : State) (e : event) : State :=
  if enabled s e then exec (handler env e) s else s.

Definition run (env : Env) (s : State) (es : list event) : State :=
  foldl (step env) s es.

End App.

(* ===================================================================== *)
(** * Vocabulary of the properties                                         *)
(* ===================================================================== *)

(** The notions the statements below are written with.  None of them is
    part of the program. *)

Module FormatSpec.
Import JS ExplanationView.

(** *** The loop read line by line

    The loop of formatText from index [i] on, over the lines still to
    come; [after] is the line behind the last of them, if any.  It is the
    loop of the program ([FormatLoop.formatLoop_loopFrom]). *)

(** The line an iteration finds at [i + 1]. *)
Definition lookahead (rest : list jsstring) (after : option jsstring)
    : option jsstring :=
  match rest with
  | next :: _ => Some next
  | [] => after
  end.

(** The iterations for [lines], the first of them at index [i]. *)
Fixpoint loopFrom (i : nat) (lines : list jsstring) (after : option jsstring)
    (st : loopState) : loopState :=
  match lines with
  | [] => st
  | line :: rest =>
      loopFrom (S i) rest after (iteration i line (lookahead rest after) st)
  end.

(** The elements pushed for [lines] when they are numbered from [i]. *)
Definition formatFrom (i : nat) (lines : list jsstring) : list node :=
  elements (loopFrom i lines None (LoopState [] [])).

(** What a line that is not a bullet makes the loop push, if anything. *)
Definition blockOf (i : nat) (line : jsstring) : option node :=
  if startsWith line (lit "## ") then Some (H2 i (replace line (lit "## ")))
  else if startsWith line (lit "### ") then Some (H3 i (replace line (lit "### ")))
  else if numberedTest (trim line) then
    match numberedMatch line with
    | Some (num, rest) => Some (Numbered i num (parseInlineStyles rest))
    | None => None
    end
  else if isEmpty (trim line) then Some (Spacer i)
  else Some (P i (parseInlineStyles line)).

(** The list item a bullet line contributes. *)
Definition itemOf (i : nat) (line : jsstring) : li :=
  Li i (parseInlineStyles (replace line (lit "- "))).

(** The state the loop starts from. *)
Definition start : loopState := LoopState [] [].

(** The test on the next line only asks whether it is a bullet. *)
Definition nextIsBullet (nx : option jsstring) : bool :=
  match nx with
  | Some next => isBullet next
  | None => false
  end.

(** Items wait only while the next line is a bullet. *)
Definition comesBullet (lines : list jsstring) (after : option jsstring) : bool :=
  nextIsBullet (lookahead lines after).

(** The keys an element carries: its own, or for a list those of its
    items.  Read off the result in order they tell which lines contributed
    to it. *)
Definition keysOf (n : node) : list nat :=
  match n with
  | Ul _ items => map li_key items
  | H2 k _ | H3 k _ | Numbered k _ _ | Spacer k | P k _ => [k]
  end.

(** The lines for which the loop pushes nothing: no bullet, no heading,
    the numbered test passes on the trimmed line and the match on the line
    itself fails. *)
Definition dropped (line : jsstring) : bool :=
  negb (isBullet line)
  && negb (startsWith line (lit "## "))
  && negb (startsWith line (lit "### "))
  && numberedTest (trim line)
  && negb (bool_decide (is_Some (numberedMatch line))).

(** The indices, from [i] on, of the lines that are not dropped. *)
Fixpoint keptFrom (i : nat) (lines : list jsstring) : list nat :=
  match lines with
  | [] => []
  | line :: rest => (if dropped line then [] else [i]) ++ keptFrom (S i) rest
  end.

(** The keys pushed so far and, behind them, those of the waiting items. *)
Definition keys (st : loopState) : list nat :=
  concat (map keysOf (elements st)) ++ map li_key (currentListItems st).

(** A line written as plain parts and bold spans in turn: plain part,
    delimiter, bold text, delimiter, ..., last plain part. *)
Fixpoint assemble (segs : list (jsstring * jsstring)) (last : jsstring)
    : jsstring :=
  match segs with
  | [] => last
  | (t, b) :: segs' => t ++ boldDelim ++ b ++ boldDelim ++ assemble segs' last
  end.

(** The children expected for it, the first of them at position [k]. *)
Fixpoint spans (k : nat) (segs : list (jsstring * jsstring)) (last : jsstring)
    : list inline :=
  match segs with
  | [] => [Text last]
  | (t, b) :: segs' => Text t :: Strong (S k) b :: spans (S (S k)) segs' last
  end.

(** A part in which every star is followed by a character that is no
    star: it holds no delimiter and, put before one, adds no star to it. *)
Fixpoint starsApart (t : jsstring) : bool :=
  match t with
  | [] => true
  | c :: t' =>
      negb ((c =? star) && match t' with [] => true | d :: _ => d =? star end)
      && starsApart t'
  end.

(** A bold text: stars apart, and no line terminator, which the dot of the
    expression refuses. *)
Definition boldText (b : jsstring) : bool :=
  starsApart b && forallb (fun c => negb (isLineTerminator c)) b.

(** The parts of the split of an assembled line. *)
Fixpoint parts (piece : jsstring) (segs : list (jsstring * jsstring))
    (last : jsstring) : list jsstring :=
  match segs with
  | [] => [piece ++ last]
  | (t, b) :: segs' =>
      (piece ++ t) :: (boldDelim ++ b ++ boldDelim) :: parts [] segs' last
  end.

(** An assembled line in which the delimiters are the only pairs of stars
    and no span holds a line terminator. *)
Definition wellFormed (segs : list (jsstring * jsstring)) (last : jsstring)
    : Prop :=
  Forall (fun tb => starsApart tb.1 = true /\ boldText tb.2 = true) segs
  /\ starsApart last = true.

(** The element made of a part at position [i]. *)
Definition render (i : nat) (part : jsstring) : inline :=
  if startsWith part boldDelim && endsWith part boldDelim
  then Strong i (slice part 2 (-2))
  else Text part.

(** A string of white space only, the empty string included. *)
Definition allWhiteSpace (s : jsstring) : bool := forallb isWhiteSpace s.

(** An item made from a bullet line of [lines], keyed by its index. *)
Definition fromBulletLine (lines : list jsstring) (it : li) : Prop :=
  exists line, lines !! li_key it = Some line
               /\ isBullet line = true /\ it = itemOf (li_key it) line.

(** Items whose keys are the [length items] indices below [i]. *)
Definition keysBelow (i : nat) (items : list li) : Prop :=
  map li_key items = seq (i - length items) (length items)
  /\ (length items <= i)%nat.

(** A list element holds the items of the lines that end at its key. *)
Definition listShape (lines : list jsstring) (n : node) : Prop :=
  match n with
  | Ul k items =>
      items <> [] /\ keysBelow (S k) items /\ Forall (fromBulletLine lines) items
  | _ => True
  end.

(** The text a child stands for: a string itself, a bold element its text
    between the delimiters. *)
Definition sourceOf (x : inline) : jsstring :=
  match x with
  | Text s => s
  | Strong _ b => boldDelim ++ b ++ boldDelim
  end.

End FormatSpec.

Module StoreSpec.
Import JS ExplanationView ExplanationViewStore.

(** How the arrays in the store stand for the state of the functional
    loop: [h0] is the store the call found, [el] the array of elements. *)
Record Inv (h0 : store) (el : loc) (st : loopState) (cur : loc) (h : store)
    : Prop := {
  inv_old : take (length h0) h = h0;
  inv_len : (length h0 <= length h)%nat;
  inv_el : (length h0 <= el)%nat;
  inv_cur : (length h0 <= cur)%nat;
  inv_ne : cur <> el;
  inv_items : h !! cur = Some (LiArray (currentListItems st));
  inv_nodes : exists es,
    h !! el = Some (NodeArray es)
    /\ Forall2 (fun e n =>
                  readElement h e = Some n
                  /\ forall k c, e = Ul k c ->
                       c <> cur /\ c <> el /\ (c < length h)%nat)
               es (elements st)
}.

End StoreSpec.

Module QuizSpec.
Import JS Types Service QuizView.

Local Open Scope Z_scope.

(** The index names a question whenever there is one. *)
Definition indexInRange (s : State) : Prop :=
  questions s <> [] ->
  0 <= currentQuestionIndex s <= Z.of_nat (length (questions s)) - 1.

(** The event that clears the answers. *)
Definition isReset (e : event) : bool :=
  match e with
  | ResetQuiz => true
  | _ => false
  end.

(** The settling of a pending call of the tutor. *)
Definition isSettled (e : event) : bool :=
  match e with
  | ChatSettled _ _ => true
  | _ => false
  end.

(** The message shown for an outcome of [askAiTutor]. *)
Definition answerText (outcome : jsstring + thrown) : jsstring :=
  match outcome with
  | inl responseText => responseText
  | inr _ => apology
  end.

(** Sample data for the worked instances. *)
Definition sampleQuestion : QuizQuestion :=
  {| question := lit "Which part pumps?"; options := [lit "A"; lit "B"];
     correctAnswerIndex := 0; explanation := lit "The pump." |}.

Definition answeringEnv : Env :=
  {| API_KEY := Some (lit "key");
     generateContent := fun _ => Some (Some (lit "It is the pump."));
     JSON_parse := fun _ => None |}.

(** There is one slot per question and no slot is empty. *)
Definition answersFit (s : State) : Prop :=
  length (userAnswers s) = length (questions s)
  /\ Forall (fun a => a <> emptySlot) (userAnswers s).


(** The index names a question, or is 0 when there is none. *)
Definition indexFits (s : State) : Prop :=
  0 <= currentQuestionIndex s
  <= Z.max 0 (Z.of_nat (length (questions s)) - 1).

(** A new list of questions that the state at hand cannot be rendered
    with: on the page of the results it is shorter than the list before,
    on the page of a question it ends at or before the current index. *)
Definition tooShort (qs : list QuizQuestion) (s : State) : Prop :=
  qs <> []
  /\ if showResults s then (length qs < length (questions s))%nat
     else Z.of_nat (length qs) <= currentQuestionIndex s.

End QuizSpec.

Module AppSpec.
Import JS Types Service App.

(** The two states of error processFile can set by itself. *)
Definition invalidImage : ProcessingState :=
  {| status := error; ps_error := Some (lit "Please upload a valid image file.") |}.

Definition unexpected : jsstring :=
  lit "An unexpected error occurred while processing the image.".

(** Sample data for the worked instances: two questions and an analysis
    of the declared types, the JSON texts of the analysis and of a reply
    with the new question, a model that rejects every call and one that
    answers with these texts, which [JSON.parse] maps to these values, an
    image file, and the app after that file has been analysed. *)
Definition firstQuestion : QuizQuestion :=
  {| question := lit "Which part pumps?"; options := [lit "A"; lit "B"];
     correctAnswerIndex := 0; explanation := lit "The pump." |}.

Definition newQuestion : QuizQuestion :=
  {| question := lit "Which part fills?"; options := [lit "A"; lit "B"];
     correctAnswerIndex := 1; explanation := lit "The atrium." |}.

Definition sampleResult : AnalysisResult :=
  {| title := lit "The heart"; ar_explanation := lit "### Main Purpose";
     relationshipDescription := lit "Blood flows."; quiz := [firstQuestion] |}.

Definition quoted (s : jsstring) : jsstring := 34 :: s ++ [34].

Definition firstQuestionText : jsstring :=
  lit "{" ++ quoted (lit "question") ++ lit ":" ++ quoted (lit "Which part pumps?")
  ++ lit "," ++ quoted (lit "options") ++ lit ":["
  ++ quoted (lit "A") ++ lit "," ++ quoted (lit "B") ++ lit "],"
  ++ quoted (lit "correctAnswerIndex") ++ lit ":0,"
  ++ quoted (lit "explanation") ++ lit ":" ++ quoted (lit "The pump.")
  ++ lit "}".

Definition newQuestionText : jsstring :=
  lit "{" ++ quoted (lit "question") ++ lit ":" ++ quoted (lit "Which part fills?")
  ++ lit "," ++ quoted (lit "options") ++ lit ":["
  ++ quoted (lit "A") ++ lit "," ++ quoted (lit "B") ++ lit "],"
  ++ quoted (lit "correctAnswerIndex") ++ lit ":1,"
  ++ quoted (lit "explanation") ++ lit ":" ++ quoted (lit "The atrium.")
  ++ lit "}".

Definition analysisText : jsstring :=
  lit "{" ++ quoted (lit "title") ++ lit ":" ++ quoted (lit "The heart")
  ++ lit "," ++ quoted (lit "explanation") ++ lit ":"
  ++ quoted (lit "### Main Purpose")
  ++ lit "," ++ quoted (lit "relationshipDescription") ++ lit ":"
  ++ quoted (lit "Blood flows.")
  ++ lit "," ++ quoted (lit "quiz") ++ lit ":[" ++ firstQuestionText ++ lit "]}".

Definition quizText : jsstring :=
  lit "{" ++ quoted (lit "quiz") ++ lit ":[" ++ newQuestionText ++ lit "]}".

Definition failingEnv : Env :=
  {| API_KEY := Some (lit "key");
     generateContent := fun _ => None;
     JSON_parse := fun _ => None |}.

Definition quizEnv : Env :=
  {| API_KEY := Some (lit "key");
     generateContent := fun req =>
       match responseSchema req with
       | RESPONSE_SCHEMA => Some (Some analysisText)
       | QUIZ_ONLY_SCHEMA => Some (Some quizText)
       | noSchema => Some None
       end;
     JSON_parse := fun text =>
       if decide (text = analysisText) then Some (ofAnalysisResult sampleResult)
       else if decide (text = quizText)
            then Some (Obj [(lit "quiz", ofQuiz [newQuestion])])
            else None |}.

Definition pngFile : File :=
  {| type := lit "image/png";
     dataURL := Some (lit "data:image/png;base64,AAAA") |}.

Definition completeState : State :=
  run quizEnv initial [FileChange [pngFile]; Settled 0; Settled 0].

(** The files an event brings. *)
Definition filesOf (e : event) : list File :=
  match e with
  | FileChange files | Drop files => files
  | _ => []
  end.

(** The events that can send a request: a call for more questions and
    the settling of a promise (a settled read goes on to the analysis). *)
Definition mayCall (e : event) : bool :=
  match e with
  | GenerateMore | Settled _ => true
  | _ => false
  end.

(** The promises of [processFile] and those of
    [handleGenerateMoreQuestions]. *)
Definition ofProcessFile (t : task) : bool :=
  match t with
  | Reading _ | Analyzing _ => true
  | Generating _ _ => false
  end.

Definition fileTasks (s : State) : list task :=
  List.filter ofProcessFile (pending s).

Definition generatingTasks (s : State) : list task :=
  List.filter (fun t => negb (ofProcessFile t)) (pending s).

(** What each page of the app has at hand.  In 'idle' there is no image;
    in 'analyzing' exactly one [processFile] is under way, reading with no
    image yet or waiting for the analysis with the image set; in
    'complete' there is an image; outside 'analyzing' no [processFile] is
    under way.  And [isGeneratingMore] is set exactly while one call for
    more questions is pending, of which there is never more than one. *)
Definition orderly (s : State) : Prop :=
  match status (processingState s) with
  | idle => image s = None /\ fileTasks s = []
  | analyzing =>
      (exists file, fileTasks s = [Reading file] /\ image s = None)
      \/ (exists outcome, fileTasks s = [Analyzing outcome] /\ is_Some (image s))
  | complete => is_Some (image s) /\ fileTasks s = []
  | error => fileTasks s = []
  end
  /\ length (generatingTasks s) = if isGeneratingMore s then 1%nat else 0%nat.

(** A reader gives a data URL, which starts with "data:": it is never
    the empty string. *)
Definition readable (file : File) : Prop := dataURL file <> Some [].

Definition imagesReadable (s : State) : Prop :=
  image s <> Some []
  /\ Forall (fun t => match t with
                      | Reading file => readable file
                      | _ => True
                      end) (pending s).

(** The data URL a reader gives for a file of type [mime] whose content
    encodes to [payload]. *)
Definition dataUrlOf (mime payload : jsstring) : jsstring :=
  lit "data:" ++ mime ++ lit ";base64," ++ payload.

(** A string in which the character [c] does not occur. *)
Definition without (c : char) (s : jsstring) : bool :=
  forallb (fun x => negb (x =? c)) s.

(** The three messages the service functions throw with. *)
Definition keyMissingLong : jsstring :=
  lit "API Key is missing. Please check your environment configuration.".

Definition keyMissing : jsstring := lit "API Key is missing.".

Definition analysisFailed : jsstring :=
  lit "Failed to analyze the diagram. Please try again.".

(** The request a service function sends for an image. *)
Definition requestFor (mime : jsstring) (data : option jsstring)
    (text : jsstring) (sch : schema) : request :=
  {| inlineMimeType := mime; inlineData := data; prompt := text;
     responseSchema := sch |}.

End AppSpec.

(* ===================================================================== *)
(** * Properties                                                          *)
(* ===================================================================== *)

(** ** Strings *)

Module JSFacts.
Import JS.

(** Literals are replaced by their code units before a proof computes. *)
Ltac lits :=
  repeat match goal with
         | |- context [lit ?s] =>
             let v := eval vm_compute in (lit s) in change (lit s) with v
         | H : context [lit ?s] |- _ =>
             let v := eval vm_compute in (lit s) in change (lit s) with v in H
         end.

Lemma startsWith_app (p r : jsstring) : startsWith (p ++ r) p = true.
Proof.
  induction p as [|a p IH]; simpl; [done|].
  by rewrite N.eqb_refl, IH.
Qed.

Lemma startsWith_inv (s p : jsstring) :
  startsWith s p = true -> s = p ++ drop (length p) s.
Proof.
  revert s; induction p as [|a p IH]; intros [|b s]; simpl; try done.
  intros [Hab Hs]%andb_prop. apply N.eqb_eq in Hab as ->.
  f_equal. by apply IH.
Qed.

Lemma trimStart_snoc (x : jsstring) (c : char) :
  isWhiteSpace c = false -> exists y, trimStart (x ++ [c]) = y ++ [c].
Proof.
  intros Hc. induction x as [|d x IH]; simpl.
  - rewrite Hc. by exists [].
  - destruct (isWhiteSpace d); [exact IH|]. by exists (d :: x).
Qed.

(** Trimming keeps a first character that is not white space. *)
Lemma trim_head (c : char) (s : jsstring) :
  isWhiteSpace c = false -> exists y, trim (c :: s) = c :: y.
Proof.
  intros Hc. unfold trim, trimEnd. simpl trimStart. rewrite Hc.
  simpl rev. destruct (trimStart_snoc (rev s) c Hc) as [y ->].
  exists (rev y). by rewrite rev_app_distr.
Qed.

Lemma replace_prefix (s p : jsstring) :
  s <> [] -> startsWith s p = true -> replace s p = drop (length p) s.
Proof. destruct s; [done|]. simpl replace. by intros _ ->. Qed.

End JSFacts.

(** ** The loop of formatText *)

Module FormatLoop.
Import JS ExplanationView FormatSpec JSFacts.

(** The index loop is the line-by-line loop. *)
Lemma foldl_loopBody (pre suf : list jsstring) (st : loopState) :
  foldl (loopBody (pre ++ suf)) st (seq (length pre) (length suf))
  = loopFrom (length pre) suf None st.
Proof.
  revert pre st. induction suf as [|l suf IH]; intros pre st; [done|].
  simpl. unfold loopBody at 2.
  rewrite list_lookup_middle by done.
  replace ((pre ++ l :: suf) !! (length pre + 1)%nat) with (lookahead suf None).
  2:{ rewrite lookup_app_r by lia.
      replace (length pre + 1 - length pre)%nat with 1%nat by lia.
      by destruct suf. }
  specialize (IH (pre ++ [l])).
  rewrite <- (assoc_L (++)) in IH. simpl in IH.
  rewrite length_app in IH. simpl in IH.
  replace (length pre + 1)%nat with (S (length pre)) in IH by lia.
  apply IH.
Qed.

Lemma formatLoop_loopFrom (lines : list jsstring) :
  formatLoop lines = loopFrom 0 lines None start.
Proof. apply (foldl_loopBody [] lines). Qed.

Lemma formatLines_formatFrom (lines : list jsstring) :
  formatLines lines = formatFrom 0 lines.
Proof. unfold formatLines, formatFrom. by rewrite formatLoop_loopFrom. Qed.

Lemma iteration_bullet (i : nat) (line : jsstring) (nx : option jsstring)
    (st : loopState) :
  isBullet line = true ->
  iteration i line nx st =
    if nextIsBullet nx
    then LoopState (elements st) (currentListItems st ++ [itemOf i line])
    else LoopState (elements st ++ [Ul i (currentListItems st ++ [itemOf i line])]) [].
Proof.
  intros Hb. unfold iteration. rewrite Hb.
  destruct nx as [[|c next]|]; simpl; try done.
  by destruct (isBullet (c :: next)).
Qed.

Lemma iteration_block (i : nat) (line : jsstring) (nx : option jsstring)
    (st : loopState) :
  isBullet line = false ->
  iteration i line nx st =
    match blockOf i line with
    | Some n => push n st
    | None => st
    end.
Proof.
  intros Hb. unfold iteration, blockOf. rewrite Hb.
  repeat (match goal with |- context [if ?b then _ else _] => destruct b end;
          try done).
  by destruct (numberedMatch line) as [[??]|].
Qed.

(** A heading line is not a bullet line. *)
Lemma hash_not_bullet (line : jsstring) :
  startsWith line (lit "#") = true -> isBullet line = false.
Proof.
  lits. destruct line as [|c line]; [done|]. simpl.
  rewrite andb_true_r. intros ->%N.eqb_eq.
  destruct (trim_head 35 line eq_refl) as [y Hy].
  unfold isBullet. by rewrite Hy.
Qed.

Lemma loopFrom_app (a b : list jsstring) (i : nat) (after : option jsstring)
    (st : loopState) :
  loopFrom i (a ++ b) after st
  = loopFrom (i + length a) b after (loopFrom i a (lookahead b after) st).
Proof.
  revert i st. induction a as [|l a IH]; intros i st; simpl.
  - by rewrite Nat.add_0_r.
  - rewrite IH. replace (S i + length a)%nat with (i + S (length a))%nat by lia.
    by destruct a.
Qed.

(** The elements already pushed are never touched again. *)
Lemma iteration_frame (i : nat) (line : jsstring) (nx : option jsstring)
    (E es : list node) (cur : list li) :
  iteration i line nx (LoopState (E ++ es) cur)
  = LoopState (E ++ elements (iteration i line nx (LoopState es cur)))
              (currentListItems (iteration i line nx (LoopState es cur))).
Proof.
  destruct (isBullet line) eqn:Hb.
  - rewrite !iteration_bullet by done. simpl.
    destruct (nextIsBullet nx); simpl; by rewrite ?(assoc_L (++)).
  - rewrite !iteration_block by done.
    destruct (blockOf i line); simpl; [|done].
    unfold push; simpl. by rewrite (assoc_L (++)).
Qed.

Lemma loopFrom_frame (lines : list jsstring) (i : nat) (after : option jsstring)
    (E es : list node) (cur : list li) :
  loopFrom i lines after (LoopState (E ++ es) cur)
  = LoopState (E ++ elements (loopFrom i lines after (LoopState es cur)))
              (currentListItems (loopFrom i lines after (LoopState es cur))).
Proof.
  revert i es cur. induction lines as [|l lines IH]; intros i es cur; [done|].
  simpl. rewrite iteration_frame.
  destruct (iteration i l (lookahead lines after) (LoopState es cur)) as [es' cur'].
  simpl. apply IH.
Qed.

Lemma loopFrom_elements (lines : list jsstring) (i : nat)
    (after : option jsstring) (es : list node) (cur : list li) :
  elements (loopFrom i lines after (LoopState es cur))
  = es ++ elements (loopFrom i lines after (LoopState [] cur)).
Proof.
  rewrite <- (app_nil_r es) at 1. by rewrite loopFrom_frame.
Qed.

(** A run of bullet lines that ends before a line that is no bullet, or at
    the end of the input, pushes one list. *)
Lemma loopFrom_run (run : list jsstring) (i : nat) (after : option jsstring)
    (es : list node) (cur : list li) :
  run <> [] ->
  Forall (fun l => isBullet l = true) run ->
  nextIsBullet after = false ->
  loopFrom i run after (LoopState es cur)
  = LoopState
      (es ++ [Ul (i + length run - 1)
                 (cur ++ imap (fun j l => itemOf (i + j) l) run)]) [].
Proof.
  intros Hne Hall Hafter. revert i cur.
  induction run as [|l run IH]; intros i cur; [done|].
  apply Forall_cons in Hall as [Hl Hall].
  simpl loopFrom. rewrite iteration_bullet by done.
  destruct run as [|l2 run].
  - simpl. rewrite Hafter. simpl.
    by rewrite Nat.add_0_r, Nat.add_sub.
  - simpl lookahead. simpl nextIsBullet.
    pose proof Hall as Hall'. apply Forall_cons in Hall' as [-> _].
    simpl elements. simpl currentListItems.
    rewrite IH by done.
    do 4 f_equal.
    + simpl. lia.
    + rewrite <- (assoc_L (++)). f_equal.
      etrans; [|symmetry; apply imap_cons].
      cbv beta. rewrite Nat.add_0_r. cbn [app]. f_equal.
      apply imap_ext. intros j x _. simpl. f_equal. lia.
Qed.

Lemma loopFrom_flushed (lines : list jsstring) (i : nat)
    (after : option jsstring) (st : loopState) :
  currentListItems st = [] \/ comesBullet lines after = true ->
  nextIsBullet after = false ->
  currentListItems (loopFrom i lines after st) = [].
Proof.
  intros Hst Hafter. revert i st Hst.
  induction lines as [|l lines IH]; intros i st Hst.
  - destruct Hst as [Hst|Hst]; [done|].
    unfold comesBullet in Hst. simpl in Hst. congruence.
  - simpl. apply IH.
    destruct (isBullet l) eqn:Hl.
    + rewrite iteration_bullet by done. unfold comesBullet.
      destruct (nextIsBullet (lookahead lines after)); [by right|by left].
    + rewrite iteration_block by done. left.
      destruct Hst as [Hst|Hst].
      * by destruct (blockOf i l).
      * unfold comesBullet in Hst. simpl in Hst. congruence.
Qed.

(** What follows a line that is no bullet does not matter to it. *)
Lemma loopFrom_after (lines : list jsstring) (i : nat)
    (after after' : option jsstring) (st : loopState) :
  (forall l, last lines = Some l -> isBullet l = false) ->
  loopFrom i lines after st = loopFrom i lines after' st.
Proof.
  revert i st. induction lines as [|l lines IH]; intros i st Hlast; [done|].
  simpl. destruct lines as [|l2 lines].
  - simpl. by rewrite !iteration_block by (by apply Hlast).
  - simpl lookahead. apply IH. intros l0 H0. by apply Hlast.
Qed.

(** Where an element of the result comes from. *)
Lemma loopFrom_origin (lines : list jsstring) (i : nat)
    (after : option jsstring) (st : loopState) (n : node) :
  n ∈ elements (loopFrom i lines after st) ->
  n ∈ elements st
  \/ (exists j line, lines !! j = Some line /\ isBullet line = false
                     /\ blockOf (i + j) line = Some n)
  \/ (exists k items, n = Ul k items).
Proof.
  revert i st. induction lines as [|l lines IH]; intros i st Hn; [by left|].
  simpl in Hn. apply IH in Hn as [Hn|[(j & line & Hj & Hb & Hblock)|Hn]].
  - destruct (isBullet l) eqn:Hl.
    + rewrite iteration_bullet in Hn by done.
      destruct (nextIsBullet _); simpl in Hn; [by left|].
      apply elem_of_app in Hn as [Hn|Hn%list_elem_of_singleton]; [by left|].
      right; right; eauto.
    + rewrite iteration_block in Hn by done.
      destruct (blockOf i l) as [b|] eqn:Hblock; [|by left].
      unfold push in Hn; simpl in Hn.
      apply elem_of_app in Hn as [Hn|Hn%list_elem_of_singleton]; [by left|].
      subst b. right; left. exists 0%nat, l.
      by rewrite Nat.add_0_r.
  - right; left. exists (S j), line.
    by replace (i + S j)%nat with (S i + j)%nat by lia.
  - by right; right.
Qed.

(** Every line that is no bullet has its block in the result. *)
Lemma loopFrom_block (lines : list jsstring) (j : nat) (line : jsstring)
    (n : node) :
  lines !! j = Some line -> isBullet line = false ->
  blockOf j line = Some n ->
  n ∈ formatLines lines.
Proof.
  intros Hj Hb Hblock. unfold formatLines. rewrite formatLoop_loopFrom.
  rewrite <- (take_drop_middle lines j line Hj).
  rewrite loopFrom_app. simpl loopFrom.
  assert (Hlen : length (take j lines) = j).
  { apply lookup_lt_Some in Hj. rewrite length_take. lia. }
  rewrite Hlen. simpl.
  rewrite iteration_block, Hblock by done.
  destruct (loopFrom 0 (take j lines) _ start) as [es cur].
  unfold push. simpl. rewrite loopFrom_elements.
  apply elem_of_app. left. apply elem_of_app. right. by apply list_elem_of_singleton.
Qed.

(** [formatFrom i] is the loop of the program behind [i] blank lines: they
    give their [i] spacers, and the lines behind them are numbered from
    [i]. *)
Lemma loopFrom_blank (n j : nat) (after : option jsstring) (es : list node) :
  loopFrom j (replicate n []) after (LoopState es [])
  = LoopState (es ++ map Spacer (seq j n)) [].
Proof.
  revert j es. induction n as [|n IH]; intros j es; simpl.
  - by rewrite app_nil_r.
  - change (iteration j [] (lookahead (replicate n []) after) (LoopState es []))
      with (LoopState (es ++ [Spacer j]) []).
    rewrite IH. by rewrite <- (assoc_L (++)).
Qed.

Lemma formatFrom_blank_lines (i : nat) (lines : list jsstring) :
  formatLines (replicate i [] ++ lines) = map Spacer (seq 0 i) ++ formatFrom i lines.
Proof.
  unfold formatLines, formatFrom. rewrite formatLoop_loopFrom, loopFrom_app.
  rewrite length_replicate. unfold start. rewrite loopFrom_blank.
  simpl. by rewrite loopFrom_elements.
Qed.

End FormatLoop.

(** ** formatText: blocks, bullet runs, headings *)

Module FormatText.
Import JS ExplanationView FormatSpec JSFacts FormatLoop.

(** *** Which lines reach the result *)

Lemma blockOf_dropped (i : nat) (line : jsstring) :
  isBullet line = false ->
  match blockOf i line with
  | Some n => dropped line = false /\ keysOf n = [i]
  | None => dropped line = true
  end.
Proof.
  intros Hb. unfold blockOf, dropped. rewrite Hb.
  destruct (startsWith line (lit "## ")); [done|].
  destruct (startsWith line (lit "### ")); [done|].
  destruct (numberedTest (trim line)).
  - by destruct (numberedMatch line) as [[??]|].
  - by destruct (isEmpty (trim line)).
Qed.

Lemma loopFrom_keys (lines : list jsstring) (i : nat)
    (after : option jsstring) (st : loopState) :
  currentListItems st = [] \/ comesBullet lines after = true ->
  keys (loopFrom i lines after st) = keys st ++ keptFrom i lines.
Proof.
  revert i st. induction lines as [|l lines IH]; intros i st Hst.
  - simpl. by rewrite app_nil_r.
  - simpl. destruct (isBullet l) eqn:Hl.
    + rewrite IH.
      * rewrite iteration_bullet by done.
        replace (dropped l) with false by (unfold dropped; by rewrite Hl).
        rewrite (assoc_L (++)). f_equal. unfold keys.
        destruct (nextIsBullet _); simpl.
        -- by rewrite List.map_app, (assoc_L (++)).
        -- rewrite List.map_app, concat_app. simpl.
           by rewrite List.map_app, !app_nil_r, (assoc_L (++)).
      * rewrite iteration_bullet by done. unfold comesBullet.
        destruct (nextIsBullet (lookahead lines after)); [by right|by left].
    + assert (Hcur : currentListItems st = []).
      { destruct Hst as [?|Hst]; [done|].
        unfold comesBullet in Hst. simpl in Hst. congruence. }
      pose proof (blockOf_dropped i l Hl) as Hblock.
      rewrite iteration_block by done.
      destruct (blockOf i l) as [n|].
      * destruct Hblock as [-> Hn]. rewrite IH by (by left).
        rewrite (assoc_L (++)). f_equal. unfold keys, push. simpl.
        rewrite Hcur, List.map_app, concat_app. simpl.
        by rewrite Hn, !app_nil_r.
      * rewrite Hblock. simpl. by apply IH; left.
Qed.

(** Every line but the dropped ones contributes its key exactly once, as
    an element of its own or as an item of a list, in the order of the
    lines. *)
Lemma formatLines_keys (lines : list jsstring) :
  concat (map keysOf (formatLines lines)) = keptFrom 0 lines.
Proof.
  unfold formatLines. rewrite formatLoop_loopFrom.
  pose proof (loopFrom_keys lines 0 None start (or_introl eq_refl)) as Hk.
  pose proof (loopFrom_flushed lines 0 None start (or_introl eq_refl) eq_refl) as Hc.
  unfold keys in Hk. rewrite Hc in Hk. simpl in Hk.
  by rewrite app_nil_r in Hk.
Qed.

Lemma trimStart_suffix (s : jsstring) : exists w, s = w ++ trimStart s.
Proof.
  induction s as [|c s [w IH]]; [by exists []|]. simpl.
  destruct (isWhiteSpace c); [|by exists []].
  exists (c :: w). simpl. by f_equal.
Qed.

Lemma trimEnd_prefix (s : jsstring) : exists w, s = trimEnd s ++ w.
Proof.
  unfold trimEnd. destruct (trimStart_suffix (rev s)) as [w Hw].
  exists (rev w). rewrite <- rev_app_distr, <- Hw. by rewrite rev_involutive.
Qed.

Lemma spanDigits_app (p w ds r : jsstring) (x : char) :
  spanDigits p = (ds, x :: r) -> spanDigits (p ++ w) = (ds, x :: r ++ w).
Proof.
  revert ds. induction p as [|c p IH]; intros ds; simpl; [done|].
  destruct (isDigit c).
  - destruct (spanDigits p) as [ds' r'] eqn:Hp. intros [= <- ->].
    by rewrite (IH ds' eq_refl).
  - by intros [= <- <- <-].
Qed.

(** Only an indented numbered line is dropped. *)
Lemma dropped_indented (line : jsstring) :
  dropped line = true ->
  numberedTest (trim line) = true
  /\ exists c rest, line = c :: rest /\ isWhiteSpace c = true.
Proof.
  unfold dropped. intros [[_ Htest]%andb_prop Hmatch]%andb_prop.
  split; [done|].
  destruct line as [|c rest]; [done|].
  destruct (isWhiteSpace c) eqn:Hc; [by eexists _, _|].
  exfalso. apply negb_true_iff, bool_decide_eq_false in Hmatch. apply Hmatch.
  unfold trim in Htest. simpl trimStart in Htest. rewrite Hc in Htest.
  destruct (trimEnd_prefix (c :: rest)) as [w Hw].
  unfold numberedTest in Htest. unfold numberedMatch.
  destruct (spanDigits (trimEnd (c :: rest))) as [[|d ds] [|dot [|sp r]]] eqn:Hspan;
    try done.
  rewrite Hw, (spanDigits_app _ w _ _ _ Hspan). simpl. by rewrite Htest.
Qed.

(** C1, at the input on which the code departs from it: a numbered line
    that is indented passes the test made on the trimmed line, but the
    match is made on the line itself and fails, so nothing is pushed for
    it and the line is missing from the result.  The same line without
    the indentation gives its numbered item, and the lines around an
    indented one keep their blocks. *)
Theorem formatText_drops_indented_numbered_line :
  formatText (lit " 1. foo") = []
  /\ formatText (lit "1. foo") = [Numbered 0 (lit "1") [Text (lit "foo")]]
  /\ formatText (lit "intro" ++ [10] ++ lit " 1. foo" ++ [10] ++ lit "outro")
     = [P 0 [Text (lit "intro")]; P 2 [Text (lit "outro")]].
Proof. by vm_compute. Qed.

(** C2: a maximal run of bullet lines (the line before it, if any, and the
    line behind it, if any, are no bullets) gives exactly one list, pushed
    at the last line of the run, with one item per line of the run in
    order; around it stand the blocks of the lines before and of the lines
    behind; and when the loop ends no item is left waiting. *)
Theorem bullet_run_one_list (text : jsstring) (pre run post : list jsstring) :
  split text 10 = pre ++ run ++ post ->
  run <> [] ->
  Forall (fun l => isBullet l = true) run ->
  (forall l, last pre = Some l -> isBullet l = false) ->
  (forall l, head post = Some l -> isBullet l = false) ->
  formatText text
  = formatLines pre
    ++ [Ul (length pre + length run - 1)
           (imap (fun j l => itemOf (length pre + j) l) run)]
    ++ formatFrom (length pre + length run) post
  /\ currentListItems (formatLoop (split text 10)) = [].
Proof.
  intros Hsplit Hne Hrun Hpre Hpost.
  assert (Hafter : nextIsBullet (lookahead post None) = false).
  { destruct post as [|l post]; [done|]. simpl. by apply Hpost. }
  unfold formatText, formatLines. rewrite Hsplit, !formatLoop_loopFrom.
  rewrite !loopFrom_app. simpl plus.
  rewrite (loopFrom_after pre 0 _ None) by done.
  pose proof (loopFrom_flushed pre 0 None start (or_introl eq_refl) eq_refl) as Hcur.
  destruct (loopFrom 0 pre None start) as [es cur] eqn:Hloop.
  simpl in Hcur. subst cur. simpl elements.
  rewrite loopFrom_run by done. simpl app.
  split.
  - rewrite loopFrom_elements. by rewrite <- (assoc_L (++)).
  - by apply loopFrom_flushed; [left|].
Qed.

Lemma bullet_run_one_list_witness :
  formatText (lit "a" ++ [10] ++ lit "- x" ++ [10] ++ lit "- y" ++ [10] ++ lit "b")
  = formatLines [lit "a"]
    ++ [Ul 2 [itemOf 1 (lit "- x"); itemOf 2 (lit "- y")]]
    ++ formatFrom 3 [lit "b"]
  /\ currentListItems
       (formatLoop
          (split (lit "a" ++ [10] ++ lit "- x" ++ [10] ++ lit "- y" ++ [10] ++ lit "b") 10))
     = [].
Proof.
  apply (bullet_run_one_list
           (lit "a" ++ [10] ++ lit "- x" ++ [10] ++ lit "- y" ++ [10] ++ lit "b")
           [lit "a"] [lit "- x"; lit "- y"] [lit "b"]).
  - reflexivity.
  - discriminate.
  - repeat constructor.
  - intros l [= <-]. reflexivity.
  - intros l [= <-]. reflexivity.
Defined.

(** C5: the result holds a level-2 heading with key [k] and text [t]
    exactly when line [k] starts with "## " and [t] is that line without
    its first three characters, and a level-3 heading exactly when line [k]
    starts with "### " and [t] is the line without its first four
    characters.  Elements have no other heading form. *)
Theorem headings_two_levels (text : jsstring) (k : nat) (t : jsstring) :
  (H2 k t ∈ formatText text <->
   exists line, split text 10 !! k = Some line
                /\ startsWith line (lit "## ") = true /\ t = drop 3 line)
  /\ (H3 k t ∈ formatText text <->
      exists line, split text 10 !! k = Some line
                   /\ startsWith line (lit "### ") = true /\ t = drop 4 line).
Proof.
  assert (Hh2 : forall i line, startsWith line (lit "## ") = true ->
                  isBullet line = false
                  /\ blockOf i line = Some (H2 i (drop 3 line))).
  { intros i line Hs. split.
    - apply hash_not_bullet. lits. destruct line; [done|].
      simpl in *. by destruct (_ =? 35).
    - unfold blockOf. rewrite Hs. rewrite replace_prefix; [done| |done].
      by intros ->. }
  assert (Hh3 : forall i line, startsWith line (lit "### ") = true ->
                  isBullet line = false
                  /\ blockOf i line = Some (H3 i (drop 4 line))).
  { intros i line Hs. split.
    - apply hash_not_bullet. lits. destruct line; [done|].
      simpl in *. by destruct (_ =? 35).
    - unfold blockOf. rewrite Hs.
      replace (startsWith line (lit "## ")) with false.
      + rewrite replace_prefix; [done| |done]. by intros ->.
      + lits. destruct line as [|a [|b [|c line]]]; simpl in *; try done;
          destruct (a =? 35); try done; destruct (b =? 35); try done.
        by destruct (N.eqb_spec c 35) as [->|]. }
  split; split.
  - unfold formatText, formatLines. rewrite formatLoop_loopFrom.
    intros [Hn|[(j & line & Hj & Hb & Hblock)|(? & ? & ?)]]%loopFrom_origin;
      [by apply elem_of_nil in Hn| |done].
    simpl in Hblock. exists line. unfold blockOf in Hblock.
    destruct (startsWith line (lit "## ")) eqn:Hs.
    + destruct (Hh2 j line Hs) as [_ Hblock']. unfold blockOf in Hblock'.
      rewrite Hs in Hblock'. by simplify_eq.
    + destruct (startsWith line (lit "### ")); [done|].
      destruct (numberedTest _);
        [by destruct (numberedMatch _) as [[??]|]|].
      by destruct (isEmpty _).
  - intros (line & Hk & Hs & ->).
    destruct (Hh2 k line Hs) as [Hb Hblock].
    by apply (loopFrom_block _ k line).
  - unfold formatText, formatLines. rewrite formatLoop_loopFrom.
    intros [Hn|[(j & line & Hj & Hb & Hblock)|(? & ? & ?)]]%loopFrom_origin;
      [by apply elem_of_nil in Hn| |done].
    simpl in Hblock. exists line. unfold blockOf in Hblock.
    destruct (startsWith line (lit "## ")) eqn:Hs2; [done|].
    destruct (startsWith line (lit "### ")) eqn:Hs.
    + destruct (Hh3 j line Hs) as [_ Hblock']. unfold blockOf in Hblock'.
      rewrite Hs2, Hs in Hblock'. by simplify_eq.
    + destruct (numberedTest _);
        [by destruct (numberedMatch _) as [[??]|]|].
      by destruct (isEmpty _).
  - intros (line & Hk & Hs & ->).
    destruct (Hh3 k line Hs) as [Hb Hblock].
    by apply (loopFrom_block _ k line).
Qed.

Lemma headings_two_levels_witness :
  H2 1 (lit "Parts") ∈ formatText (lit "intro" ++ [10] ++ lit "## Parts")
  /\ H3 0 (lit "Main Purpose") ∈ formatText (lit "### Main Purpose").
Proof.
  split.
  - apply (headings_two_levels _ 1 (lit "Parts")).
    exists (lit "## Parts"). by vm_compute.
  - apply (headings_two_levels _ 0 (lit "Main Purpose")).
    exists (lit "### Main Purpose"). by vm_compute.
Defined.

End FormatText.

(** ** parseInlineStyles *)

Module InlineStyles.
Import JS ExplanationView FormatSpec JSFacts.

Lemma starsApart_no_delim (c : char) (t x : jsstring) :
  starsApart (c :: t) = true ->
  (t = [] -> x = [] \/ exists y, x = star :: y) ->
  startsWith (c :: t ++ x) boldDelim = false.
Proof.
  simpl. intros [Hc _]%andb_prop Hx. apply negb_true_iff in Hc.
  destruct (N.eqb_spec c star) as [->|]; [|done]. simpl in *.
  destruct t as [|d t]; [done|]. simpl. by rewrite Hc.
Qed.

Lemma lazyBody_found (b r : jsstring) :
  boldText b = true -> lazyBody (b ++ boldDelim ++ r) = Some (b, r).
Proof.
  unfold boldText. intros [Hs Hl]%andb_prop.
  induction b as [|c b IH]; [done|].
  apply andb_prop in Hl as [Hc Hl]. apply negb_true_iff in Hc.
  change (lazyBody ((c :: b) ++ boldDelim ++ r))
    with (if startsWith (c :: b ++ boldDelim ++ r) boldDelim
          then Some ([], drop 2 (c :: b ++ boldDelim ++ r))
          else if isLineTerminator c then None
               else match lazyBody (b ++ boldDelim ++ r) with
                    | Some (b0, r0) => Some (c :: b0, r0)
                    | None => None
                    end).
  rewrite starsApart_no_delim; [|done|intros _; right; by eexists].
  rewrite Hc, IH; [done| |done].
  simpl in Hs. by apply andb_prop in Hs as [_ ?].
Qed.

Lemma matchBold_found (b r : jsstring) :
  boldText b = true ->
  matchBold (boldDelim ++ b ++ boldDelim ++ r) = Some (boldDelim ++ b ++ boldDelim, r).
Proof.
  intros Hb.
  change (matchBold (boldDelim ++ b ++ boldDelim ++ r))
    with (match lazyBody (b ++ boldDelim ++ r) with
          | Some (b0, r0) => Some (boldDelim ++ b0 ++ boldDelim, r0)
          | None => None
          end).
  by rewrite lazyBody_found.
Qed.

(** The scan walks over a plain part without a match. *)
Lemma splitLoop_plain (t x piece : jsstring) (fuel : nat) :
  starsApart t = true ->
  (x = [] \/ exists y, x = star :: y) ->
  (length (t ++ x) <= fuel)%nat ->
  splitLoop fuel piece (t ++ x) = splitLoop (fuel - length t) (piece ++ t) x.
Proof.
  revert piece fuel. induction t as [|c t IH]; intros piece fuel Ht Hx Hfuel.
  - by rewrite Nat.sub_0_r, app_nil_r.
  - destruct fuel as [|fuel]; [simpl in Hfuel; lia|].
    change (splitLoop (S fuel) piece ((c :: t) ++ x))
      with (match matchBold (c :: t ++ x) with
            | Some (m, r) => piece :: m :: splitLoop fuel [] r
            | None => splitLoop fuel (piece ++ [c]) (t ++ x)
            end).
    unfold matchBold. rewrite starsApart_no_delim by auto.
    rewrite IH.
    + by rewrite <- (assoc_L (++)).
    + simpl in Ht. by apply andb_prop in Ht as [_ ?].
    + done.
    + simpl in Hfuel. lia.
Qed.

Lemma splitLoop_assemble (segs : list (jsstring * jsstring)) (last : jsstring)
    (piece : jsstring) (fuel : nat) :
  wellFormed segs last ->
  (length (assemble segs last) <= fuel)%nat ->
  splitLoop fuel piece (assemble segs last) = parts piece segs last.
Proof.
  intros [Hsegs Hlast]. revert piece fuel.
  induction Hsegs as [|[t b] segs [Ht Hb] _ IH]; intros piece fuel Hfuel;
    cbn [assemble parts fst snd] in *.
  - rewrite <- (app_nil_r last) at 1.
    rewrite splitLoop_plain; [|done|by left|by rewrite app_nil_r].
    by destruct (fuel - length last)%nat; simpl; rewrite app_nil_r.
  - rewrite splitLoop_plain; [|done|right; by eexists|done].
    rewrite !length_app in Hfuel. cbn [length boldDelim] in Hfuel.
    destruct (fuel - length t)%nat as [|fuel'] eqn:Hf; [lia|].
    change (splitLoop (S fuel') (piece ++ t)
              (boldDelim ++ b ++ boldDelim ++ assemble segs last))
      with (match matchBold (boldDelim ++ b ++ boldDelim ++ assemble segs last) with
            | Some (m, r) => (piece ++ t) :: m :: splitLoop fuel' [] r
            | None => splitLoop fuel' ((piece ++ t) ++ [star])
                        (star :: b ++ boldDelim ++ assemble segs last)
            end).
    rewrite matchBold_found by done.
    rewrite IH; [done|]. lia.
Qed.

Lemma starsApart_text (t : jsstring) :
  starsApart t = true -> startsWith t boldDelim = false.
Proof.
  destruct t as [|c t]; [done|]. intros Ht.
  rewrite <- (app_nil_r t). apply starsApart_no_delim; auto.
Qed.

Lemma bold_part (b : jsstring) :
  let part := boldDelim ++ b ++ boldDelim in
  startsWith part boldDelim = true
  /\ endsWith part boldDelim = true
  /\ slice part 2 (-2) = b.
Proof.
  simpl. split; [done|]. split.
  - unfold endsWith. simpl. by rewrite rev_app_distr.
  - unfold slice. simpl length. rewrite length_app. simpl length.
    change (2 <? 0)%Z with false. change (-2 <? 0)%Z with true. cbv iota.
    replace (Z.to_nat (_ - _)) with (length b) by lia.
    replace (Z.to_nat _) with 2%nat by lia.
    change (drop 2 (star :: star :: b ++ boldDelim)) with (b ++ boldDelim).
    by rewrite take_app_length.
Qed.

Lemma imap_render_parts (segs : list (jsstring * jsstring)) (last : jsstring)
    (k : nat) :
  wellFormed segs last ->
  imap (fun i part => render (k + i) part) (parts [] segs last)
  = spans k segs last.
Proof.
  intros [Hsegs Hlast]. revert k.
  induction Hsegs as [|[t b] segs [Ht Hb] _ IH]; intros k.
  - simpl. unfold render. by rewrite starsApart_text.
  - cbn [parts spans fst snd] in *. rewrite !imap_cons.
    f_equal; [|f_equal].
    + unfold render. by rewrite starsApart_text.
    + unfold compose, render.
      destruct (bold_part b) as (-> & -> & ->). simpl. f_equal. lia.
    + rewrite <- IH. apply imap_ext. intros i x _. simpl. f_equal. lia.
Qed.

(** On a line of plain parts and bold spans, stars apart in every part and
    no line terminator inside a span, parseInlineStyles gives each plain
    part as it is and each span as a bold element holding the text between
    its delimiters. *)
Lemma parseInlineStyles_assemble (segs : list (jsstring * jsstring))
    (last : jsstring) :
  wellFormed segs last ->
  parseInlineStyles (assemble segs last) = spans 0 segs last.
Proof.
  intros Hwf. unfold parseInlineStyles, splitBold.
  rewrite splitLoop_assemble by done.
  by rewrite <- imap_render_parts.
Qed.

(** C4, at the inputs on which the code departs from it: a part that is
    one delimiter alone, or three stars, both starts with the delimiter and
    ends with it, so it is taken for a bold span, and the slice between
    positions 2 and -2 of so short a part is empty.  The stars, which
    stand outside every pair of delimiters, are not emitted as plain text:
    an empty bold span takes their place.  Around a proper pair the code
    does what the claim says. *)
Theorem parseInlineStyles_lone_delimiter :
  parseInlineStyles (lit "***") = [Strong 0 []]
  /\ parseInlineStyles (lit "**") = [Strong 0 []]
  /\ formatText (lit "***") = [P 0 [Strong 0 []]]
  /\ parseInlineStyles (lit "a **b** c")
     = [Text (lit "a "); Strong 1 (lit "b"); Text (lit " c")].
Proof. by vm_compute. Qed.

End InlineStyles.

(** ** formatText and the store *)

Module FormatStore.
Import JS ExplanationView ExplanationViewStore FormatSpec StoreSpec JSFacts FormatLoop.

Lemma readElement_insert (h : store) (a : loc) (o : object) (e : element loc) :
  (forall k c, e = Ul k c -> c <> a) ->
  readElement (<[a := o]> h) e = readElement h e.
Proof.
  intros Hne. destruct e as [k c| | | | |]; try done.
  unfold readElement.
  rewrite list_lookup_insert_ne; [done|]. intros ->. by eapply Hne.
Qed.

Lemma readElement_snoc (h : store) (o : object) (e : element loc) :
  (forall k c, e = Ul k c -> (c < length h)%nat) ->
  readElement (h ++ [o]) e = readElement h e.
Proof.
  intros Hlt. destruct e as [k c| | | | |]; try done.
  unfold readElement.
  rewrite lookup_app_l; [done|]. by eapply Hlt.
Qed.

(** Pushing an element that holds no array. *)
Lemma Inv_pushNode (h0 : store) (el : loc) (st : loopState) (cur : loc)
    (h : store) (x : element loc) (n : node) :
  (forall h', readElement h' x = Some n) ->
  (forall k c, x <> Ul k c) ->
  Inv h0 el st cur h ->
  Inv h0 el (push n st) cur (pushNode el x h).
Proof.
  intros Hx Hnot [Hold Hlen Hel Hcur Hne Hitems (es & Hes & Hall)].
  unfold pushNode. rewrite Hes.
  pose proof (lookup_lt_Some _ _ _ Hes) as Hlt.
  split; try done.
  - by rewrite take_insert_ge.
  - by rewrite length_insert.
  - by rewrite list_lookup_insert_ne.
  - exists (es ++ [x]). split; [by rewrite list_lookup_insert_eq|].
    simpl. apply Forall2_app.
    + eapply Forall2_impl; [exact Hall|]. intros e m [Hread Hloc]. split.
      * rewrite readElement_insert; [done|]. intros k c ->.
        by destruct (Hloc k c eq_refl) as (_ & ? & _).
      * intros k c ->. rewrite length_insert. by apply (Hloc k c).
    + constructor; [|constructor]. split; [done|].
      intros k c ->. by destruct (Hnot k c).
Qed.

(** The bullet branch: the item is pushed and, at the end of a run, the
    list is pushed with the array as its children and the variable is
    bound to a new array. *)
Lemma Inv_bullet (h0 : store) (el : loc) (st : loopState) (cur : loc)
    (h : store) (i : nat) (x : li) (flush : bool) :
  Inv h0 el st cur h ->
  let h1 := pushLi cur x h in
  let items := currentListItems st ++ [x] in
  if flush then
    Inv h0 el (LoopState (elements st ++ [Ul i items]) [])
        (length (pushNode el (Ul i cur) h1))
        (pushNode el (Ul i cur) h1 ++ [LiArray []])
  else Inv h0 el (LoopState (elements st) items) cur h1.
Proof.
  intros [Hold Hlen Hel Hcur Hne Hitems (es & Hes & Hall)]. simpl.
  unfold pushLi. rewrite Hitems.
  pose proof (lookup_lt_Some _ _ _ Hitems) as Hltc.
  pose proof (lookup_lt_Some _ _ _ Hes) as Hlte.
  set (h1 := <[cur := LiArray (currentListItems st ++ [x])]> h).
  assert (Hes1 : h1 !! el = Some (NodeArray es)).
  { unfold h1. by rewrite list_lookup_insert_ne. }
  assert (Hit1 : h1 !! cur = Some (LiArray (currentListItems st ++ [x]))).
  { unfold h1. by rewrite list_lookup_insert_eq. }
  assert (Hlen1 : length h1 = length h) by apply length_insert.
  assert (Hall1 : Forall2 (fun e n =>
                    readElement h1 e = Some n
                    /\ forall k c, e = Ul k c ->
                         c <> cur /\ c <> el /\ (c < length h1)%nat)
                    es (elements st)).
  { eapply Forall2_impl; [exact Hall|]. intros e m [Hread Hloc]. split.
    - unfold h1. rewrite readElement_insert; [done|]. intros k c ->.
      by destruct (Hloc k c eq_refl) as (? & _).
    - intros k c ->. rewrite Hlen1. by apply (Hloc k c). }
  destruct flush.
  - unfold pushNode. rewrite Hes1.
    set (h2 := <[el := NodeArray (es ++ [Ul i cur])]> h1).
    assert (Hlen2 : length h2 = length h) by (unfold h2; by rewrite length_insert).
    split; simpl.
    + rewrite take_app_le by lia. unfold h2, h1.
      by rewrite !take_insert_ge.
    + rewrite length_app. simpl. lia.
    + done.
    + lia.
    + lia.
    + by rewrite list_lookup_middle.
    + exists (es ++ [Ul i cur]). split.
      * rewrite lookup_app_l by lia. unfold h2.
        rewrite list_lookup_insert_eq; [done|lia].
      * apply Forall2_app.
        -- eapply Forall2_impl; [exact Hall1|]. intros e m [Hread Hloc]. split.
           ++ rewrite readElement_snoc.
              ** unfold h2. rewrite readElement_insert; [done|].
                 intros k c ->. by destruct (Hloc k c eq_refl) as (_ & ? & _).
              ** intros k c ->. destruct (Hloc k c eq_refl) as (_ & _ & ?). lia.
           ++ intros k c ->. destruct (Hloc k c eq_refl) as (? & ? & ?).
              rewrite length_app. simpl. repeat split; lia.
        -- constructor; [|constructor]. split.
           ++ simpl. rewrite lookup_app_l by lia. unfold h2.
              rewrite list_lookup_insert_ne by done. by rewrite Hit1.
           ++ intros k c [= _ <-]. rewrite length_app. simpl.
              repeat split; [lia|done|lia].
  - split; simpl; try done.
    + unfold h1. by rewrite take_insert_ge.
    + lia.
    + by exists es.
Qed.

(** One iteration on the store follows the iteration of the functional
    loop. *)
Lemma Inv_iteration (h0 : store) (el : loc) (st : loopState) (cur : loc)
    (h : store) (i : nat) (line : jsstring) (nx : option jsstring) :
  Inv h0 el st cur h ->
  Inv h0 el (iteration i line nx st)
      (iterationS el i line nx (cur, h)).1 (iterationS el i line nx (cur, h)).2.
Proof.
  intros HI. unfold iteration, iterationS.
  destruct (isBullet line).
  { match goal with
    | |- context [if ?f then LoopState _ _ else _] =>
        pose proof (Inv_bullet h0 el st cur h i
                      (Li i (parseInlineStyles (replace line (lit "- ")))) f HI)
          as Hb; simpl in Hb; destruct f; exact Hb
    end. }
  destruct (startsWith line (lit "## ")); [by apply Inv_pushNode|].
  destruct (startsWith line (lit "### ")); [by apply Inv_pushNode|].
  destruct (numberedTest (trim line)).
  { destruct (numberedMatch line) as [[num rest]|]; [by apply Inv_pushNode|done]. }
  destruct (isEmpty (trim line)); by apply Inv_pushNode.
Qed.

Lemma Inv_foldl (h0 : store) (el : loc) (lines : list jsstring)
    (idx : list nat) (st : loopState) (cur : loc) (h : store) :
  Inv h0 el st cur h ->
  Inv h0 el (foldl (loopBody lines) st idx)
      (foldl (loopBodyS lines el) (cur, h) idx).1
      (foldl (loopBodyS lines el) (cur, h) idx).2.
Proof.
  revert st cur h. induction idx as [|i idx IH]; intros st cur h HI; [done|].
  simpl. unfold loopBody at 2, loopBodyS at 2 4.
  destruct (lines !! i) as [line|]; [|by apply IH].
  pose proof (Inv_iteration h0 el st cur h i line (lines !! (i + 1)%nat) HI) as HI'.
  destruct (iterationS el i line (lines !! (i + 1)%nat) (cur, h)) as [cur' h'].
  by apply IH.
Qed.

(** A call allocates behind the store it finds, leaves that store as it
    was, and the array it returns reads as the functional result. *)
Lemma formatTextS_spec (text : jsstring) (h : store) :
  readNodes (formatTextS text h).2 (formatTextS text h).1 = Some (formatText text)
  /\ take (length h) (formatTextS text h).2 = h.
Proof.
  unfold formatTextS, newArray.
  set (lines := split text 10).
  assert (HI : Inv h (length h) start (length (h ++ [NodeArray []]))
                 ((h ++ [NodeArray []]) ++ [LiArray []])).
  { split; simpl.
    - rewrite <- (assoc_L (++)). by rewrite take_app_length.
    - rewrite !length_app. simpl. lia.
    - done.
    - rewrite length_app. simpl. lia.
    - rewrite length_app. simpl. lia.
    - by rewrite list_lookup_middle.
    - exists []. split; [|constructor].
      rewrite <- (assoc_L (++)). by apply list_lookup_middle. }
  apply (Inv_foldl _ _ lines (seq 0 (length lines))) in HI.
  destruct (foldl _ (length (h ++ [NodeArray []]), _) _) as [cur' h'].
  simpl in *. destruct HI as [Hold _ _ _ _ _ (es & Hes & Hall)].
  split; [|done].
  unfold readNodes. rewrite Hes. apply mapM_Some.
  eapply Forall2_impl; [exact Hall|]. by intros e n [? _].
Qed.

(** What was read from a store is read from every store that extends it. *)
Lemma readNodes_extend (h h' : store) (a : loc) (ns : list node) :
  take (length h) h' = h -> readNodes h a = Some ns -> readNodes h' a = Some ns.
Proof.
  intros Hext.
  assert (Hlook : forall c o, h !! c = Some o -> h' !! c = Some o).
  { intros c o Hc. rewrite <- Hext in Hc.
    apply lookup_take_Some in Hc. tauto. }
  unfold readNodes. destruct (h !! a) as [[es|]|] eqn:Ha; try done.
  rewrite (Hlook _ _ Ha). intros Hread%mapM_Some. apply mapM_Some.
  eapply Forall2_impl; [exact Hread|]. intros e n.
  destruct e as [k c| | | | |]; simpl; try done.
  destruct (h !! c) as [[|l]|] eqn:Hc; try done.
  by rewrite (Hlook _ _ Hc).
Qed.

(** C3: a call of formatText on any store returns an array that reads as
    the value [formatText text], a function of the text alone, whatever
    earlier calls left in the store; it changes no object that was there
    before it; so two calls in a row on one text return the same sequence
    of nodes, and a later call, on the same or another text, leaves the
    result of the earlier one as it was. *)
Theorem formatText_calls_independent (text text' : jsstring) (h : store) :
  let call1 := formatTextS text h in
  let call2 := formatTextS text' call1.2 in
  readNodes call1.2 call1.1 = Some (formatText text)
  /\ readNodes call2.2 call2.1 = Some (formatText text')
  /\ readNodes call2.2 call1.1 = Some (formatText text)
  /\ take (length h) call1.2 = h
  /\ take (length call1.2) call2.2 = call1.2.
Proof.
  simpl.
  destruct (formatTextS_spec text h) as [Hr1 Hf1].
  destruct (formatTextS_spec text' (formatTextS text h).2) as [Hr2 Hf2].
  repeat split; try done.
  by eapply readNodes_extend.
Qed.

End FormatStore.

(** ** QuizView: the question index, the answers, the transcript *)

Module QuizFacts.
Import JS Types Service QuizView QuizSpec.

Local Open Scope Z_scope.

Lemma nonempty_length {A : Type} (l : list A) : l <> [] -> 1 <= Z.of_nat (length l).
Proof. destruct l; [done|]. simpl. lia. Qed.

Lemma mount_indexInRange (qs : list QuizQuestion) (src : option jsstring) :
  indexInRange (mount qs src).
Proof. intros Hne. simpl in *. pose proof (nonempty_length qs Hne). lia. Qed.

Lemma step_indexInRange (s : State) (e : event) :
  indexInRange s -> indexInRange (step s e).
Proof.
  unfold indexInRange. intros Hs.
  destruct e as [index| | | |v|now|outcome now]; simpl.
  - unfold handleOptionClick. by destruct (isAnswered s).
  - unfold handleNext.
    destruct (Z.ltb_spec (currentQuestionIndex s)
                (Z.of_nat (length (questions s)) - 1)); simpl; [|done].
    intros Hne. specialize (Hs Hne). lia.
  - unfold handlePrevious.
    destruct (Z.gtb_spec (currentQuestionIndex s) 0); simpl; [|done].
    intros Hne. specialize (Hs Hne). lia.
  - intros Hne. pose proof (nonempty_length _ Hne). lia.
  - done.
  - unfold handleChatSubmit_send. by destruct (chatGuard s).
  - done.
Qed.

Lemma run_indexInRange (s : State) (es : list event) :
  indexInRange s -> indexInRange (run s es).
Proof.
  revert s. induction es as [|e es IH]; intros s Hs; [done|].
  apply IH. by apply step_indexInRange.
Qed.

(** *** The answers *)

Lemma arrayGet_Some {A : Type} (a : list A) (i : Z) (x : A) :
  arrayGet a i = Some x -> 0 <= i /\ a !! Z.to_nat i = Some x.
Proof.
  unfold arrayGet. destruct (Z.ltb_spec i 0); [done|]. by split.
Qed.

Lemma isAnswered_false (s : State) :
  isAnswered s = false ->
  0 <= currentQuestionIndex s
  /\ userAnswers s !! Z.to_nat (currentQuestionIndex s) = Some null.
Proof.
  unfold isAnswered.
  destruct (arrayGet _ _) as [[| |]|] eqn:Hget; try done.
  intros _. by apply arrayGet_Some.
Qed.

(** A click writes the slot of the current question, and only when that
    slot holds [null]. *)
Lemma handleOptionClick_answers (index : Z) (s : State) :
  userAnswers (handleOptionClick index s)
  = if isAnswered s then userAnswers s
    else <[Z.to_nat (currentQuestionIndex s) := number index]> (userAnswers s).
Proof.
  unfold handleOptionClick. destruct (isAnswered s) eqn:Ha; [done|].
  apply isAnswered_false in Ha as [Hpos Hlook]. simpl.
  unfold arraySet. destruct (Z.ltb_spec (currentQuestionIndex s) 0); [lia|].
  apply lookup_lt_Some in Hlook. by rewrite decide_True.
Qed.

Lemma step_keeps_answer (s : State) (e : event) (j : nat) (n : Z) :
  isReset e = false ->
  userAnswers s !! j = Some (number n) ->
  userAnswers (step s e) !! j = Some (number n).
Proof.
  intros He Hj.
  destruct e as [index| | | |v|now|outcome now]; simpl; try done.
  - rewrite handleOptionClick_answers.
    destruct (isAnswered s) eqn:Ha; [done|].
    apply isAnswered_false in Ha as [_ Hnull].
    rewrite list_lookup_insert_ne; [done|]. intros <-. congruence.
  - unfold handleNext. by destruct (_ <? _).
  - unfold handlePrevious. by destruct (_ >? _).
  - unfold handleChatSubmit_send. by destruct (chatGuard s).
Qed.

(** C10: a click on a question whose stored answer is not null leaves
    userAnswers as it is; a click never changes a slot other than that of
    the current question, nor the number of slots; and an answer, once a
    slot holds it, stays in that slot through every sequence of events
    without a reset (resetQuiz or a new questions prop). *)
Theorem answers_written_once (s : State) :
  (forall index, isAnswered s = true ->
     userAnswers (handleOptionClick index s) = userAnswers s)
  /\ (forall index (j : nat), Z.of_nat j <> currentQuestionIndex s ->
        userAnswers (handleOptionClick index s) !! j = userAnswers s !! j)
  /\ (forall index,
        length (userAnswers (handleOptionClick index s)) = length (userAnswers s))
  /\ (forall (es : list event) (j : nat) (n : Z),
        Forall (fun e => isReset e = false) es ->
        userAnswers s !! j = Some (number n) ->
        userAnswers (run s es) !! j = Some (number n)).
Proof.
  repeat split.
  - intros index Ha. by rewrite handleOptionClick_answers, Ha.
  - intros index j Hj. rewrite handleOptionClick_answers.
    destruct (isAnswered s) eqn:Ha; [done|].
    apply isAnswered_false in Ha as [Hpos _].
    rewrite list_lookup_insert_ne; [done|]. lia.
  - intros index. rewrite handleOptionClick_answers.
    destruct (isAnswered s); [done|]. by rewrite length_insert.
  - intros es. revert s. induction es as [|e es IH]; intros s j n Hes Hj; [done|].
    apply Forall_cons in Hes as [He Hes]. simpl.
    apply IH; [done|]. by apply step_keeps_answer.
Qed.

Lemma answers_written_once_witness :
  let s := run (mount [sampleQuestion; sampleQuestion] None) [OptionClick 1] in
  userAnswers (handleOptionClick 0 s) = userAnswers s
  /\ userAnswers (run s [OptionClick 0; Next; OptionClick 1; Previous; OptionClick 1])
       !! 0%nat = Some (number 1).
Proof.
  split.
  - apply (proj1 (answers_written_once _) 0). reflexivity.
  - apply (proj2 (proj2 (proj2 (answers_written_once _)))).
    + repeat constructor.
    + reflexivity.
Defined.

End QuizFacts.

Module ChatFacts.
Import JS Types Service QuizView QuizSpec.

Local Open Scope Z_scope.

Lemma step_transcript_grows (s : State) (e : event) :
  chatMessages s `prefix_of` chatMessages (step s e).
Proof.
  destruct e as [index| | | |v|now|outcome now]; simpl; try done.
  - unfold handleOptionClick. by destruct (isAnswered s).
  - unfold handleNext. by destruct (_ <? _).
  - unfold handlePrevious. by destruct (_ >? _).
  - unfold handleChatSubmit_send. destruct (chatGuard s); [done|].
    simpl. by apply prefix_app_r.
  - by apply prefix_app_r.
Qed.

(** While a call is pending nothing is added to the transcript. *)
Lemma step_while_loading (s : State) (e : event) :
  isChatLoading s = true -> isSettled e = false ->
  chatMessages (step s e) = chatMessages s /\ isChatLoading (step s e) = true.
Proof.
  intros Hl He.
  destruct e as [index| | | |v|now|outcome now]; simpl; try done.
  - unfold handleOptionClick. by destruct (isAnswered s).
  - unfold handleNext. by destruct (_ <? _).
  - unfold handlePrevious. by destruct (_ >? _).
  - unfold handleChatSubmit_send, chatGuard. rewrite Hl.
    by rewrite !orb_true_r.
Qed.

Lemma run_while_loading (s : State) (es : list event) :
  isChatLoading s = true -> Forall (fun e => isSettled e = false) es ->
  chatMessages (run s es) = chatMessages s /\ isChatLoading (run s es) = true.
Proof.
  revert s. induction es as [|e es IH]; intros s Hl Hes; [done|].
  apply Forall_cons in Hes as [He Hes]. simpl.
  destruct (step_while_loading s e Hl He) as [Hm Hl'].
  destruct (IH (step s e) Hl' Hes) as [Hm' Hl''].
  split; [congruence|done].
Qed.

End ChatFacts.

(** ** App: processFile, handleReset, handleGenerateMoreQuestions *)

Module AppFacts.
Import JS Types Service App AppSpec.

(** The state [processFile] leaves, case by case. *)
Lemma processFile_cases (env : Env) (file : File) (s : State) :
  let s' := exec (processFile env file) s in
  fst (processFile env file s) = inl tt
  /\ isDragging s' = isDragging s /\ isGeneratingMore s' = isGeneratingMore s
  /\ fileInput s' = fileInput s
  /\ if negb (startsWith (type file) (lit "image/")) then
       image s' = None /\ result s' = Null /\ processingState s' = invalidImage
       /\ apiCalls s' = apiCalls s
     else
       match dataURL file with
       | None =>
           image s' = None /\ result s' = Null
           /\ processingState s' = {| status := error; ps_error := Some unexpected |}
           /\ apiCalls s' = apiCalls s
       | Some url =>
           let c := analyzeImage env (rawBase64Of url) (type file) in
           image s' = Some url /\ apiCalls s' = apiCalls s ++ snd c
           /\ match fst c with
              | inl r =>
                  result s' = r
                  /\ processingState s' = {| status := complete; ps_error := None |}
              | inr e =>
                  result s' = Null
                  /\ processingState s'
                     = {| status := error;
                          ps_error := Some (orElse (message e) unexpected) |}
              end
       end.
Proof.
  destruct s as [img res ps drag gen input calls tasks].
  unfold exec, processFile, bind, tryCatch, readFileAsBase64, await,
    setImage, setResult, setProcessingState, modify, ret, throw.
  cbn -[lit startsWith analyzeImage rawBase64Of orElse].
  destruct (negb (startsWith (type file) (lit "image/"))); [done|].
  destruct (dataURL file) as [url|]; [|done].
  cbn -[lit startsWith analyzeImage rawBase64Of orElse].
  by destruct (analyzeImage env (rawBase64Of url) (type file)) as [[r|e] sent].
Qed.

(** What processFile leaves in image, result and processingState does not
    depend on the state it starts from. *)
Lemma processFile_forgets (env : Env) (file : File) (s1 s2 : State) :
  let r1 := exec (processFile env file) s1 in
  let r2 := exec (processFile env file) s2 in
  processingState r1 = processingState r2
  /\ image r1 = image r2 /\ result r1 = result r2.
Proof.
  pose proof (processFile_cases env file s1) as H1.
  pose proof (processFile_cases env file s2) as H2.
  cbv zeta in *.
  destruct H1 as (_ & _ & _ & _ & H1), H2 as (_ & _ & _ & _ & H2).
  destruct (negb (startsWith (type file) (lit "image/")));
    [destruct H1 as (-> & -> & -> & _), H2 as (-> & -> & -> & _); done|].
  destruct (dataURL file) as [url|];
    [|destruct H1 as (-> & -> & -> & _), H2 as (-> & -> & -> & _); done].
  destruct H1 as (-> & _ & H1), H2 as (-> & _ & H2).
  destruct (analyzeImage env (rawBase64Of url) (type file)) as [[r|e] ?];
    cbn [fst] in *; by destruct H1 as [-> ->], H2 as [-> ->].
Qed.

Lemma handleReset_cases (s : State) :
  fst (handleReset s) = inl tt
  /\ processingState (exec handleReset s) = {| status := idle; ps_error := None |}
  /\ image (exec handleReset s) = None
  /\ result (exec handleReset s) = Null.
Proof. by destruct s. Qed.

(** C7: processFile never lets an exception escape and ends in 'complete'
    or in 'error'.  A file whose MIME type does not start with "image/"
    gives 'error' with the message 'Please upload a valid image file.' and
    no request to the model.  A failing read gives 'error' with the
    fallback message (the reader rejects with an event that has no
    message); a throwing analysis gives 'error' with the thrown message,
    or the fallback when that is empty.  From the error state handleReset
    gives 'idle' with image and result cleared, and a retry from there
    ends as a first attempt from the initial state does. *)
Theorem processFile_error_and_recovery (env : Env) (file : File) (s : State) :
  let s' := exec (processFile env file) s in
  let s'' := exec handleReset s' in
  fst (processFile env file s) = inl tt
  /\ (status (processingState s') = complete \/ status (processingState s') = error)
  /\ (startsWith (type file) (lit "image/") = false ->
      processingState s' = invalidImage /\ apiCalls s' = apiCalls s)
  /\ (startsWith (type file) (lit "image/") = true -> dataURL file = None ->
      processingState s' = {| status := error; ps_error := Some unexpected |}
      /\ apiCalls s' = apiCalls s)
  /\ (forall url e,
        startsWith (type file) (lit "image/") = true -> dataURL file = Some url ->
        fst (analyzeImage env (rawBase64Of url) (type file)) = inr e ->
        processingState s'
        = {| status := error; ps_error := Some (orElse (message e) unexpected) |})
  /\ (status (processingState s') = error ->
      result s' = Null
      /\ fst (handleReset s') = inl tt
      /\ processingState s'' = {| status := idle; ps_error := None |}
      /\ image s'' = None /\ result s'' = Null
      /\ forall file',
           let retry := exec (processFile env file') s'' in
           let first := exec (processFile env file') initial in
           processingState retry = processingState first
           /\ image retry = image first /\ result retry = result first).
Proof.
  cbv zeta.
  pose proof (processFile_cases env file s) as H. cbv zeta in H.
  destruct (handleReset_cases (exec (processFile env file) s))
    as (Hr0 & Hr1 & Hr2 & Hr3).
  set (s' := exec (processFile env file) s) in *.
  destruct H as (Hret & _ & _ & _ & H).
  split; [done|].
  assert (Hretry : forall file',
            processingState (exec (processFile env file') (exec handleReset s'))
            = processingState (exec (processFile env file') initial)
            /\ image (exec (processFile env file') (exec handleReset s'))
               = image (exec (processFile env file') initial)
            /\ result (exec (processFile env file') (exec handleReset s'))
               = result (exec (processFile env file') initial)).
  { intros file'. apply processFile_forgets. }
  destruct (startsWith (type file) (lit "image/")); cbn [negb] in H;
    [destruct (dataURL file) as [url|];
       [destruct H as (Hi & Hc & H);
        destruct (analyzeImage env (rawBase64Of url) (type file))
          as [[r|e] sent] eqn:Han;
        cbn [fst] in H; destruct H as [Hr Hp]
       |destruct H as (Hi & Hr & Hp & Hc)]
    |destruct H as (Hi & Hr & Hp & Hc)];
    rewrite Hp; cbn [status];
    repeat split; try done; try (by left); try (by right);
    try (by intros ?? _ [= <-]; rewrite Han; intros [= <-]); apply Hretry.
Qed.

Lemma processFile_error_and_recovery_witness :
  let textFile := {| type := lit "text/plain"; dataURL := Some (lit "data:text/plain;base64,aGk=") |} in
  let pngFile := {| type := lit "image/png"; dataURL := Some (lit "data:image/png;base64,AAAA") |} in
  (processingState (exec (processFile failingEnv textFile) initial) = invalidImage
   /\ apiCalls (exec (processFile failingEnv textFile) initial) = [])
  /\ processingState (exec (processFile failingEnv pngFile) initial)
     = {| status := error;
          ps_error := Some (lit "Failed to analyze the diagram. Please try again.") |}
  /\ processingState
       (exec handleReset (exec (processFile failingEnv pngFile) initial))
     = {| status := idle; ps_error := None |}.
Proof.
  split; [|split].
  - apply (processFile_error_and_recovery failingEnv
             {| type := lit "text/plain";
                dataURL := Some (lit "data:text/plain;base64,aGk=") |} initial).
    reflexivity.
  - apply (proj1 (proj2 (proj2 (proj2 (proj2
             (processFile_error_and_recovery failingEnv
                {| type := lit "image/png";
                   dataURL := Some (lit "data:image/png;base64,AAAA") |}
                initial)))))
             (lit "data:image/png;base64,AAAA")
             (Error (lit "Failed to analyze the diagram. Please try again."))
             eq_refl eq_refl eq_refl).
  - apply (proj2 (proj2 (proj2 (proj2 (proj2
             (processFile_error_and_recovery failingEnv
                {| type := lit "image/png";
                   dataURL := Some (lit "data:image/png;base64,AAAA") |}
                initial)))))).
    reflexivity.
Defined.

(** *** handleGenerateMoreQuestions *)

Lemma lookupProp_assign (name : jsstring) (x : value)
    (props : list (jsstring * value)) :
  lookupProp name (assign name x props) = x.
Proof.
  induction props as [|[k y] props IH]; simpl.
  - by rewrite decide_True.
  - destruct (decide (k = name)) as [->|Hk]; simpl.
    + by rewrite decide_True.
    + by rewrite decide_False.
Qed.

Lemma lookupProp_assign_ne (name other : jsstring) (x : value)
    (props : list (jsstring * value)) :
  other <> name ->
  lookupProp other (assign name x props) = lookupProp other props.
Proof.
  intros Hne. induction props as [|[k y] props IH]; simpl.
  - by rewrite decide_False.
  - destruct (decide (k = name)) as [->|Hk]; simpl.
    + by rewrite !decide_False.
    + destruct (decide (k = other)); [done|apply IH].
Qed.

(** The spread with a new quiz has the new quiz and, under every other
    of the names the page reads, what the value spread has. *)
Lemma withQuiz_get (r q : value) :
  truthyValue r = true ->
  get (withQuiz r q) (lit "quiz") = Some q
  /\ get (withQuiz r q) (lit "title") = get r (lit "title")
  /\ get (withQuiz r q) (lit "explanation") = get r (lit "explanation")
  /\ get (withQuiz r q) (lit "relationshipDescription")
     = get r (lit "relationshipDescription").
Proof.
  intros Hr. unfold withQuiz.
  assert (Hget : forall name, get r name = Some (lookupProp name (ownEnumerable r))).
  { intros name. by destruct r. }
  rewrite !Hget. cbn [get ownEnumerable].
  rewrite lookupProp_assign, !lookupProp_assign_ne by (by vm_compute).
  done.
Qed.

Lemma generateMore_send_cases (env : Env) (s : State) :
  let s' := exec (handleGenerateMoreQuestions_send env) s in
  fst (handleGenerateMoreQuestions_send env s) = inl tt
  /\ image s' = image s /\ result s' = result s
  /\ processingState s' = processingState s /\ isDragging s' = isDragging s
  /\ fileInput s' = fileInput s
  /\ match image s with
     | Some (c :: img) =>
         if truthyValue (result s) then
           let call := generateMoreQuestions env (rawBase64Of (c :: img))
                         (mimeTypeOf (c :: img)) in
           isGeneratingMore s' = true
           /\ apiCalls s' = apiCalls s ++ snd call
           /\ pending s' = pending s ++ [Generating (result s) (fst call)]
         else s' = s
     | _ => s' = s
     end.
Proof.
  destruct s as [img res ps drag gen input calls tasks].
  unfold exec, handleGenerateMoreQuestions_send. cbn [image result].
  destruct img as [[|c img]|]; [done| |done].
  destruct (truthyValue res); [|done].
  unfold bind, callService, spawn, setPending, setIsGeneratingMore, modify.
  cbn -[lit generateMoreQuestions rawBase64Of mimeTypeOf]. done.
Qed.

Lemma generateMore_settle_cases (captured : value) (outcome : value + thrown)
    (s : State) :
  let s' := exec (handleGenerateMoreQuestions_settle captured outcome) s in
  fst (handleGenerateMoreQuestions_settle captured outcome s) = inl tt
  /\ image s' = image s /\ processingState s' = processingState s
  /\ isDragging s' = isDragging s /\ fileInput s' = fileInput s
  /\ apiCalls s' = apiCalls s /\ pending s' = pending s
  /\ isGeneratingMore s' = false
  /\ result s' = match outcome with
                 | inl newQuestions => withQuiz captured newQuestions
                 | inr _ => result s
                 end.
Proof. destruct s. by destruct outcome. Qed.

Lemma delete_last_added {A : Type} (l : list A) (x : A) :
  (l ++ [x]) !! length l = Some x /\ delete (length l) (l ++ [x]) = l.
Proof.
  induction l as [|y l [IH1 IH2]]; [done|]. simpl. by rewrite IH2.
Qed.

(** The settling of the promise a handler has just added. *)
Lemma settle_last_added (env : Env) (s : State) (tasks : list task) (t : task) :
  pending s = tasks ++ [t] ->
  settle env (length tasks) s
  = continue env t (exec (setPending (fun _ => tasks)) s).
Proof.
  intros Hp. unfold settle. rewrite Hp.
  destruct (delete_last_added tasks t) as [-> Hdel].
  destruct s as [img res ps drag gen input calls ts]. simpl in Hp. subst ts.
  unfold bind, setPending, modify, exec. simpl. by rewrite Hdel.
Qed.

(** C9: the handler, called with an image and a result at hand, keeps the
    result it read; when its call settles with new questions it sets the
    result to the spread of the result it kept with the new quiz, and when
    the call has failed it leaves the result alone.  With nothing between
    the call and its settling, the new result is the one of the state with
    the quiz replaced and title, explanation and relationshipDescription
    as they were.  But the page lets the user press 'Analyze New' in
    between: the reset clears the result, and the settling call then puts
    the result it kept back, with the new quiz, into an app that shows the
    upload page; whatever result the state holds when the call settles is
    overwritten in the same way. *)
Theorem generateMore_spreads_the_result_it_read (env : Env) (s : State)
    (c : char) (img : jsstring) :
  hasStatus s complete = true ->
  image s = Some (c :: img) ->
  truthyValue (result s) = true ->
  isGeneratingMore s = false ->
  let call := generateMoreQuestions env (rawBase64Of (c :: img))
                (mimeTypeOf (c :: img)) in
  let n := length (pending s) in
  let alone := run env s [GenerateMore; Settled n] in
  let reset := run env s [GenerateMore; Reset] in
  let late := run env s [GenerateMore; Reset; Settled n] in
  (forall newQuestions, fst call = inl newQuestions ->
     result alone = withQuiz (result s) newQuestions
     /\ get (result alone) (lit "quiz") = Some newQuestions
     /\ get (result alone) (lit "title") = get (result s) (lit "title")
     /\ get (result alone) (lit "explanation") = get (result s) (lit "explanation")
     /\ get (result alone) (lit "relationshipDescription")
        = get (result s) (lit "relationshipDescription"))
  /\ (forall e, fst call = inr e -> result alone = result s)
  /\ (result reset = Null /\ hasStatus reset idle = true)
  /\ (forall newQuestions, fst call = inl newQuestions ->
        result late = withQuiz (result s) newQuestions
        /\ result late <> Null
        /\ hasStatus late idle = true /\ image late = None)
  /\ (forall newQuestions s2,
        result (exec (handleGenerateMoreQuestions_settle (result s)
                        (inl newQuestions)) s2)
        = withQuiz (result s) newQuestions).
Proof.
  intros Hst Himg Hres Hgen call n alone reset late. subst n.
  assert (Hsend : step env s GenerateMore
                  = exec (handleGenerateMoreQuestions_send env) s).
  { unfold step, enabled. by rewrite Hst, Hres, Hgen. }
  destruct (generateMore_send_cases env s)
    as (_ & Hi1 & Hr1 & Hp1 & _ & _ & H1).
  cbv zeta in Hi1, Hr1, Hp1, H1. rewrite Himg, Hres in H1.
  destruct H1 as (Hg1 & _ & Hpend1).
  set (s1 := exec (handleGenerateMoreQuestions_send env) s) in *.
  (* settling at once *)
  assert (Halone : alone
                   = exec (handleGenerateMoreQuestions_settle (result s) (fst call))
                       (exec (setPending (fun _ => pending s)) s1)).
  { unfold alone, run. cbn [foldl]. rewrite Hsend. unfold step. cbn [enabled handler].
    unfold exec at 1. by rewrite (settle_last_added env s1 _ _ Hpend1). }
  (* the reset in between *)
  assert (Hst1 : hasStatus s1 complete = true).
  { unfold hasStatus in *. by rewrite Hp1. }
  assert (Hreset : reset = exec handleReset s1).
  { unfold reset, run. cbn [foldl]. rewrite Hsend. unfold step. cbn [enabled handler].
    by rewrite Hst1. }
  assert (Hfields : result reset = Null /\ hasStatus reset idle = true
                    /\ image reset = None /\ pending reset = pending s1).
  { rewrite Hreset. clearbody s1. by destruct s1. }
  destruct Hfields as (Hr2 & Hst2 & Hi2 & Hpend2).
  assert (Hlate : late
                  = exec (handleGenerateMoreQuestions_settle (result s) (fst call))
                      (exec (setPending (fun _ => pending s)) reset)).
  { unfold late, run. cbn [foldl].
    change (step env (step env s GenerateMore) Reset) with reset.
    unfold step. cbn [enabled handler]. unfold exec at 1.
    rewrite (settle_last_added env reset (pending s)
               (Generating (result s) (fst call))); [done|].
    by rewrite Hpend2. }
  pose proof (generateMore_settle_cases (result s) (fst call)
                (exec (setPending (fun _ => pending s)) s1)) as Ha.
  pose proof (generateMore_settle_cases (result s) (fst call)
                (exec (setPending (fun _ => pending s)) reset)) as Hl.
  cbv zeta in Ha, Hl. rewrite <- Halone in Ha. rewrite <- Hlate in Hl.
  destruct Ha as (_ & _ & _ & _ & _ & _ & _ & _ & Hra).
  destruct Hl as (_ & Hil & Hpl & _ & _ & _ & _ & _ & Hrl).
  assert (Hkeep : forall s0 : State,
            result (exec (setPending (fun _ => pending s)) s0) = result s0
            /\ image (exec (setPending (fun _ => pending s)) s0) = image s0
            /\ processingState (exec (setPending (fun _ => pending s)) s0)
               = processingState s0).
  { intros s0. by destruct s0. }
  split; [|split; [|split; [|split]]].
  - intros q Hq. rewrite Hq in Hra. rewrite Hra.
    split; [done|]. by apply withQuiz_get.
  - intros e He. rewrite He in Hra. rewrite Hra.
    destruct (Hkeep s1) as (-> & _). done.
  - done.
  - intros q Hq. rewrite Hq in Hrl. split; [done|]. split; [by rewrite Hrl|].
    destruct (Hkeep reset) as (_ & Hki & Hkp).
    split.
    + unfold hasStatus in *. by rewrite Hpl, Hkp.
    + by rewrite Hil, Hki.
  - intros q s2.
    by destruct (generateMore_settle_cases (result s) (inl q) s2)
      as (_ & _ & _ & _ & _ & _ & _ & _ & ->).
Qed.

Lemma generateMore_spreads_the_result_it_read_witness :
  result (run quizEnv completeState [GenerateMore; Reset]) = Null
  /\ result (run quizEnv completeState [GenerateMore; Reset; Settled 0])
     = withQuiz (ofAnalysisResult sampleResult) (ofQuiz [newQuestion])
  /\ hasStatus (run quizEnv completeState [GenerateMore; Reset; Settled 0]) idle
     = true.
Proof.
  destruct (generateMore_spreads_the_result_it_read quizEnv completeState
              100 (lit "ata:image/png;base64,AAAA") eq_refl eq_refl eq_refl eq_refl)
    as (_ & _ & [Hreset _] & Hlate & _).
  destruct (Hlate (ofQuiz [newQuestion]) eq_refl) as (Hr & _ & Hst & _).
  split; [exact Hreset|]. split; [exact Hr|exact Hst].
Defined.

End AppFacts.

(* ===================================================================== *)
(** * Further properties                                                  *)
(* ===================================================================== *)

(** ** formatText: every line, every block *)

Module FormatMore.
Import JS ExplanationView FormatSpec JSFacts FormatLoop FormatText.

Lemma whiteSpace_not_digit (c : char) :
  isWhiteSpace c = true -> isDigit c = false.
Proof.
  unfold isDigit. intros Hw.
  destruct (N.leb_spec 48 c); [|done].
  destruct (N.leb_spec c 57); [|done]. exfalso.
  unfold isWhiteSpace in Hw.
  repeat match type of Hw with
         | context [?a =? ?b] => destruct (N.eqb_spec a b); [lia|]
         | context [?a <=? ?b] => destruct (N.leb_spec a b); [lia|]
         end.
  done.
Qed.

Lemma spanDigits_head (s ds r : jsstring) (d : char) :
  spanDigits s = (d :: ds, r) -> exists s', s = d :: s' /\ isDigit d = true.
Proof.
  destruct s as [|c s]; simpl; [done|].
  destruct (isDigit c) eqn:Hc; [|done].
  destruct (spanDigits s). intros [= <- _ _]. by eexists.
Qed.

Lemma indented_dropped (line : jsstring) :
  numberedTest (trim line) = true ->
  (exists c rest, line = c :: rest /\ isWhiteSpace c = true) ->
  dropped line = true.
Proof.
  intros Htest (c & rest & -> & Hc). unfold dropped. rewrite Htest.
  assert (Hb : isBullet (c :: rest) = false).
  { unfold isBullet. unfold numberedTest in Htest.
    destruct (spanDigits (trim (c :: rest))) as [[|d ds] r] eqn:Hspan; [done|].
    apply spanDigits_head in Hspan as (s' & -> & Hd). lits. simpl.
    destruct (N.eqb_spec d 45) as [->|]; [done|done]. }
  rewrite Hb. lits. simpl.
  destruct (N.eqb_spec c 35) as [->|]; [done|]. simpl.
  unfold numberedMatch. simpl. by rewrite (whiteSpace_not_digit c Hc).
Qed.

(** X1: read in order, the keys of the elements and of the items of the
    lists are the indices of the lines of the text, each once, without
    those of the dropped lines; and a line is dropped exactly when it
    starts with white space and its trimmed form passes the numbered
    test. *)
Theorem formatText_line_accounting (text : jsstring) :
  concat (map keysOf (formatText text)) = keptFrom 0 (split text 10)
  /\ (forall line,
        dropped line = true <->
        numberedTest (trim line) = true
        /\ exists c rest, line = c :: rest /\ isWhiteSpace c = true).
Proof.
  split; [apply formatLines_keys|].
  intros line. split; [apply dropped_indented|].
  intros [? ?]. by apply indented_dropped.
Qed.

(** *** Joining texts *)

Lemma split_nonempty (s : jsstring) (sep : char) : split s sep <> [].
Proof.
  destruct s as [|c s]; simpl; [done|].
  destruct (c =? sep); [done|]. by destruct (split s sep).
Qed.

Lemma split_app (s t : jsstring) (sep : char) :
  split (s ++ sep :: t) sep = split s sep ++ split t sep.
Proof.
  induction s as [|c s IH]; simpl.
  - by rewrite N.eqb_refl.
  - destruct (c =? sep); [by rewrite IH|]. rewrite IH.
    pose proof (split_nonempty s sep). by destruct (split s sep).
Qed.

(** The loop looks at the line behind the last only to ask whether it is
    a bullet. *)
Lemma loopFrom_after_bullet (lines : list jsstring) (i : nat)
    (after after' : option jsstring) (st : loopState) :
  nextIsBullet after = nextIsBullet after' ->
  loopFrom i lines after st = loopFrom i lines after' st.
Proof.
  intros Hafter. revert i st.
  induction lines as [|l lines IH]; intros i st; [done|].
  simpl. rewrite IH. f_equal. destruct lines as [|l2 lines]; [|done].
  simpl. destruct (isBullet l) eqn:Hl.
  - by rewrite !iteration_bullet, Hafter.
  - by rewrite !iteration_block.
Qed.

Lemma formatLines_app (a b : list jsstring) :
  (forall la lb, last a = Some la -> head b = Some lb ->
                 isBullet la = false \/ isBullet lb = false) ->
  formatLines (a ++ b) = formatLines a ++ formatFrom (length a) b.
Proof.
  intros Hcut. unfold formatLines, formatFrom.
  rewrite !formatLoop_loopFrom, loopFrom_app. simpl plus.
  assert (Hsame : loopFrom 0 a (lookahead b None) start = loopFrom 0 a None start).
  { destruct (last a) as [la|] eqn:Hla.
    - destruct b as [|lb b]; [done|]. simpl lookahead.
      destruct (Hcut la lb eq_refl eq_refl) as [Ha|Hb].
      + apply loopFrom_after. intros l Hl. congruence.
      + apply loopFrom_after_bullet. simpl. by rewrite Hb.
    - apply last_None in Hla. by subst a. }
  rewrite Hsame.
  pose proof (loopFrom_flushed a 0 None start (or_introl eq_refl) eq_refl) as Hcur.
  destruct (loopFrom 0 a None start) as [es cur]. simpl in Hcur. subst cur.
  apply loopFrom_elements.
Qed.

Lemma split_newlines (n : nat) (t : jsstring) :
  split (replicate n 10 ++ t) 10 = replicate n [] ++ split t 10.
Proof. induction n as [|n IH]; [done|]. simpl. by rewrite IH. Qed.

(** X2: the formatting of two texts joined by a newline is the formatting
    of the first followed by that of the lines of the second, numbered on
    from the lines of the first, unless the join falls inside a run of
    bullets (the last line of the first text and the first line of the
    second are both bullets).  The lines of the second text numbered from
    [n] give what the second text gives behind [n] blank lines, without
    the [n] spacers of those lines. *)
Theorem formatText_join (t1 t2 : jsstring) :
  (forall la lb, last (split t1 10) = Some la -> head (split t2 10) = Some lb ->
                 isBullet la = false \/ isBullet lb = false) ->
  let n := length (split t1 10) in
  formatText (t1 ++ 10 :: t2) = formatText t1 ++ formatFrom n (split t2 10)
  /\ formatFrom n (split t2 10) = drop n (formatText (replicate n 10 ++ t2)).
Proof.
  intros Hcut. simpl. split.
  - unfold formatText. rewrite split_app. by apply formatLines_app.
  - unfold formatText. rewrite split_newlines, formatFrom_blank_lines.
    rewrite drop_app_length'; [done|].
    by rewrite length_map, length_seq.
Qed.

Lemma formatText_join_witness :
  formatText (lit "## Parts" ++ 10 :: lit "- pump")
  = formatText (lit "## Parts") ++ formatFrom 1 [lit "- pump"]
  /\ formatFrom 1 [lit "- pump"] = drop 1 (formatText (10 :: lit "- pump")).
Proof.
  apply (formatText_join (lit "## Parts") (lit "- pump")).
  intros la lb [= <-] _. by left.
Defined.

(** *** Lists *)

Lemma keysBelow_snoc (i : nat) (items : list li) (x : li) :
  keysBelow i items -> li_key x = i -> keysBelow (S i) (items ++ [x]).
Proof.
  intros [Hk Hl] Hx. unfold keysBelow.
  rewrite List.map_app, length_app, Hk. simpl. rewrite Hx. split; [|lia].
  replace (length items + 1)%nat with (S (length items)) by lia.
  replace (S i - S (length items))%nat with (i - length items)%nat by lia.
  rewrite seq_S. do 2 f_equal. lia.
Qed.

Lemma keysBelow_nil (i : nat) : keysBelow i [].
Proof. split; simpl; [done|lia]. Qed.

Lemma loopFrom_shape (lines suf : list jsstring) (i : nat)
    (after : option jsstring) (st : loopState) :
  drop i lines = suf ->
  Forall (listShape lines) (elements st) ->
  Forall (fromBulletLine lines) (currentListItems st) ->
  keysBelow i (currentListItems st) ->
  currentListItems st = [] \/ comesBullet suf after = true ->
  Forall (listShape lines) (elements (loopFrom i suf after st)).
Proof.
  revert i st. induction suf as [|l suf IH]; intros i st Hdrop He Hc Hk Hst;
    [done|].
  assert (Hl : lines !! i = Some l).
  { rewrite <- (Nat.add_0_r i), <- lookup_drop, Hdrop. done. }
  assert (Hdrop' : drop (S i) lines = suf).
  { rewrite (drop_S _ _ _ Hl) in Hdrop. by injection Hdrop. }
  simpl. destruct (isBullet l) eqn:Hb.
  - assert (Hitem : fromBulletLine lines (itemOf i l)) by (by exists l).
    assert (Hitems : Forall (fromBulletLine lines)
                       (currentListItems st ++ [itemOf i l])).
    { apply Forall_app. split; [done|]. by constructor. }
    pose proof (keysBelow_snoc i _ (itemOf i l) Hk eq_refl) as Hk'.
    rewrite iteration_bullet by done.
    destruct (nextIsBullet (lookahead suf after)) eqn:Hnext.
    + apply IH; simpl; try done. by right.
    + apply IH; simpl; try done.
      * apply Forall_app. split; [done|]. constructor; [|done].
        simpl. split; [|done]. by destruct (currentListItems st).
      * apply keysBelow_nil.
      * by left.
  - assert (Hcur : currentListItems st = []).
    { destruct Hst as [?|Hst]; [done|].
      unfold comesBullet in Hst. simpl in Hst. congruence. }
    rewrite iteration_block by done.
    destruct (blockOf i l) as [n|] eqn:Hblock.
    + apply IH; simpl; try done.
      * apply Forall_app. split; [done|]. constructor; [|done].
        unfold blockOf in Hblock.
        repeat match type of Hblock with
               | context [if ?b then _ else _] => destruct b
               end;
          try destruct (numberedMatch l) as [[??]|]; by simplify_eq.
      * rewrite Hcur. apply keysBelow_nil.
      * by left.
    + apply IH; try done.
      * rewrite Hcur. apply keysBelow_nil.
      * by left.
Qed.

(** X3: every list in the result is made of the bullet lines that end at
    its key: it has at least one item, the keys of its items are the
    consecutive indices that end at the key of the list, and each item is
    the item of the bullet line with its key. *)
Theorem lists_hold_runs (text : jsstring) (k : nat) (items : list li) :
  Ul k items ∈ formatText text ->
  items <> []
  /\ map li_key items = seq (S k - length items) (length items)
  /\ (length items <= S k)%nat
  /\ (forall it, it ∈ items ->
        exists line, split text 10 !! li_key it = Some line
                     /\ isBullet line = true /\ it = itemOf (li_key it) line).
Proof.
  intros Hin. unfold formatText, formatLines in Hin.
  rewrite formatLoop_loopFrom in Hin.
  pose proof (loopFrom_shape (split text 10) (split text 10) 0 None start
                eq_refl (Forall_nil_2 _) (Forall_nil_2 _)) as Hshape.
  assert (Hall : Forall (listShape (split text 10))
                   (elements (loopFrom 0 (split text 10) None start))).
  { apply Hshape; [apply keysBelow_nil|by left]. }
  rewrite Forall_forall in Hall. apply Hall in Hin.
  destruct Hin as (Hne & [Hk Hl] & Hitems).
  repeat split; try done.
  intros it Hit. rewrite Forall_forall in Hitems. by apply Hitems.
Qed.

Lemma lists_hold_runs_witness :
  [itemOf 1 (lit "- x"); itemOf 2 (lit "- y")] <> []
  /\ map li_key [itemOf 1 (lit "- x"); itemOf 2 (lit "- y")] = [1; 2]%nat.
Proof.
  destruct (lists_hold_runs
              (lit "a" ++ [10] ++ lit "- x" ++ [10] ++ lit "- y" ++ [10] ++ lit "b")
              2 [itemOf 1 (lit "- x"); itemOf 2 (lit "- y")])
    as (Hne & Hk & _).
  - vm_compute. apply list_elem_of_In. right. by left.
  - by split.
Defined.

(** *** Spacers and numbered items *)

Lemma trimStart_nil (s : jsstring) :
  trimStart s = [] <-> allWhiteSpace s = true.
Proof.
  induction s as [|c s IH]; simpl; [done|].
  destruct (isWhiteSpace c); simpl; [done|]. split; done.
Qed.

Lemma allWhiteSpace_rev (s : jsstring) :
  allWhiteSpace (rev s) = allWhiteSpace s.
Proof.
  unfold allWhiteSpace. induction s as [|c s IH]; simpl; [done|].
  rewrite forallb_app, IH. simpl. rewrite andb_true_r. apply andb_comm.
Qed.

Lemma trim_nil (s : jsstring) : trim s = [] <-> allWhiteSpace s = true.
Proof.
  unfold trim, trimEnd. split.
  - intros H. destruct (trimStart_suffix s) as [w Hw].
    assert (Hrev : trimStart (rev (trimStart s)) = []).
    { by rewrite <- (rev_involutive (trimStart _)), H. }
    apply trimStart_nil in Hrev. rewrite allWhiteSpace_rev in Hrev.
    apply trimStart_nil. clear -Hrev.
    induction s as [|c s IH]; simpl in *; [done|].
    destruct (isWhiteSpace c) eqn:Hc; [by apply IH|].
    simpl in Hrev. by rewrite Hc in Hrev.
  - intros H. by (apply trimStart_nil in H as ->).
Qed.

Lemma trimStart_head (s z : jsstring) (c : char) :
  trimStart s = c :: z -> isWhiteSpace c = false.
Proof.
  induction s as [|d s IH]; simpl; [done|].
  destruct (isWhiteSpace d) eqn:Hd; [done|]. by intros [= <- _].
Qed.

Lemma trimEnd_last (s y : jsstring) (c : char) :
  trimEnd s = y ++ [c] -> isWhiteSpace c = false.
Proof.
  unfold trimEnd. intros H.
  apply (trimStart_head (rev s) (rev y)).
  rewrite <- (rev_involutive (trimStart _)), H, rev_app_distr. done.
Qed.

Lemma trimStart_app (x y : jsstring) :
  allWhiteSpace x = false -> trimStart (x ++ y) = trimStart x ++ y.
Proof.
  induction x as [|c x IH]; simpl; [done|].
  destruct (isWhiteSpace c); [apply IH|done].
Qed.

Lemma trimEnd_app (p s : jsstring) :
  allWhiteSpace s = false -> trimEnd (p ++ s) = p ++ trimEnd s.
Proof.
  intros Hs. unfold trimEnd. rewrite rev_app_distr, trimStart_app.
  - by rewrite rev_app_distr, rev_involutive.
  - by rewrite allWhiteSpace_rev.
Qed.

Lemma trimEnd_suffix (s : jsstring) :
  exists w, s = trimEnd s ++ w /\ allWhiteSpace w = true.
Proof.
  unfold trimEnd.
  assert (H : forall z, exists w, z = w ++ trimStart z /\ allWhiteSpace w = true).
  { induction z as [|c z (w & Hw & Hall)]; [by exists []|]. simpl.
    destruct (isWhiteSpace c) eqn:Hc; [|by exists []].
    exists (c :: w). simpl. rewrite Hc, Hall. split; [by f_equal|done]. }
  destruct (H (rev s)) as (w & Hw & Hall).
  exists (rev w). split.
  - rewrite <- rev_app_distr, <- Hw. by rewrite rev_involutive.
  - by rewrite allWhiteSpace_rev.
Qed.

Lemma digit_not_whiteSpace (c : char) :
  isDigit c = true -> isWhiteSpace c = false.
Proof.
  intros Hd. destruct (isWhiteSpace c) eqn:Hw; [|done].
  apply whiteSpace_not_digit in Hw. congruence.
Qed.

Lemma trim_digit (d : char) (s : jsstring) :
  isDigit d = true -> trim (d :: s) = trimEnd (d :: s).
Proof.
  intros Hd. unfold trim. simpl. by rewrite (digit_not_whiteSpace d Hd).
Qed.

Lemma spanDigits_split (s ds r : jsstring) :
  spanDigits s = (ds, r) -> s = ds ++ r /\ forallb isDigit ds = true.
Proof.
  revert ds. induction s as [|c s IH]; intros ds; simpl.
  - by intros [= <- <-].
  - destruct (isDigit c) eqn:Hc; [|by intros [= <- <-]].
    destruct (spanDigits s) as [ds' r']. intros [= <- <-].
    destruct (IH ds' eq_refl) as [-> Hall]. simpl. by rewrite Hc.
Qed.

Lemma spanDigits_digits (ds r : jsstring) (x : char) :
  forallb isDigit ds = true -> isDigit x = false ->
  spanDigits (ds ++ x :: r) = (ds, x :: r).
Proof.
  intros Hds Hx. induction ds as [|d ds IH]; simpl.
  - by rewrite Hx.
  - simpl in Hds. apply andb_prop in Hds as [-> Hds]. by rewrite IH.
Qed.

(** X4: the result holds a spacer with key [k] exactly when line [k] is
    empty or holds white space only. *)
Theorem spacer_iff_blank_line (text : jsstring) (k : nat) :
  Spacer k ∈ formatText text <->
  exists line, split text 10 !! k = Some line /\ allWhiteSpace line = true.
Proof.
  split.
  - unfold formatText, formatLines. rewrite formatLoop_loopFrom.
    intros [Hn|[(j & line & Hj & Hb & Hblock)|(? & ? & ?)]]%loopFrom_origin;
      [by apply elem_of_nil in Hn| |done].
    simpl in Hblock. unfold blockOf in Hblock.
    destruct (startsWith line (lit "## ")); [done|].
    destruct (startsWith line (lit "### ")); [done|].
    destruct (numberedTest (trim line));
      [by destruct (numberedMatch line) as [[??]|]|].
    destruct (isEmpty (trim line)) eqn:He; [|done].
    injection Hblock as <-. exists line. split; [done|].
    apply trim_nil. by destruct (trim line).
  - intros (line & Hk & Hall). apply trim_nil in Hall.
    apply (loopFrom_block _ k line); [done| |].
    + unfold isBullet. by rewrite Hall.
    + assert (Hhash : startsWith line (lit "#") = false).
      { lits. destruct line as [|c line]; [done|]. simpl.
        destruct (N.eqb_spec c 35) as [->|]; [|done].
        destruct (trim_head 35 line eq_refl) as [y Hy]. congruence. }
      unfold blockOf. rewrite Hall.
      replace (startsWith line (lit "## ")) with false.
      2:{ lits. destruct line as [|c line]; [done|]. simpl in *.
          by destruct (c =? 35). }
      replace (startsWith line (lit "### ")) with false.
      2:{ lits. destruct line as [|c line]; [done|]. simpl in *.
          by destruct (c =? 35). }
      done.
Qed.

(** X5: the result holds a numbered item with key [k], number [num] and
    body [body] exactly when line [k] is [num], a dot, a white space
    character and a rest, where [num] is a non-empty run of digits, the
    rest holds a character that is no white space, and [body] is
    parseInlineStyles of the rest up to its first line terminator.  A
    number with nothing but white space behind it gives no numbered
    item. *)
Theorem numbered_item_iff (text : jsstring) (k : nat) (num : jsstring)
    (body : list inline) :
  Numbered k num body ∈ formatText text <->
  exists w rest,
    split text 10 !! k = Some (num ++ 46 :: w :: rest)
    /\ num <> [] /\ forallb isDigit num = true /\ isWhiteSpace w = true
    /\ allWhiteSpace rest = false
    /\ body = parseInlineStyles (dotStar rest).
Proof.
  split.
  - unfold formatText, formatLines. rewrite formatLoop_loopFrom.
    intros [Hn|[(j & line & Hj & Hb & Hblock)|(? & ? & ?)]]%loopFrom_origin;
      [by apply elem_of_nil in Hn| |done].
    simpl in Hblock. unfold blockOf in Hblock.
    destruct (startsWith line (lit "## ")); [done|].
    destruct (startsWith line (lit "### ")); [done|].
    destruct (numberedTest (trim line)) eqn:Htest;
      [|by destruct (isEmpty (trim line))].
    unfold numberedMatch in Hblock.
    destruct (spanDigits line) as [[|d ds] [|dot [|w r0]]] eqn:Hspan; try done.
    destruct ((dot =? 46) && isWhiteSpace w) eqn:Hdw; [|done].
    injection Hblock as <- <- <-.
    apply andb_prop in Hdw as [->%N.eqb_eq Hw].
    destruct (spanDigits_split _ _ _ Hspan) as [Hline Hds].
    subst line. exists w, r0. repeat split; try done.
    simpl in Hds. apply andb_prop in Hds as [Hd Hds].
    change ((d :: ds) ++ 46 :: w :: r0) with (d :: (ds ++ 46 :: w :: r0)) in Htest.
    rewrite trim_digit in Htest by done.
    destruct (trimEnd_suffix (d :: ds ++ 46 :: w :: r0)) as (sfx & Hsfx & Hall).
    unfold numberedTest in Htest.
    destruct (spanDigits (trimEnd (d :: ds ++ 46 :: w :: r0)))
      as [[|d' ds'] [|dot' [|w' r']]] eqn:Hspan'; try done.
    apply andb_prop in Htest as [_ Hw'].
    pose proof (spanDigits_app _ sfx _ _ _ Hspan') as Hfull.
    rewrite <- Hsfx in Hfull.
    pose proof (eq_trans (eq_sym Hspan) Hfull) as Heq.
    injection Heq as ? ? ? ? ?. subst d' ds' dot' w' r0.
    destruct (spanDigits_split _ _ _ Hspan') as [Htrim _].
    destruct (allWhiteSpace (r' ++ sfx)) eqn:Hrest; [|done]. exfalso.
    unfold allWhiteSpace in Hrest. rewrite forallb_app in Hrest.
    apply andb_prop in Hrest as [Hr' _].
    destruct (decide (r' = [])) as [->|Hne].
    + assert (isWhiteSpace w = false); [|congruence].
      eapply (trimEnd_last _ ((d :: ds) ++ [46]) w).
      etrans; [exact Htrim|]. by rewrite <- (assoc_L (++)).
    + destruct (exists_last Hne) as (r'' & c & ->).
      rewrite forallb_app in Hr'. apply andb_prop in Hr' as [_ Hc].
      simpl in Hc. rewrite andb_true_r in Hc.
      assert (isWhiteSpace c = false); [|congruence].
      eapply (trimEnd_last _ ((d :: ds) ++ 46 :: w :: r'') c).
      etrans; [exact Htrim|]. by rewrite <- !(assoc_L (++)).
  - intros (w & rest & Hk & Hne & Hds & Hw & Hrest & ->).
    destruct num as [|d ds]; [done|].
    pose proof Hds as Hds'. simpl in Hds'. apply andb_prop in Hds' as [Hd _].
    assert (Htrim : trim ((d :: ds) ++ 46 :: w :: rest)
                    = ((d :: ds) ++ [46; w]) ++ trimEnd rest).
    { change ((d :: ds) ++ 46 :: w :: rest) with (d :: (ds ++ 46 :: w :: rest)).
      rewrite trim_digit by done.
      replace (d :: ds ++ 46 :: w :: rest) with (((d :: ds) ++ [46; w]) ++ rest)
        by (by rewrite <- (assoc_L (++))).
      by apply trimEnd_app. }
    assert (Htest : numberedTest (trim ((d :: ds) ++ 46 :: w :: rest)) = true).
    { rewrite Htrim, <- (assoc_L (++)). unfold numberedTest.
      change ([46; w] ++ trimEnd rest) with (46 :: w :: trimEnd rest).
      rewrite (spanDigits_digits (d :: ds) _ 46) by done. simpl. by rewrite Hw. }
    apply (loopFrom_block _ k ((d :: ds) ++ 46 :: w :: rest)); [done| |].
    + unfold isBullet. rewrite Htrim. lits. simpl.
      destruct (N.eqb_spec d 45) as [->|]; done.
    + unfold blockOf. rewrite Htest.
      replace (startsWith _ (lit "## ")) with false.
      2:{ lits. simpl. destruct (N.eqb_spec d 35) as [->|]; done. }
      replace (startsWith _ (lit "### ")) with false.
      2:{ lits. simpl. destruct (N.eqb_spec d 35) as [->|]; done. }
      unfold numberedMatch.
      rewrite (spanDigits_digits (d :: ds) _ 46) by done. simpl. by rewrite Hw.
Qed.

End FormatMore.

(** ** parseInlineStyles: nothing is lost *)

Module InlineMore.
Import JS ExplanationView FormatSpec JSFacts InlineStyles.

Lemma lazyBody_split (s b r : jsstring) :
  lazyBody s = Some (b, r) -> s = b ++ boldDelim ++ r.
Proof.
  revert b. induction s as [|c s IH]; intros b; [done|].
  change (lazyBody (c :: s))
    with (if startsWith (c :: s) boldDelim then Some ([], drop 2 (c :: s))
          else if isLineTerminator c then None
               else match lazyBody s with
                    | Some (b0, r0) => Some (c :: b0, r0)
                    | None => None
                    end).
  destruct (startsWith (c :: s) boldDelim) eqn:Hs.
  - intros [= <- <-]. exact (startsWith_inv _ _ Hs).
  - destruct (isLineTerminator c); [done|].
    destruct (lazyBody s) as [[b0 r0]|]; [|done].
    intros [= <- <-]. simpl. f_equal. by apply IH.
Qed.

Lemma matchBold_split (s m r : jsstring) :
  matchBold s = Some (m, r) ->
  s = m ++ r /\ exists b, m = boldDelim ++ b ++ boldDelim.
Proof.
  unfold matchBold. destruct (startsWith s [star; star]) eqn:Hs; [|done].
  destruct (lazyBody (drop 2 s)) as [[b r0]|] eqn:Hb; [|done].
  intros [= <- <-]. split; [|by exists b].
  apply (startsWith_inv _ boldDelim) in Hs. apply lazyBody_split in Hb.
  change (drop (length boldDelim) s) with (drop 2 s) in Hs.
  rewrite Hb in Hs. rewrite Hs. simpl. by rewrite <- (assoc_L (++)).
Qed.

Lemma splitLoop_concat (fuel : nat) (piece s : jsstring) :
  (length s <= fuel)%nat -> concat (splitLoop fuel piece s) = piece ++ s.
Proof.
  revert piece s. induction fuel as [|fuel IH]; intros piece s Hlen.
  - simpl. by rewrite app_nil_r.
  - destruct s as [|c s]; [simpl; by rewrite app_nil_r|].
    change (splitLoop (S fuel) piece (c :: s))
      with (match matchBold (c :: s) with
            | Some (m, r) => piece :: m :: splitLoop fuel [] r
            | None => splitLoop fuel (piece ++ [c]) s
            end).
    destruct (matchBold (c :: s)) as [[m r]|] eqn:Hm.
    + apply matchBold_split in Hm as (Hs & b & ->). simpl concat.
      rewrite IH.
      * rewrite Hs. by rewrite <- !(assoc_L (++)).
      * apply (f_equal length) in Hs. rewrite !length_app in Hs.
        simpl in *. lia.
    + rewrite IH by (simpl in Hlen; lia). by rewrite <- (assoc_L (++)).
Qed.

(** The parts of the split, put together, are the text. *)
Lemma splitBold_concat (text : jsstring) : concat (splitBold text) = text.
Proof. unfold splitBold. by rewrite splitLoop_concat. Qed.

Lemma ends_with_delim (p x : jsstring) :
  (2 <= length x)%nat -> endsWith (p ++ x) boldDelim = true ->
  exists x', x = x' ++ boldDelim.
Proof.
  unfold endsWith. rewrite rev_app_distr. intros Hlen Hs.
  destruct (rev x) as [|a [|b y]] eqn:Hrev.
  - apply (f_equal length) in Hrev. rewrite length_rev in Hrev. simpl in *. lia.
  - apply (f_equal length) in Hrev. rewrite length_rev in Hrev. simpl in *. lia.
  - simpl in Hs. apply andb_prop in Hs as [->%N.eqb_eq Hs].
    apply andb_prop in Hs as [->%N.eqb_eq _].
    exists (rev y). rewrite <- (rev_involutive x), Hrev. simpl.
    by rewrite <- (assoc_L (++)).
Qed.

Lemma sourceOf_render (i : nat) (part : jsstring) :
  part <> lit "**" -> part <> lit "***" -> sourceOf (render i part) = part.
Proof.
  intros H2 H3. unfold render.
  destruct (startsWith part boldDelim) eqn:Hs; [|done].
  destruct (endsWith part boldDelim) eqn:He; [|done]. simpl.
  pose proof (startsWith_inv _ _ Hs) as Hp. simpl in Hp.
  destruct part as [|a [|b x]]; [done|done|].
  simpl in Hp. injection Hp as -> ->.
  destruct x as [|c [|d x]].
  - by destruct H2.
  - exfalso. apply H3. unfold endsWith in He. simpl in He.
    destruct (N.eqb_spec c star) as [->|]; done.
  - destruct (ends_with_delim [star; star] (c :: d :: x)) as [x' Hx'];
      [simpl; lia|done|].
    rewrite Hx'.
    destruct (bold_part x') as (_ & _ & Hslice).
    change (star :: star :: x' ++ boldDelim) with (boldDelim ++ x' ++ boldDelim).
    by rewrite Hslice.
Qed.

Lemma map_sourceOf_render (l : list jsstring) (k : nat) :
  Forall (fun part => part <> lit "**" /\ part <> lit "***") l ->
  map sourceOf (imap (fun i part => render (k + i) part) l) = l.
Proof.
  intros Hl. revert k. induction Hl as [|part l [H2 H3] _ IH]; intros k; [done|].
  rewrite imap_cons. simpl. rewrite sourceOf_render by done. f_equal.
  rewrite <- (IH (S k)) at 2. f_equal. apply imap_ext.
  intros i x _. simpl. f_equal. lia.
Qed.

(** X6: when no part of the split of a line is a delimiter alone or three
    stars, the children parseInlineStyles returns stand for the line:
    the strings and, for the bold elements, their text between two
    delimiters, put together in order, give the line back. *)
Theorem parseInlineStyles_round_trip (text : jsstring) :
  (forall part, part ∈ splitBold text -> part <> lit "**" /\ part <> lit "***") ->
  concat (map sourceOf (parseInlineStyles text)) = text.
Proof.
  intros Hparts. unfold parseInlineStyles.
  change (imap _ (splitBold text))
    with (imap (fun i part => render (0 + i) part) (splitBold text)).
  rewrite map_sourceOf_render; [apply splitBold_concat|].
  by apply Forall_forall.
Qed.

Lemma parseInlineStyles_round_trip_witness :
  concat (map sourceOf (parseInlineStyles (lit "a **b** c"))) = lit "a **b** c".
Proof.
  apply (parseInlineStyles_round_trip (lit "a **b** c")).
  intros part Hin. apply list_elem_of_In in Hin. vm_compute in Hin.
  destruct Hin as [<-|[<-|[<-|[]]]]; by split.
Defined.

End InlineMore.

(** ** QuizView: the score and what is rendered *)

Module QuizMore.
Import JS Types Service QuizView QuizSpec QuizFacts.

Local Open Scope Z_scope.


Lemma scoreFrom_None (answers : list answer) (qs : list QuizQuestion)
    (i : nat) (acc : Z) :
  scoreFrom i answers qs acc = None <->
  exists (j : nat) a, answers !! j = Some a /\ a <> emptySlot
                      /\ (length qs <= i + j)%nat.
Proof.
  revert i acc. induction answers as [|a answers IH]; intros i acc.
  - simpl. split; [done|]. by intros (j & a & ? & _).
  - assert (Hshift : (exists (j : nat) a0, answers !! j = Some a0 /\ a0 <> emptySlot
                        /\ (length qs <= S i + j)%nat) ->
                     exists (j : nat) a0, (a :: answers) !! j = Some a0
                        /\ a0 <> emptySlot /\ (length qs <= i + j)%nat).
    { intros (j & a0 & ? & ? & ?). exists (S j), a0. repeat split; try done. lia. }
    assert (Hback : forall (j : nat) a0, (a :: answers) !! j = Some a0 ->
                      a0 <> emptySlot -> (length qs <= i + j)%nat ->
                      (j = 0%nat /\ a0 = a)
                      \/ exists j' : nat, answers !! j' = Some a0
                                          /\ (length qs <= S i + j')%nat).
    { intros [|j] a0 Hj ? ?.
      - left. simpl in Hj. by injection Hj as ->.
      - right. exists j. split; [done|lia]. }
    destruct a as [|n|]; simpl.
    + destruct (qs !! i) as [q|] eqn:Hq.
      * rewrite IH. split; [done|].
        intros (j & a0 & Hj & Ha & Hlen).
        destruct (Hback j a0 Hj Ha Hlen) as [[-> _]|(j' & ? & ?)]; [|by eauto].
        apply lookup_lt_Some in Hq. lia.
      * split; [|done]. intros _. exists 0%nat, null.
        apply lookup_ge_None in Hq. repeat split; try done. lia.
    + destruct (qs !! i) as [q|] eqn:Hq.
      * rewrite IH. split; [done|].
        intros (j & a0 & Hj & Ha & Hlen).
        destruct (Hback j a0 Hj Ha Hlen) as [[-> _]|(j' & ? & ?)]; [|by eauto].
        apply lookup_lt_Some in Hq. lia.
      * split; [|done]. intros _. exists 0%nat, (number n).
        apply lookup_ge_None in Hq. repeat split; try done. lia.
    + rewrite IH. split; [done|].
      intros (j & a0 & Hj & Ha & Hlen).
      destruct (Hback j a0 Hj Ha Hlen) as [[_ ->]|(j' & ? & ?)]; [done|by eauto].
Qed.

Lemma scoreFrom_bounds (answers : list answer) (qs : list QuizQuestion)
    (i : nat) (acc n : Z) :
  scoreFrom i answers qs acc = Some n ->
  acc <= n <= acc + Z.of_nat (length answers).
Proof.
  revert i acc. induction answers as [|a answers IH]; intros i acc; simpl.
  - intros [= <-]. lia.
  - destruct a as [|m|];
      [destruct (qs !! i) as [q|]; [|done]
      |destruct (qs !! i) as [q|]; [|done]; destruct (m =? correctAnswerIndex q)
      |];
      intros H%IH; lia.
Qed.

(** X7: calculateScore throws exactly when userAnswers holds an answer, or
    a null, at an index at which questions has no question; when it
    returns, the score lies between 0 and the number of slots. *)
Theorem calculateScore_throws_iff (s : State) :
  (calculateScore s = None <->
   exists (j : nat) a, userAnswers s !! j = Some a /\ a <> emptySlot
                       /\ (length (questions s) <= j)%nat)
  /\ (forall n, calculateScore s = Some n ->
                0 <= n <= Z.of_nat (length (userAnswers s))).
Proof.
  split.
  - unfold calculateScore. rewrite scoreFrom_None. done.
  - intros n H%scoreFrom_bounds. lia.
Qed.

(** *** The states the component reaches *)

Lemma mount_answersFit (qs : list QuizQuestion) (src : option jsstring) :
  answersFit (mount qs src).
Proof.
  split; simpl; unfold freshAnswers.
  - by rewrite length_replicate.
  - apply Forall_replicate. done.
Qed.

Lemma fresh_answersFit (qs : list QuizQuestion) :
  length (freshAnswers qs) = length qs
  /\ Forall (fun a => a <> emptySlot) (freshAnswers qs).
Proof.
  unfold freshAnswers. split; [by rewrite length_replicate|].
  by apply Forall_replicate.
Qed.

Lemma step_answersFit (s : State) (e : event) :
  answersFit s -> answersFit (step s e).
Proof.
  intros [Hlen Hall].
  destruct e as [index| | | |v|now|outcome now]; simpl; try done.
  - unfold answersFit. rewrite handleOptionClick_answers.
    replace (questions (handleOptionClick index s)) with (questions s)
      by (unfold handleOptionClick; by destruct (isAnswered s)).
    destruct (isAnswered s); [done|]. split.
    + by rewrite length_insert.
    + by apply Forall_insert.
  - unfold handleNext. by destruct (_ <? _).
  - unfold handlePrevious. by destruct (_ >? _).
  - apply fresh_answersFit.
  - unfold handleChatSubmit_send. by destruct (chatGuard s).
Qed.

Lemma run_answersFit (s : State) (es : list event) :
  answersFit s -> answersFit (run s es).
Proof.
  revert s. induction es as [|e es IH]; intros s Hs; [done|].
  apply IH. by apply step_answersFit.
Qed.

Lemma answersFit_score (s : State) :
  answersFit s ->
  exists n, calculateScore s = Some n
            /\ 0 <= n <= Z.of_nat (length (questions s)).
Proof.
  intros [Hlen Hall].
  destruct (calculateScore s) as [n|] eqn:Hscore.
  - exists n. split; [done|].
    apply (calculateScore_throws_iff s) in Hscore. lia.
  - apply (calculateScore_throws_iff s) in Hscore as (j & a & Hj & _ & Hq).
    apply lookup_lt_Some in Hj. lia.
Qed.

(** *** Answering *)




(** *** Moving through the questions *)

(** X10: below the last question, handlePrevious undoes handleNext; above
    the first, handleNext undoes handlePrevious: the whole state is as it
    was before the two. *)
Theorem next_previous_round_trip (s : State) :
  (0 <= currentQuestionIndex s < Z.of_nat (length (questions s)) - 1 ->
   handlePrevious (handleNext s) = s)
  /\ (0 < currentQuestionIndex s <= Z.of_nat (length (questions s)) - 1 ->
      handleNext (handlePrevious s) = s).
Proof.
  destruct s as [qs src i answers results msgs input loading].
  unfold handleNext, handlePrevious, setCurrentQuestionIndex. simpl.
  split; intros Hi.
  - destruct (Z.ltb_spec i (Z.of_nat (length qs) - 1)); [|lia]. simpl.
    destruct (Z.gtb_spec (i + 1) 0); [|lia]. f_equal. lia.
  - destruct (Z.gtb_spec i 0); [|lia]. simpl.
    destruct (Z.ltb_spec (i - 1) (Z.of_nat (length qs) - 1)); [|lia].
    f_equal. lia.
Qed.

Lemma next_previous_round_trip_witness :
  handlePrevious (handleNext (mount [sampleQuestion; sampleQuestion] None))
  = mount [sampleQuestion; sampleQuestion] None.
Proof.
  apply (proj1 (next_previous_round_trip
                  (mount [sampleQuestion; sampleQuestion] None))).
  simpl. lia.
Defined.

Lemma run_nexts (s : State) (k : nat) :
  0 <= currentQuestionIndex s ->
  currentQuestionIndex s + Z.of_nat k <= Z.of_nat (length (questions s)) - 1 ->
  run s (replicate k Next)
  = setCurrentQuestionIndex (fun i => i + Z.of_nat k) s.
Proof.
  revert s. induction k as [|k IH]; intros s Hpos Hk.
  - destruct s. unfold setCurrentQuestionIndex. simpl. f_equal. lia.
  - simpl. unfold run in IH. rewrite IH.
    + destruct s as [qs src i answers results msgs input loading].
      unfold handleNext, setCurrentQuestionIndex in *. simpl in *.
      destruct (Z.ltb_spec i (Z.of_nat (length qs) - 1)); [|lia].
      simpl. f_equal. lia.
    + unfold handleNext. destruct (_ <? _); simpl; lia.
    + unfold handleNext.
      destruct (Z.ltb_spec (currentQuestionIndex s)
                  (Z.of_nat (length (questions s)) - 1)); simpl; lia.
Qed.

(** X11: from the mount of a quiz of n questions, n at least 1, k presses
    of Next with k below n lead to question k with the results not yet
    shown, and the n-th press shows the results with the index still on
    the last question. *)
Theorem next_walks_to_the_results (qs : list QuizQuestion)
    (src : option jsstring) (k : nat) :
  qs <> [] ->
  (k < length qs)%nat ->
  let s := run (mount qs src) (replicate k Next) in
  let final := run (mount qs src) (replicate (length qs) Next) in
  currentQuestionIndex s = Z.of_nat k /\ showResults s = false
  /\ currentQuestionIndex final = Z.of_nat (length qs) - 1
  /\ showResults final = true.
Proof.
  intros Hne Hk. simpl.
  rewrite (run_nexts (mount qs src) k) by (simpl; lia).
  split; [simpl; lia|]. split; [done|].
  destruct (length qs) as [|n] eqn:Hn; [lia|].
  replace (S n) with (n + 1)%nat by lia.
  rewrite replicate_add. unfold run. rewrite foldl_app.
  change (foldl step (mount qs src) (replicate n Next))
    with (run (mount qs src) (replicate n Next)).
  rewrite (run_nexts (mount qs src) n) by (simpl; lia).
  simpl. unfold handleNext. simpl. rewrite Hn.
  destruct (Z.ltb_spec (0 + Z.of_nat n) (Z.of_nat (S n) - 1)); [lia|].
  simpl. split; [lia|done].
Qed.

Lemma next_walks_to_the_results_witness :
  currentQuestionIndex
    (run (mount [sampleQuestion; sampleQuestion] None) (replicate 1 Next)) = 1
  /\ showResults
       (run (mount [sampleQuestion; sampleQuestion] None) (replicate 2 Next))
     = true.
Proof.
  destruct (next_walks_to_the_results [sampleQuestion; sampleQuestion] None 1)
    as (H1 & _ & _ & H2).
  - discriminate.
  - simpl. lia.
  - by split.
Defined.

(** *** Retaking *)

Lemma scoreFrom_fresh (n i : nat) (qs : list QuizQuestion) :
  (i + n <= length qs)%nat -> scoreFrom i (replicate n null) qs 0 = Some 0.
Proof.
  revert i. induction n as [|n IH]; intros i Hn; [done|]. simpl.
  destruct (qs !! i) eqn:Hq.
  - apply IH. lia.
  - apply lookup_ge_None in Hq. lia.
Qed.

(** X12: resetQuiz, from any state, leaves the quiz as a mount has it,
    index 0, every answer null, the results hidden, and with it a score
    of 0 and, when there are questions, the first question shown without
    an answer; it touches neither the questions nor the chat. *)
Theorem resetQuiz_starts_over (s : State) :
  let s' := resetQuiz s in
  currentQuestionIndex s' = 0
  /\ userAnswers s' = replicate (length (questions s)) null
  /\ showResults s' = false
  /\ calculateScore s' = Some 0
  /\ renderQuiz s'
     = match questions s with
       | [] => Some NoQuestions
       | q :: _ => Some (Question q (Some null))
       end
  /\ questions s' = questions s /\ imageSrc s' = imageSrc s
  /\ chatMessages s' = chatMessages s /\ chatInput s' = chatInput s
  /\ isChatLoading s' = isChatLoading s
  /\ resetQuiz s' = s'.
Proof.
  simpl. repeat split; try done.
  - unfold calculateScore. simpl. unfold freshAnswers. by apply scoreFrom_fresh.
  - unfold renderQuiz. simpl. by destruct (questions s).
Qed.

(** *** Asking again *)

(** X13: after a submission has settled, with an answer or with the
    apology, the next non-blank input is accepted again: two submissions
    in a row append the two user messages and the two AI messages in the
    order of the conversation. *)
Theorem chat_accepts_the_next_question (env : Env) (s : State)
    (v : jsstring) (n1 n2 n3 n4 : Z) :
  isEmpty (trim (chatInput s)) = false ->
  truthy (imageSrc s) = true ->
  isChatLoading s = false ->
  isEmpty (trim v) = false ->
  let src := orElse (imageSrc s) [] in
  let ask q := fst (askAiTutor env (rawBase64Of src) (mimeTypeOf src) q) in
  let s1 := handleChatSubmit env n1 n2 s in
  let s2 := handleChatSubmit env n3 n4 (setChatInput v s1) in
  isChatLoading s1 = false /\ chatInput s1 = []
  /\ chatMessages s2
     = chatMessages s
       ++ [ {| id := n1; sender := user; text := chatInput s |};
            {| id := n2 + 1; sender := ai; text := answerText (ask (chatInput s)) |};
            {| id := n3; sender := user; text := v |};
            {| id := n4 + 1; sender := ai; text := answerText (ask v) |} ].
Proof.
  intros Hblank Himg Hload Hv. simpl.
  destruct s as [qs src i answers results msgs input loading]. simpl in *.
  subst loading.
  unfold handleChatSubmit, handleChatSubmit_send, chatGuard. simpl.
  rewrite Hblank, Himg. simpl. rewrite Hv, Himg. simpl.
  repeat split. rewrite <- !(assoc_L (++)). simpl. f_equal.
  destruct (askAiTutor env _ _ input) as [[?|?] ?],
           (askAiTutor env _ _ v) as [[?|?] ?]; done.
Qed.

Lemma chat_accepts_the_next_question_witness :
  chatMessages
    (handleChatSubmit answeringEnv 30 40
       (setChatInput (lit "And then?")
          (handleChatSubmit answeringEnv 10 20
             (setChatInput (lit "What pumps?")
                (mount [] (Some (lit "data:image/png;base64,AAAA")))))))
  = [ {| id := 10; sender := user; text := lit "What pumps?" |};
      {| id := 21; sender := ai; text := lit "It is the pump." |};
      {| id := 30; sender := user; text := lit "And then?" |};
      {| id := 41; sender := ai; text := lit "It is the pump." |} ].
Proof.
  apply (chat_accepts_the_next_question answeringEnv
           (setChatInput (lit "What pumps?")
              (mount [] (Some (lit "data:image/png;base64,AAAA"))))
           (lit "And then?") 10 20 30 40); reflexivity.
Defined.

End QuizMore.

(** ** QuizView: a new list of questions *)

Module QuizLife.
Import JS Types Service QuizView QuizSpec QuizFacts QuizMore.

Local Open Scope Z_scope.

Lemma step_indexFits (s : State) (e : event) :
  indexFits s -> indexFits (step s e).
Proof.
  unfold indexFits. intros Hs.
  destruct e as [index| | | |v|now|outcome now]; simpl; try done.
  - unfold handleOptionClick. by destruct (isAnswered s).
  - unfold handleNext.
    destruct (Z.ltb_spec (currentQuestionIndex s)
                (Z.of_nat (length (questions s)) - 1)); simpl; lia.
  - unfold handlePrevious.
    destruct (Z.gtb_spec (currentQuestionIndex s) 0); simpl; lia.
  - lia.
  - unfold handleChatSubmit_send. by destruct (chatGuard s).
Qed.

Lemma questionsEffect_fits (s : State) :
  answersFit (questionsEffect s) /\ indexFits (questionsEffect s).
Proof.
  split; [apply fresh_answersFit|]. unfold indexFits. simpl. lia.
Qed.

Lemma mount_fits (qs : list QuizQuestion) (src : option jsstring) :
  answersFit (mount qs src) /\ indexFits (mount qs src).
Proof.
  split; [apply mount_answersFit|]. unfold indexFits. simpl. lia.
Qed.

(** A state with one filled slot per question and the index on a question
    is rendered. *)
Lemma render_fits (s : State) :
  answersFit s -> indexFits s -> is_Some (renderQuiz s).
Proof.
  intros Hfit Hidx.
  destruct (answersFit_score s Hfit) as (n & Hn & _).
  unfold renderQuiz. destruct (decide _) as [|Hne]; [done|].
  destruct (showResults s); [by rewrite Hn|].
  unfold indexFits in Hidx. unfold arrayGet.
  destruct (Z.ltb_spec (currentQuestionIndex s) 0); [lia|].
  destruct (questions s !! Z.to_nat (currentQuestionIndex s)) eqn:Hlook; [done|].
  apply lookup_ge_None in Hlook. lia.
Qed.

Lemma commit_fits (s : State) :
  answersFit s -> indexFits s -> commit s = Some s.
Proof.
  intros Hfit Hidx. unfold commit.
  by destruct (render_fits s Hfit Hidx) as [v ->].
Qed.

(** The render with a new list of questions and the state as it is. *)
Lemma render_withQuestions (qs : list QuizQuestion) (s : State) :
  answersFit s -> indexFits s ->
  renderQuiz (withQuestions qs s) = None <-> tooShort qs s.
Proof.
  intros [Hlen Hall] Hidx. unfold renderQuiz, tooShort, indexFits in *.
  cbn [withQuestions questions showResults currentQuestionIndex userAnswers].
  destruct (decide (length qs = 0%nat)) as [Hz|Hnz].
  { split; [done|]. intros [Hne _]. by destruct qs. }
  assert (Hne : qs <> []) by (by destruct qs).
  destruct (showResults s).
  - unfold calculateScore.
    cbn [withQuestions questions userAnswers].
    destruct (scoreFrom 0 (userAnswers s) qs 0) as [n|] eqn:Hs.
    + split; [done|]. intros [_ Hshort].
      assert (Hnone : scoreFrom 0 (userAnswers s) qs 0 = None); [|congruence].
      apply scoreFrom_None.
      destruct (userAnswers s !! length qs) as [a|] eqn:Ha.
      * exists (length qs), a. repeat split; try done.
        by apply (Forall_lookup_1 _ _ _ _ Hall Ha).
      * apply lookup_ge_None in Ha. lia.
    + split; [|done]. intros _. split; [done|].
      apply scoreFrom_None in Hs as (j & a & Hj & _ & Hq).
      apply lookup_lt_Some in Hj. lia.
  - unfold arrayGet.
    destruct (Z.ltb_spec (currentQuestionIndex s) 0); [lia|].
    destruct (qs !! Z.to_nat (currentQuestionIndex s)) eqn:Hq.
    + split; [done|]. intros [_ Hshort].
      apply lookup_lt_Some in Hq. lia.
    + split; [|done]. intros _. split; [done|].
      apply lookup_ge_None in Hq. lia.
Qed.

Lemma advance_handled (s : State) (e : event) :
  answersFit s -> indexFits s -> advance s (Handled e) = Some (step s e).
Proof.
  intros Hfit Hidx. simpl.
  apply commit_fits; [by apply step_answersFit|by apply step_indexFits].
Qed.

Lemma advance_newQuestions (qs : list QuizQuestion) (s : State) :
  answersFit s -> indexFits s ->
  (advance s (NewQuestions qs) = None <-> tooShort qs s)
  /\ (forall s', advance s (NewQuestions qs) = Some s' ->
                 s' = questionsEffect (withQuestions qs s)).
Proof.
  intros Hfit Hidx.
  pose proof (render_withQuestions qs s Hfit Hidx) as Hrender.
  destruct (questionsEffect_fits (withQuestions qs s)) as [Hf He].
  assert (Hadv : advance s (NewQuestions qs)
                 = match renderQuiz (withQuestions qs s) with
                   | Some _ => Some (questionsEffect (withQuestions qs s))
                   | None => None
                   end).
  { cbn [advance]. unfold commit at 1.
    destruct (renderQuiz (withQuestions qs s)); [|done].
    by apply commit_fits. }
  rewrite Hadv. destruct (renderQuiz (withQuestions qs s)) as [v|].
  - split.
    + split; [done|]. intros H. by apply Hrender in H.
    + by intros s' [= <-].
  - split; [|done]. split; [|done]. intros _. by apply Hrender.
Qed.

Lemma advance_fits (s s' : State) (u : update) :
  answersFit s -> indexFits s -> advance s u = Some s' ->
  answersFit s' /\ indexFits s'.
Proof.
  intros Hfit Hidx Hadv. destruct u as [e|qs].
  - rewrite advance_handled in Hadv by done. injection Hadv as <-.
    split; [by apply step_answersFit|by apply step_indexFits].
  - apply (advance_newQuestions qs s Hfit Hidx) in Hadv as ->.
    apply questionsEffect_fits.
Qed.

Lemma life_snoc (o : option State) (us : list update) (u : update) :
  life o (us ++ [u])
  = match life o us with
    | Some s => advance s u
    | None => None
    end.
Proof. unfold life. by rewrite foldl_app. Qed.

Lemma life_fits (s0 s : State) (us : list update) :
  answersFit s0 -> indexFits s0 -> life (Some s0) us = Some s ->
  answersFit s /\ indexFits s.
Proof.
  intros Hfit Hidx. revert s.
  induction us as [|u us IH] using rev_ind; intros s Hlife.
  - injection Hlife as <-. by split.
  - rewrite life_snoc in Hlife.
    destruct (life (Some s0) us) as [s1|]; [|done].
    destruct (IH s1 eq_refl) as [Hf1 Hi1].
    by apply (advance_fits s1 s u).
Qed.

(** C6: in every state the component reaches while it is mounted, the
    index lies between 0 and questions.length - 1 when there are
    questions; handleNext adds one only below questions.length - 1 and
    otherwise shows the results and keeps the index; handlePrevious
    subtracts one only above 0; resetQuiz puts the index back to 0, and so
    does the effect of a new questions prop, whenever the component is
    still there to run it.  But the effect runs after the render with the
    new prop: a new list that is not empty and ends at or
    before the current index is rendered with the index as it is, which
    is out of range; that render throws, the component is removed and the
    effect never runs. *)
Theorem index_in_range_until_new_questions (qs : list QuizQuestion)
    (src : option jsstring) (us : list update) (s : State) :
  life (Some (mount qs src)) us = Some s ->
  let i := currentQuestionIndex s in
  let n := Z.of_nat (length (questions s)) in
  (questions s <> [] -> 0 <= i <= n - 1)
  /\ (i < n - 1 -> currentQuestionIndex (handleNext s) = i + 1
                   /\ showResults (handleNext s) = showResults s)
  /\ (~ i < n - 1 -> currentQuestionIndex (handleNext s) = i
                     /\ showResults (handleNext s) = true)
  /\ (i > 0 -> currentQuestionIndex (handlePrevious s) = i - 1)
  /\ (~ i > 0 -> currentQuestionIndex (handlePrevious s) = i)
  /\ currentQuestionIndex (resetQuiz s) = 0
  /\ (forall qs', currentQuestionIndex (questionsEffect (withQuestions qs' s)) = 0)
  /\ (forall qs' s', advance s (NewQuestions qs') = Some s' ->
        currentQuestionIndex s' = 0)
  /\ (forall qs', qs' <> [] -> Z.of_nat (length qs') <= i ->
        let rendered := withQuestions qs' s in
        currentQuestionIndex rendered = i
        /\ ~ (0 <= currentQuestionIndex rendered
              <= Z.of_nat (length (questions rendered)) - 1)
        /\ renderQuiz rendered = None
        /\ advance s (NewQuestions qs') = None).
Proof.
  intros Hlife. cbv zeta.
  destruct (mount_fits qs src) as [Hf0 Hi0].
  destruct (life_fits _ _ _ Hf0 Hi0 Hlife) as [Hfit Hidx].
  split.
  { intros Hne. pose proof (nonempty_length _ Hne). unfold indexFits in Hidx. lia. }
  assert (Hbug : forall qs', qs' <> [] ->
            Z.of_nat (length qs') <= currentQuestionIndex s ->
            tooShort qs' s).
  { intros qs' Hne Hlen. split; [done|].
    destruct (showResults s); [|done].
    unfold indexFits in Hidx. pose proof (nonempty_length _ Hne). lia. }
  split.
  { intros Hlt. unfold handleNext.
    destruct (Z.ltb_spec (currentQuestionIndex s)
                (Z.of_nat (length (questions s)) - 1)); [done|lia]. }
  split.
  { intros Hlt. unfold handleNext.
    destruct (Z.ltb_spec (currentQuestionIndex s)
                (Z.of_nat (length (questions s)) - 1)); [lia|done]. }
  split.
  { intros Hgt. unfold handlePrevious.
    destruct (Z.gtb_spec (currentQuestionIndex s) 0); [done|lia]. }
  split.
  { intros Hgt. unfold handlePrevious.
    destruct (Z.gtb_spec (currentQuestionIndex s) 0); [lia|done]. }
  split; [done|]. split; [done|].
  split.
  { intros qs' s' H. by apply (advance_newQuestions qs' s) in H as ->. }
  intros qs' Hne Hlen. cbv zeta.
  split; [done|]. split.
  { cbn [withQuestions questions currentQuestionIndex]. lia. }
  split.
  - apply render_withQuestions; auto.
  - apply advance_newQuestions; auto.
Qed.

Lemma index_in_range_until_new_questions_witness :
  let three := [sampleQuestion; sampleQuestion; sampleQuestion] in
  let two := [sampleQuestion; sampleQuestion] in
  let s := run (mount three (Some (lit "data:image/png;base64,AAAA")))
             [Next; Next; Next] in
  currentQuestionIndex (withQuestions two s) = 2
  /\ renderQuiz (withQuestions two s) = None
  /\ advance s (NewQuestions two) = None.
Proof.
  destruct (index_in_range_until_new_questions
              [sampleQuestion; sampleQuestion; sampleQuestion]
              (Some (lit "data:image/png;base64,AAAA"))
              [Handled Next; Handled Next; Handled Next]
              (run (mount [sampleQuestion; sampleQuestion; sampleQuestion]
                      (Some (lit "data:image/png;base64,AAAA")))
                 [Next; Next; Next]) eq_refl)
    as (_ & _ & _ & _ & _ & _ & _ & _ & Hbug).
  destruct (Hbug [sampleQuestion; sampleQuestion]) as (Hi & _ & Hr & Ha).
  - discriminate.
  - simpl. lia.
  - by split.
Defined.

(** X8: while the component is mounted there is one slot per question,
    none of them empty, and the state is rendered: the score shown with
    the results lies between 0 and questions.length and the question shown
    is the one at currentQuestionIndex.  No call of a handler removes the
    component.  A new list of questions (of the declared type) removes it
    exactly when the list is not empty and, on the page of the results, is
    shorter than the list before or, on the page of a question, ends at or
    before the current index; otherwise the effect resets the quiz for
    the new list. *)
Theorem unmounted_exactly_by_short_questions (qs : list QuizQuestion)
    (src : option jsstring) (us : list update) (s : State) :
  life (Some (mount qs src)) us = Some s ->
  length (userAnswers s) = length (questions s)
  /\ Forall (fun a => a <> emptySlot) (userAnswers s)
  /\ is_Some (renderQuiz s)
  /\ (forall score, renderQuiz s = Some (Results score) ->
                    0 <= score <= Z.of_nat (length (questions s)))
  /\ (forall q a, renderQuiz s = Some (Question q a) ->
                  questions s !! Z.to_nat (currentQuestionIndex s) = Some q)
  /\ (forall e, advance s (Handled e) = Some (step s e))
  /\ (forall qs', advance s (NewQuestions qs') = None <-> tooShort qs' s)
  /\ (forall qs' s', advance s (NewQuestions qs') = Some s' ->
        s' = questionsEffect (withQuestions qs' s)
        /\ currentQuestionIndex s' = 0 /\ showResults s' = false
        /\ userAnswers s' = replicate (length qs') null).
Proof.
  intros Hlife.
  destruct (mount_fits qs src) as [Hf0 Hi0].
  destruct (life_fits _ _ _ Hf0 Hi0 Hlife) as [Hfit Hidx].
  destruct (answersFit_score s Hfit) as (n & Hn & Hbound).
  pose proof (render_fits s Hfit Hidx) as Hrender.
  destruct Hfit as [Hlen Hall].
  split; [done|]. split; [done|]. split; [done|].
  split; [|split; [|split; [|split]]].
  - intros score H. unfold renderQuiz in H. destruct (decide _); [done|].
    destruct (showResults s); [|by destruct (arrayGet _ _)].
    rewrite Hn in H. injection H as <-. lia.
  - intros q a H. unfold renderQuiz in H. destruct (decide _); [done|].
    destruct (showResults s); [by destruct (calculateScore s)|].
    unfold arrayGet in H.
    destruct (Z.ltb_spec (currentQuestionIndex s) 0); [done|].
    destruct (questions s !! Z.to_nat (currentQuestionIndex s)); [|done].
    by injection H as <- _.
  - intros e. by apply advance_handled.
  - intros qs'. by apply advance_newQuestions.
  - intros qs' s' H.
    apply (advance_newQuestions qs' s) in H as ->; done.
Qed.

Lemma unmounted_exactly_by_short_questions_witness :
  let s := run (mount [sampleQuestion; sampleQuestion] None) [Next] in
  advance s (Handled Next) = Some (step s Next)
  /\ (advance s (NewQuestions [sampleQuestion]) = None
      <-> tooShort [sampleQuestion] s).
Proof.
  destruct (unmounted_exactly_by_short_questions
              [sampleQuestion; sampleQuestion] None [Handled Next]
              (run (mount [sampleQuestion; sampleQuestion] None) [Next]) eq_refl)
    as (_ & _ & _ & _ & _ & Hh & Hn & _).
  split; [apply Hh|apply Hn].
Defined.

End QuizLife.

(** ** The service functions *)

Module ServiceFacts.
Import JS Types Service AppSpec JSFacts.

(** The requests of the two calls the app makes, and where the value of
    a successful call comes from. *)
Lemma analyzeImage_sent (env : Env) (data : option jsstring) (mime : jsstring) :
  snd (analyzeImage env data mime)
  = if truthy (API_KEY env)
    then [requestFor mime data analyzePrompt RESPONSE_SCHEMA] else [].
Proof.
  unfold analyzeImage, requestFor.
  destruct (truthy (API_KEY env)); simpl; [|done].
  destruct (generateContent env _) as [[[|c t]|]|]; simpl; try done.
  by destruct (JSON_parse env _).
Qed.

Lemma generateMoreQuestions_sent (env : Env) (data : option jsstring)
    (mime : jsstring) :
  snd (generateMoreQuestions env data mime)
  = if truthy (API_KEY env)
    then [requestFor mime data morePrompt QUIZ_ONLY_SCHEMA] else [].
Proof.
  unfold generateMoreQuestions, requestFor.
  destruct (truthy (API_KEY env)); simpl; [|done].
  destruct (generateContent env _) as [[[|c t]|]|]; simpl; try done.
  destruct (JSON_parse env _) as [parsed|]; [|done].
  by destruct (get parsed _).
Qed.

(** X14: without a key no service function sends a request, and each
    throws its message about the key; with a key each sends exactly one
    request, which carries the MIME type and the data it was given, its
    own prompt and its own schema. *)
Theorem service_requests (env : Env) (data : option jsstring)
    (mime question : jsstring) :
  (truthy (API_KEY env) = false ->
   analyzeImage env data mime = (inr (Error keyMissingLong), [])
   /\ generateMoreQuestions env data mime = (inr (Error keyMissing), [])
   /\ askAiTutor env data mime question = (inr (Error keyMissing), []))
  /\ (truthy (API_KEY env) = true ->
      snd (analyzeImage env data mime)
      = [requestFor mime data analyzePrompt RESPONSE_SCHEMA]
      /\ snd (generateMoreQuestions env data mime)
         = [requestFor mime data morePrompt QUIZ_ONLY_SCHEMA]
      /\ snd (askAiTutor env data mime question)
         = [requestFor mime data question noSchema]).
Proof.
  unfold analyzeImage, generateMoreQuestions, askAiTutor, requestFor.
  split; intros ->; simpl; [done|].
  repeat split.
  - destruct (generateContent env _) as [text|]; [|done].
    destruct (truthy text); [|done]. simpl.
    by destruct (JSON_parse env _).
  - destruct (generateContent env _) as [text|]; [|done].
    destruct (truthy text); [|done]. simpl.
    destruct (JSON_parse env _) as [parsed|]; [|done].
    by destruct (get parsed _).
  - by destruct (generateContent env _).
Qed.

Lemma service_requests_witness :
  analyzeImage {| API_KEY := None; generateContent := fun _ => None;
                  JSON_parse := fun _ => None |}
    (Some (lit "AAAA")) (lit "image/png")
  = (inr (Error keyMissingLong), []).
Proof.
  apply (proj1 (service_requests
                  {| API_KEY := None; generateContent := fun _ => None;
                     JSON_parse := fun _ => None |}
                  (Some (lit "AAAA")) (lit "image/png") [])).
  reflexivity.
Defined.

(** X15: analyzeImage returns a value exactly when there is a key, the
    model answers with a text that is not empty and JSON.parse accepts the
    text, and the value is what JSON.parse gives, of whatever shape;
    generateMoreQuestions returns exactly when, in addition, the parsed
    value is not null, and it returns the quiz property of that value,
    undefined when there is none.  In every other case, whatever went
    wrong, each throws one fixed message, apart from the message about the
    key.  askAiTutor returns whenever the call to the model does, and
    what it returns is never the empty string. *)
Theorem service_outcomes (env : Env) (data : option jsstring)
    (mime question : jsstring) :
  (forall r,
     fst (analyzeImage env data mime) = inl r <->
     truthy (API_KEY env) = true
     /\ exists text,
          generateContent env (requestFor mime data analyzePrompt RESPONSE_SCHEMA)
          = Some (Some text)
          /\ text <> [] /\ JSON_parse env text = Some r)
  /\ (forall e,
        fst (analyzeImage env data mime) = inr e ->
        e = Error (if truthy (API_KEY env) then analysisFailed else keyMissingLong))
  /\ (forall q,
        fst (generateMoreQuestions env data mime) = inl q <->
        truthy (API_KEY env) = true
        /\ exists text parsed,
             generateContent env (requestFor mime data morePrompt QUIZ_ONLY_SCHEMA)
             = Some (Some text)
             /\ text <> [] /\ JSON_parse env text = Some parsed
             /\ parsed <> Null /\ parsed <> Undefined
             /\ get parsed (lit "quiz") = Some q)
  /\ (forall e,
        fst (generateMoreQuestions env data mime) = inr e ->
        e = Error (if truthy (API_KEY env)
                   then lit "Failed to generate new questions." else keyMissing))
  /\ (forall t, fst (askAiTutor env data mime question) = inl t -> t <> [])
  /\ (is_Some (generateContent env (requestFor mime data question noSchema)) ->
      truthy (API_KEY env) = true ->
      exists t, fst (askAiTutor env data mime question) = inl t).
Proof.
  unfold analyzeImage, generateMoreQuestions, askAiTutor, requestFor.
  destruct (truthy (API_KEY env)); simpl.
  2:{ repeat split; try done; try (by intros ? [= <-]); by intros [? _]. }
  split; [|split; [|split; [|split; [|split]]]].
  - intros r. destruct (generateContent env _) as [text|]; simpl.
    2:{ split; [done|]. by intros [_ (? & ? & _)]. }
    destruct text as [[|c t]|]; simpl;
      [by split; [|intros [_ (? & [= <-] & ? & _)]]
      | |by split; [|intros [_ (? & [=] & _)]]].
    destruct (JSON_parse env (c :: t)) as [r0|] eqn:Hp; simpl.
    + split.
      * intros [= <-]. split; [done|]. by exists (c :: t).
      * intros [_ (? & [= <-] & _ & Hp')]. congruence.
    + split; [done|]. intros [_ (? & [= <-] & _ & Hp')]. congruence.
  - intros e. destruct (generateContent env _) as [text|]; simpl;
      [|by intros [= <-]].
    destruct (truthy text); simpl; [|by intros [= <-]].
    destruct (JSON_parse env _); simpl; [done|by intros [= <-]].
  - intros q. destruct (generateContent env _) as [text|]; simpl.
    2:{ split; [done|]. by intros [_ (? & ? & ? & _)]. }
    destruct text as [[|c t]|]; simpl;
      [by split; [|intros [_ (? & ? & [= <-] & ? & _)]]
      | |by split; [|intros [_ (? & ? & [=] & _)]]].
    destruct (JSON_parse env (c :: t)) as [parsed|] eqn:Hp; simpl.
    2:{ split; [done|]. intros [_ (? & ? & [= <-] & _ & Hp' & _)]. congruence. }
    destruct (get parsed (lit "quiz")) as [q0|] eqn:Hq; simpl.
    + split.
      * intros [= <-]. split; [done|]. exists (c :: t), parsed.
        repeat split; try done; intros ->; done.
      * intros [_ (? & ? & [= <-] & _ & Hp' & _ & _ & Hq')]. congruence.
    + split; [done|].
      intros [_ (? & ? & [= <-] & _ & Hp' & _ & _ & Hq')]. congruence.
  - intros e. destruct (generateContent env _) as [text|]; simpl;
      [|by intros [= <-]].
    destruct (truthy text); simpl; [|by intros [= <-]].
    destruct (JSON_parse env _) as [parsed|]; simpl; [|by intros [= <-]].
    destruct (get parsed _); simpl; [done|by intros [= <-]].
  - intros t. destruct (generateContent env _) as [text|]; simpl; [|done].
    intros [= <-]. by destruct text as [[|??]|].
  - intros [text Hg] _. rewrite Hg. simpl. by eexists.
Qed.

(** *** Data URLs *)

Lemma split_without (s : jsstring) (sep : char) :
  without sep s = true -> split s sep = [s].
Proof.
  induction s as [|c s IH]; simpl; [done|].
  intros [Hc Hs]%andb_prop. apply negb_true_iff in Hc. rewrite Hc.
  by rewrite IH.
Qed.

Lemma split_snoc (s t : jsstring) (sep : char) :
  split (s ++ sep :: t) sep = split s sep ++ split t sep.
Proof.
  induction s as [|c s IH]; simpl.
  - by rewrite N.eqb_refl.
  - destruct (c =? sep); [by rewrite IH|]. rewrite IH.
    assert (split s sep <> []).
    { clear. destruct s as [|c s]; simpl; [done|].
      destruct (c =? sep); [done|]. by destruct (split s sep). }
    by destruct (split s sep).
Qed.

Lemma spanNotSemicolon_app (b r : jsstring) :
  without 59 b = true -> spanNotSemicolon (b ++ 59 :: r) = (b, 59 :: r).
Proof.
  induction b as [|c b IH]; simpl; [done|].
  intros [Hc Hb]%andb_prop. apply negb_true_iff in Hc. rewrite Hc.
  by rewrite IH.
Qed.

Lemma without_app (c : char) (s t : jsstring) :
  without c (s ++ t) = without c s && without c t.
Proof. apply forallb_app. Qed.

Lemma data_url_parts (mime payload : jsstring) :
  mime <> [] -> without 59 mime = true -> without 44 mime = true ->
  without 44 payload = true ->
  rawBase64Of (dataUrlOf mime payload) = Some payload
  /\ mimeTypeOf (dataUrlOf mime payload) = mime.
Proof.
  intros Hne Hsemi Hcomma Hpay. split.
  - unfold rawBase64Of, dataUrlOf.
    replace (lit "data:" ++ mime ++ lit ";base64," ++ payload)
      with ((lit "data:" ++ mime ++ lit ";base64") ++ 44 :: payload).
    2:{ rewrite <- !(assoc_L (++)). done. }
    rewrite split_snoc, !split_without; [done|done|].
    rewrite !without_app, Hcomma. done.
  - unfold mimeTypeOf, dataUrlOf.
    change (dataMimeMatch (lit "data:" ++ mime ++ lit ";base64," ++ payload))
      with (match spanNotSemicolon (mime ++ 59 :: lit "base64," ++ payload) with
            | (c :: b, semi :: _) => Some (c :: b)
            | _ => dataMimeMatch
                     (drop 1 (lit "data:" ++ mime ++ lit ";base64," ++ payload))
            end).
    rewrite spanNotSemicolon_app by done.
    by destruct mime.
Qed.

(** X16: from the data URL of an image, "data:", the MIME type,
    ";base64," and the payload, the two expressions the handlers use get
    the payload and the MIME type back, provided the MIME type is not
    empty and holds no semicolon and no comma and the payload holds no
    comma.  Without a match mimeTypeOf falls back on "image/png" and is
    never empty. *)
Theorem data_url_round_trip (mime payload : jsstring) :
  mime <> [] -> without 59 mime = true -> without 44 mime = true ->
  without 44 payload = true ->
  rawBase64Of (dataUrlOf mime payload) = Some payload
  /\ mimeTypeOf (dataUrlOf mime payload) = mime
  /\ (forall src, mimeTypeOf src <> [])
  /\ (forall src, dataMimeMatch src = None -> mimeTypeOf src = lit "image/png").
Proof.
  intros Hne Hsemi Hcomma Hpay.
  destruct (data_url_parts mime payload Hne Hsemi Hcomma Hpay) as [Hraw Hmime].
  repeat split; [done|done| |].
  - intros src. unfold mimeTypeOf.
    by destruct (dataMimeMatch src) as [[|??]|].
  - intros src H. unfold mimeTypeOf. by rewrite H.
Qed.

Lemma data_url_round_trip_witness :
  rawBase64Of (lit "data:image/png;base64,AAAA") = Some (lit "AAAA")
  /\ mimeTypeOf (lit "data:image/png;base64,AAAA") = lit "image/png".
Proof.
  destruct (data_url_round_trip (lit "image/png") (lit "AAAA"))
    as (H1 & H2 & _); try reflexivity; [discriminate|].
  by split.
Defined.

End ServiceFacts.

(** ** The app as a whole *)

Module AppMore.
Import JS Types Service App AppSpec JSFacts AppFacts ServiceFacts.

(** *** What each part of a handler does *)

Lemma setIsDragging_fields (b : bool) (s : State) :
  let s' := exec (setIsDragging b) s in
  image s' = image s /\ result s' = result s
  /\ processingState s' = processingState s
  /\ isGeneratingMore s' = isGeneratingMore s
  /\ apiCalls s' = apiCalls s /\ pending s' = pending s /\ isDragging s' = b.
Proof. by destruct s. Qed.

Lemma setPending_fields (f : list task -> list task) (s : State) :
  let s' := exec (setPending f) s in
  image s' = image s /\ result s' = result s
  /\ processingState s' = processingState s
  /\ isGeneratingMore s' = isGeneratingMore s
  /\ apiCalls s' = apiCalls s /\ pending s' = f (pending s).
Proof. by destruct s. Qed.

Lemma handleReset_frame (s : State) :
  isGeneratingMore (exec handleReset s) = isGeneratingMore s
  /\ apiCalls (exec handleReset s) = apiCalls s
  /\ pending (exec handleReset s) = pending s.
Proof. by destruct s. Qed.

Lemma processFile_start_cases (file : File) (s : State) :
  let s' := exec (processFile_start file) s in
  fst (processFile_start file s) = inl tt
  /\ image s' = None /\ result s' = Null
  /\ isGeneratingMore s' = isGeneratingMore s /\ apiCalls s' = apiCalls s
  /\ if negb (startsWith (type file) (lit "image/")) then
       processingState s' = invalidImage /\ pending s' = pending s
     else
       processingState s' = {| status := analyzing; ps_error := None |}
       /\ pending s' = pending s ++ [Reading file].
Proof.
  destruct s as [img res ps drag gen input calls tasks].
  unfold exec, processFile_start, bind, spawn, setPending, setImage, setResult,
    setProcessingState, modify.
  cbn -[lit startsWith].
  by destruct (negb (startsWith (type file) (lit "image/"))).
Qed.

Lemma processFile_read_cases (env : Env) (file : File) (s : State) :
  let s' := exec (processFile_read env file) s in
  fst (processFile_read env file s) = inl tt
  /\ result s' = result s /\ isGeneratingMore s' = isGeneratingMore s
  /\ match dataURL file with
     | None =>
         image s' = image s /\ apiCalls s' = apiCalls s /\ pending s' = pending s
         /\ processingState s' = {| status := error; ps_error := Some unexpected |}
     | Some url =>
         let call := analyzeImage env (rawBase64Of url) (type file) in
         image s' = Some url /\ apiCalls s' = apiCalls s ++ snd call
         /\ pending s' = pending s ++ [Analyzing (fst call)]
         /\ processingState s' = processingState s
     end.
Proof.
  destruct s as [img res ps drag gen input calls tasks].
  unfold exec, processFile_read, processFile_catch, tryCatch, bind,
    readFileAsBase64, callService, spawn, setPending, setImage,
    setProcessingState, modify, ret, throw.
  destruct (dataURL file) as [url|];
    cbn -[lit analyzeImage rawBase64Of orElse]; done.
Qed.

Lemma processFile_analyzed_cases (outcome : value + thrown) (s : State) :
  let s' := exec (processFile_analyzed outcome) s in
  fst (processFile_analyzed outcome s) = inl tt
  /\ image s' = image s /\ isGeneratingMore s' = isGeneratingMore s
  /\ apiCalls s' = apiCalls s /\ pending s' = pending s
  /\ match outcome with
     | inl analysisData =>
         result s' = analysisData
         /\ processingState s' = {| status := complete; ps_error := None |}
     | inr e =>
         result s' = result s
         /\ processingState s'
            = {| status := error; ps_error := Some (orElse (message e) unexpected) |}
     end.
Proof. destruct s. by destruct outcome. Qed.

(** A settling promise leaves the list of the pending ones and runs its
    continuation. *)
Lemma settle_cases (env : Env) (i : nat) (s : State) :
  match pending s !! i with
  | Some t => settle env i s = continue env t (exec (setPending (delete i)) s)
  | None => settle env i s = (inl tt, s)
  end.
Proof.
  unfold settle. destruct (pending s !! i) as [t|]; [|done].
  destruct s. done.
Qed.

(** No handler and no continuation lets an exception escape. *)
Lemma handler_returns (env : Env) (e : event) (s : State) :
  fst (handler env e s) = inl tt.
Proof.
  destruct e as [files| | |files| | |i]; unfold handler.
  - unfold handleFileChange. destruct (files !! 0%nat) as [file|]; [|done].
    by destruct (processFile_start_cases file s) as (? & _).
  - done.
  - done.
  - destruct s as [img res ps drag gen input calls tasks].
    unfold handleDrop, bind, setIsDragging, modify. cbn [fst snd].
    destruct (files !! 0%nat) as [file|]; [|done].
    by destruct (processFile_start_cases file
                   {| image := img; result := res; processingState := ps;
                      isDragging := false; isGeneratingMore := gen;
                      fileInput := input; apiCalls := calls; pending := tasks |})
      as (? & _).
  - by destruct (generateMore_send_cases env s) as (? & _).
  - by destruct s.
  - pose proof (settle_cases env i s) as H.
    destruct (pending s !! i) as [t|]; rewrite H; [|done].
    destruct t as [file|outcome|captured outcome]; cbn [continue].
    + by destruct (processFile_read_cases env file
                     (exec (setPending (delete i)) s)) as (? & _).
    + by destruct (processFile_analyzed_cases outcome
                     (exec (setPending (delete i)) s)) as (? & _).
    + by destruct (generateMore_settle_cases captured outcome
                     (exec (setPending (delete i)) s)) as (? & _).
Qed.

Lemma handleDrop_eq (files : list File) (s : State) :
  handleDrop files s = handleFileChange files (exec (setIsDragging false) s).
Proof.
  unfold handleDrop, handleFileChange, bind, setIsDragging, modify, exec.
  simpl. by destruct (files !! 0%nat).
Qed.

(** *** The pending promises *)

Lemma filter_snoc {A : Type} (P : A -> bool) (l : list A) (x : A) :
  List.filter P (l ++ [x]) = List.filter P l ++ (if P x then [x] else []).
Proof. rewrite List.filter_app. simpl. by destruct (P x). Qed.

Lemma filter_delete_out {A : Type} (P : A -> bool) (l : list A) (i : nat) (x : A) :
  l !! i = Some x -> P x = false ->
  List.filter P (delete i l) = List.filter P l.
Proof.
  revert i. induction l as [|y l IH]; intros [|i] Hi Hx; try done.
  - simpl in Hi. injection Hi as ->. simpl. by rewrite Hx.
  - simpl in *. by rewrite (IH i Hi Hx).
Qed.

Lemma filter_delete_in {A : Type} (P : A -> bool) (l : list A) (i : nat) (x : A) :
  l !! i = Some x -> P x = true ->
  length (List.filter P l) = S (length (List.filter P (delete i l)))
  /\ In x (List.filter P l).
Proof.
  revert i. induction l as [|y l IH]; intros [|i] Hi Hx; try done.
  - simpl in Hi. injection Hi as ->. simpl. rewrite Hx. split; [done|by left].
  - simpl in *. destruct (IH i Hi Hx) as [Hlen Hin].
    destruct (P y); simpl; [|done]. split; [by rewrite Hlen|by right].
Qed.

Lemma filter_delete_single {A : Type} (P : A -> bool) (l : list A) (i : nat)
    (x y : A) :
  l !! i = Some x -> P x = true -> List.filter P l = [y] ->
  y = x /\ List.filter P (delete i l) = [].
Proof.
  intros Hi Hx Hy. destruct (filter_delete_in P l i x Hi Hx) as [Hlen Hin].
  rewrite Hy in Hlen, Hin. split.
  - by destruct Hin as [->|[]].
  - simpl in Hlen. by destruct (List.filter P (delete i l)).
Qed.

Lemma filter_delete_none {A : Type} (P : A -> bool) (l : list A) (i : nat) (x : A) :
  l !! i = Some x -> P x = true -> List.filter P l <> [].
Proof.
  intros Hi Hx Hnil. destruct (filter_delete_in P l i x Hi Hx) as [_ Hin].
  by rewrite Hnil in Hin.
Qed.

Lemma hasStatus_status (s : State) (st : Status) :
  hasStatus s st = true <-> status (processingState s) = st.
Proof.
  unfold hasStatus. by destruct (status (processingState s)), st.
Qed.

(** *** The pages *)

Lemma orderly_fields (s s' : State) :
  processingState s' = processingState s -> image s' = image s ->
  pending s' = pending s -> isGeneratingMore s' = isGeneratingMore s ->
  orderly s -> orderly s'.
Proof.
  unfold orderly, fileTasks, generatingTasks. by intros -> -> -> ->.
Qed.

Lemma processFile_start_orderly (file : File) (s : State) :
  orderly s -> status (processingState s) = idle ->
  orderly (exec (processFile_start file) s).
Proof.
  unfold orderly, fileTasks, generatingTasks. intros [Hpage Hgen] Hidle.
  rewrite Hidle in Hpage. destruct Hpage as [_ Hnone].
  destruct (processFile_start_cases file s) as (_ & Hi & _ & Hg & _ & H).
  cbv zeta in *. rewrite Hi, Hg.
  destruct (negb (startsWith (type file) (lit "image/")));
    destruct H as [-> ->]; cbn [status invalidImage].
  - done.
  - rewrite !filter_snoc, Hnone. cbn [ofProcessFile negb].
    rewrite app_nil_r. split; [|done]. left. by exists file.
Qed.

Lemma handleFileChange_orderly (files : list File) (s : State) :
  orderly s -> status (processingState s) = idle ->
  orderly (exec (handleFileChange files) s).
Proof.
  intros Ho Hidle. unfold handleFileChange.
  destruct (files !! 0%nat) as [file|]; [|done].
  by apply processFile_start_orderly.
Qed.

Lemma settle_orderly (env : Env) (i : nat) (s : State) :
  orderly s -> orderly (exec (settle env i) s).
Proof.
  intros Ho. pose proof (settle_cases env i s) as Hs.
  destruct (pending s !! i) as [t|] eqn:Hi; unfold exec; rewrite Hs; [|done].
  destruct (setPending_fields (delete i) s) as (Hi0 & _ & Hp0 & Hg0 & _ & Hd0).
  cbv zeta in *. set (s0 := exec (setPending (delete i)) s) in *.
  unfold orderly, fileTasks, generatingTasks in *. destruct Ho as [Hpage Hgen].
  destruct t as [file|outcome|captured outcome]; cbn [continue].
  - (* the read has settled *)
    assert (Hrun : List.filter ofProcessFile (pending s) = [Reading file]
                   /\ status (processingState s) = analyzing).
    { destruct (status (processingState s));
        try (by destruct (filter_delete_none ofProcessFile _ _ _ Hi eq_refl);
             intuition).
      destruct Hpage as [(f & Hf & _)|(o & Hf & _)];
        destruct (filter_delete_single ofProcessFile _ _ _ _ Hi eq_refl Hf)
          as [Heq _]; [by rewrite Heq in Hf|done]. }
    destruct Hrun as [Hf Hst].
    destruct (filter_delete_single ofProcessFile _ _ _ _ Hi eq_refl Hf)
      as [_ Hnone].
    pose proof (filter_delete_out (fun t => negb (ofProcessFile t))
                  _ _ _ Hi eq_refl) as Hkeep.
    destruct (processFile_read_cases env file s0) as (_ & _ & Hg & H).
    cbv zeta in H. fold (exec (processFile_read env file) s0).
    rewrite Hg, Hg0. destruct (dataURL file) as [url|].
    + destruct H as (-> & _ & -> & ->). rewrite Hp0, Hst, Hd0.
      rewrite !filter_snoc, Hnone, Hkeep. cbn [ofProcessFile negb].
      rewrite app_nil_r. split; [|done]. right. by eexists.
    + destruct H as (_ & _ & -> & ->). cbn [status]. rewrite Hd0, Hnone, Hkeep.
      done.
  - (* the analysis has settled *)
    assert (Hrun : List.filter ofProcessFile (pending s) = [Analyzing outcome]
                   /\ is_Some (image s)).
    { destruct (status (processingState s));
        try (by destruct (filter_delete_none ofProcessFile _ _ _ Hi eq_refl);
             intuition).
      destruct Hpage as [(f & Hf & _)|(o & Hf & Him)];
        destruct (filter_delete_single ofProcessFile _ _ _ _ Hi eq_refl Hf)
          as [Heq _]; [done|]. by rewrite Heq in Hf. }
    destruct Hrun as [Hf Him].
    destruct (filter_delete_single ofProcessFile _ _ _ _ Hi eq_refl Hf)
      as [_ Hnone].
    pose proof (filter_delete_out (fun t => negb (ofProcessFile t))
                  _ _ _ Hi eq_refl) as Hkeep.
    destruct (processFile_analyzed_cases outcome s0) as (_ & Hi' & Hg & _ & Hp & H).
    cbv zeta in H. fold (exec (processFile_analyzed outcome) s0).
    rewrite Hg, Hg0, Hi', Hi0, Hp, Hd0, Hnone, Hkeep.
    destruct outcome as [r|e]; destruct H as [_ ->]; cbn [status]; done.
  - (* the call for more questions has settled *)
    destruct (filter_delete_in (fun t => negb (ofProcessFile t))
                _ _ _ Hi eq_refl) as [Hlen _].
    pose proof (filter_delete_out ofProcessFile _ _ _ Hi eq_refl) as Hkeep.
    destruct (generateMore_settle_cases captured outcome s0)
      as (_ & Hi' & Hp' & _ & _ & _ & Hpend & Hg & _).
    cbv zeta in *. fold (exec (handleGenerateMoreQuestions_settle captured outcome) s0).
    rewrite Hi', Hp', Hpend, Hg, Hi0, Hp0, Hd0, Hkeep. split; [done|].
    rewrite Hlen in Hgen. destruct (isGeneratingMore s); [|done].
    by injection Hgen as <-.
Qed.

Lemma step_orderly (env : Env) (s : State) (e : event) :
  orderly s -> orderly (step env s e).
Proof.
  intros Ho. unfold step. destruct (enabled s e) eqn:Hen; [|done].
  destruct e as [files| | |files| | |i]; unfold handler; cbn [enabled] in Hen.
  - apply handleFileChange_orderly; [done|by apply hasStatus_status].
  - destruct (setIsDragging_fields true s) as (? & _ & ? & ? & _ & ? & _).
    by apply (orderly_fields s).
  - destruct (setIsDragging_fields false s) as (? & _ & ? & ? & _ & ? & _).
    by apply (orderly_fields s).
  - unfold exec. rewrite handleDrop_eq.
    destruct (setIsDragging_fields false s) as (? & _ & Hp & ? & _ & ? & _).
    cbv zeta in *. apply handleFileChange_orderly.
    + by apply (orderly_fields s).
    + rewrite Hp. by apply hasStatus_status.
  - apply andb_prop in Hen as [[Hst Hres]%andb_prop Hgen].
    apply negb_true_iff in Hgen. apply hasStatus_status in Hst.
    destruct (generateMore_send_cases env s) as (_ & Hi & _ & Hp & _ & _ & H).
    cbv zeta in *. rewrite Hres in H.
    destruct (image s) as [[|c img]|] eqn:Himg; try (by rewrite H).
    destruct H as (Hg & _ & Hpend).
    unfold orderly, fileTasks, generatingTasks in *.
    rewrite Hp, Hi, Hg, Hpend, !filter_snoc. cbn [ofProcessFile negb].
    rewrite app_nil_r, length_app. destruct Ho as [Hpage Hlen].
    rewrite Hgen in Hlen. rewrite Hlen. split; [by rewrite Himg in Hpage|done].
  - destruct (handleReset_cases s) as (_ & Hp & Hi & _).
    destruct (handleReset_frame s) as (Hg & _ & Hpend).
    unfold orderly, fileTasks, generatingTasks in *.
    rewrite Hp, Hi, Hg, Hpend. cbn [status]. destruct Ho as [Hpage Hlen].
    split; [|done]. split; [done|].
    apply orb_prop in Hen as [Hst%hasStatus_status|Hst%hasStatus_status];
      rewrite Hst in Hpage; [by destruct Hpage|done].
  - by apply settle_orderly.
Qed.

Lemma run_orderly (env : Env) (s : State) (es : list event) :
  orderly s -> orderly (run env s es).
Proof.
  revert s. induction es as [|e es IH]; intros s Ho; [done|].
  apply IH. by apply step_orderly.
Qed.

(** X17: whatever the user does and in whatever order the promises
    settle, the app is on a page it has the image for: in 'idle' there is
    no image, in 'complete' there is one, 'analyzing' lasts exactly while
    one processFile is under way (reading, with no image yet, or waiting
    for the analysis, with the image set), and outside 'analyzing' none
    is; isGeneratingMore is set exactly while a call for more questions is
    pending, and never more than one is.  No handler and no continuation
    lets an exception escape. *)
Theorem app_pages_orderly (env : Env) (es : list event) :
  orderly (run env initial es)
  /\ (forall s e, fst (handler env e s) = inl tt).
Proof.
  split.
  - apply run_orderly. by split.
  - intros s e. apply handler_returns.
Qed.

(** *** The requests *)

Local Ltac nothing_sent :=
  exists []; rewrite app_nil_r; repeat split; try done; try (simpl; lia).

Lemma step_sent (env : Env) (s : State) (e : event) :
  exists sent,
    apiCalls (step env s e) = apiCalls s ++ sent
    /\ (length sent <= 1)%nat
    /\ (truthy (API_KEY env) = false -> sent = [])
    /\ (mayCall e = false -> sent = []).
Proof.
  unfold step. destruct (enabled s e); [|nothing_sent].
  destruct e as [files| | |files| | |i]; unfold handler.
  - unfold handleFileChange. destruct (files !! 0%nat) as [file|]; [|nothing_sent].
    destruct (processFile_start_cases file s) as (_ & _ & _ & _ & -> & _).
    nothing_sent.
  - nothing_sent; by destruct s.
  - nothing_sent; by destruct s.
  - unfold exec. rewrite handleDrop_eq.
    destruct (setIsDragging_fields false s) as (_ & _ & _ & _ & Hc & _).
    cbv zeta in *. unfold handleFileChange.
    destruct (files !! 0%nat) as [file|]; [|nothing_sent].
    destruct (processFile_start_cases file (exec (setIsDragging false) s))
      as (_ & _ & _ & _ & Hs & _).
    cbv zeta in *. unfold exec in *. rewrite Hs, Hc. nothing_sent.
  - destruct (generateMore_send_cases env s) as (_ & _ & _ & _ & _ & _ & H).
    cbv zeta in H.
    destruct (image s) as [[|c img]|]; try (rewrite H; nothing_sent).
    destruct (truthyValue (result s)); [|rewrite H; nothing_sent].
    destruct H as (_ & -> & _). eexists. split; [done|].
    rewrite generateMoreQuestions_sent.
    destruct (truthy (API_KEY env)); simpl; repeat split; (done || lia).
  - destruct (handleReset_frame s) as (_ & -> & _). nothing_sent.
  - pose proof (settle_cases env i s) as Hs.
    destruct (pending s !! i) as [t|]; unfold exec; rewrite Hs; [|nothing_sent].
    destruct (setPending_fields (delete i) s) as (_ & _ & _ & _ & Hc & _).
    cbv zeta in *. set (s0 := exec (setPending (delete i)) s) in *.
    destruct t as [file|outcome|captured outcome]; cbn [continue].
    + destruct (processFile_read_cases env file s0) as (_ & _ & _ & H).
      cbv zeta in H. unfold exec in H. destruct (dataURL file) as [url|].
      * destruct H as (_ & -> & _). rewrite Hc. eexists. split; [done|].
        rewrite analyzeImage_sent.
        destruct (truthy (API_KEY env)); simpl; repeat split; (done || lia).
      * destruct H as (_ & -> & _). rewrite Hc. nothing_sent.
    + destruct (processFile_analyzed_cases outcome s0) as (_ & _ & _ & H & _).
      cbv zeta in H. unfold exec in H. rewrite H, Hc. nothing_sent.
    + destruct (generateMore_settle_cases captured outcome s0)
        as (_ & _ & _ & _ & _ & H & _).
      cbv zeta in H. unfold exec in H. rewrite H, Hc. nothing_sent.
Qed.

(** X18: the requests sent to the model only grow, by at most one per
    event; only a call for more questions and the settling of a promise
    (a settled read goes on to the analysis) can send one, and without a
    key no request is ever sent. *)
Theorem requests_over_a_run (env : Env) (s : State) (es : list event) :
  apiCalls s `prefix_of` apiCalls (run env s es)
  /\ (length (apiCalls (run env s es)) <= length (apiCalls s) + length es)%nat
  /\ (truthy (API_KEY env) = false -> apiCalls (run env s es) = apiCalls s)
  /\ (Forall (fun e => mayCall e = false) es ->
      apiCalls (run env s es) = apiCalls s).
Proof.
  induction es as [|e es IH] using rev_ind.
  { simpl. repeat split; try done. lia. }
  unfold run in *. rewrite foldl_app. simpl.
  destruct IH as (Hpre & Hlen & Hkey & Hnone).
  destruct (step_sent env (foldl (step env) s es) e)
    as (sent & -> & Hs & Hk & Hn).
  repeat split.
  - etrans; [exact Hpre|]. by apply prefix_app_r.
  - rewrite !length_app. simpl. lia.
  - intros Hno. rewrite (Hk Hno), app_nil_r. auto.
  - intros [Hes He]%Forall_app. apply Forall_inv in He.
    rewrite (Hn He), app_nil_r. auto.
Qed.

(** *** A file from the choice to the results *)

Lemma step_settle_last (env : Env) (s : State) (tasks : list task) (t : task) :
  pending s = tasks ++ [t] ->
  step env s (Settled (length tasks))
  = exec (continue env t) (exec (setPending (fun _ => tasks)) s).
Proof.
  intros Hp. unfold step. cbn [enabled handler]. unfold exec at 1.
  by rewrite (settle_last_added env s tasks t Hp).
Qed.


Lemma startsWith_nonempty (mime : jsstring) :
  startsWith mime (lit "image/") = true -> mime <> [].
Proof. by destruct mime. Qed.

(** X19: with a key, on the upload page, for an image file whose data URL
    is "data:", its MIME type, ";base64," and a payload: the choice of the
    file sends nothing; when the read has settled the data URL is the
    image and one request has left with that MIME type and that payload;
    when the analysis has settled no further request has left, and the app
    is in 'complete' exactly when analyzeImage returned, with its value,
    of whatever shape, as the result; and a call for more questions made
    then sends one request with the same MIME type and the same
    payload. *)
Theorem same_image_in_both_requests (env : Env) (s : State)
    (mime payload : jsstring) (rest : list File) :
  truthy (API_KEY env) = true ->
  hasStatus s idle = true ->
  startsWith mime (lit "image/") = true ->
  without 59 mime = true -> without 44 mime = true ->
  without 44 payload = true ->
  let file := {| type := mime; dataURL := Some (dataUrlOf mime payload) |} in
  let n := length (pending s) in
  let chosen := step env s (FileChange (file :: rest)) in
  let read := step env chosen (Settled n) in
  let analyzed := step env read (Settled n) in
  apiCalls chosen = apiCalls s
  /\ apiCalls read
     = apiCalls s ++ [requestFor mime (Some payload) analyzePrompt RESPONSE_SCHEMA]
  /\ image read = Some (dataUrlOf mime payload)
  /\ apiCalls analyzed = apiCalls read
  /\ (forall r, fst (analyzeImage env (Some payload) mime) = inl r <->
                hasStatus analyzed complete = true /\ result analyzed = r)
  /\ (hasStatus analyzed complete = true ->
      truthyValue (result analyzed) = true ->
      isGeneratingMore s = false ->
      apiCalls (step env analyzed GenerateMore)
      = apiCalls analyzed
        ++ [requestFor mime (Some payload) morePrompt QUIZ_ONLY_SCHEMA]).
Proof.
  intros Hkey Hidle Himg Hsemi Hcomma Hpay file n chosen read analyzed.
  pose proof (startsWith_nonempty mime Himg) as Hne.
  destruct (data_url_parts mime payload Hne Hsemi Hcomma Hpay) as [Hraw Hmime].
  (* the choice *)
  assert (Hchosen : chosen = exec (processFile_start file) s).
  { unfold chosen, step. cbn [enabled handler]. by rewrite Hidle. }
  destruct (processFile_start_cases file s) as (_ & _ & _ & Hg1 & Hc1 & H1).
  cbv zeta in Hg1, Hc1, H1. rewrite <- Hchosen in Hg1, Hc1, H1.
  change (type file) with mime in H1. rewrite Himg in H1. cbn [negb] in H1.
  destruct H1 as [Hp1 Hpend1].
  (* the read *)
  assert (Hread : read = exec (processFile_read env file)
                           (exec (setPending (fun _ => pending s)) chosen)).
  { unfold read. subst n. by rewrite (step_settle_last env chosen _ _ Hpend1). }
  destruct (setPending_fields (fun _ => pending s) chosen)
    as (_ & _ & Hp1' & Hg1' & Hc1' & Hpend1').
  cbv zeta in Hp1', Hg1', Hc1', Hpend1'.
  destruct (processFile_read_cases env file
              (exec (setPending (fun _ => pending s)) chosen))
    as (_ & _ & Hg2 & H2).
  cbv zeta in Hg2, H2. rewrite <- Hread in Hg2, H2.
  change (dataURL file) with (Some (dataUrlOf mime payload)) in H2.
  cbv beta iota zeta in H2.
  change (type file) with mime in H2. rewrite Hraw in H2.
  destruct H2 as (Hi2 & Hc2 & Hpend2 & Hp2).
  rewrite analyzeImage_sent, Hkey, Hc1', Hc1 in Hc2. rewrite Hpend1' in Hpend2.
  (* the analysis *)
  assert (Hanalyzed : analyzed
                      = exec (processFile_analyzed
                                (fst (analyzeImage env (Some payload) mime)))
                          (exec (setPending (fun _ => pending s)) read)).
  { unfold analyzed. subst n. by rewrite (step_settle_last env read _ _ Hpend2). }
  destruct (setPending_fields (fun _ => pending s) read)
    as (Hi2' & _ & _ & Hg2' & Hc2' & _).
  cbv zeta in Hi2', Hg2', Hc2'.
  destruct (processFile_analyzed_cases (fst (analyzeImage env (Some payload) mime))
              (exec (setPending (fun _ => pending s)) read))
    as (_ & Hi3 & Hg3 & Hc3 & _ & H3).
  cbv zeta in Hi3, Hg3, Hc3, H3. rewrite <- Hanalyzed in Hi3, Hg3, Hc3, H3.
  split; [done|]. split; [done|]. split; [done|].
  split; [by rewrite Hc3, Hc2'|]. split.
  - intros r. rewrite hasStatus_status.
    destruct (fst (analyzeImage env (Some payload) mime)) as [r0|e];
      destruct H3 as [Hr3 Hp3]; rewrite Hp3; cbn [status].
    + split; [by intros [= <-]|]. intros [_ <-]. by rewrite Hr3.
    + split; [done|]. by intros [[=] _].
  - intros Hst Hres Hgen.
    assert (Hg : isGeneratingMore analyzed = false) by congruence.
    unfold step. cbn [enabled handler]. rewrite Hst, Hres, Hg. cbn [andb negb].
    destruct (generateMore_send_cases env analyzed) as (_ & _ & _ & _ & _ & _ & H).
    cbv zeta in H. rewrite Hi3, Hi2', Hi2, Hres in H.
    assert (Hurl : exists c img, dataUrlOf mime payload = c :: img).
    { unfold dataUrlOf. lits. by do 2 eexists. }
    destruct Hurl as (c & img & Hurl). rewrite Hurl in H.
    destruct H as (_ & -> & _).
    by rewrite <- Hurl, Hraw, Hmime, generateMoreQuestions_sent, Hkey.
Qed.

Lemma same_image_in_both_requests_witness :
  apiCalls
    (run quizEnv initial
       [FileChange [{| type := lit "image/png";
                       dataURL := Some (dataUrlOf (lit "image/png") (lit "AAAA")) |}];
        Settled 0; Settled 0; GenerateMore])
  = [requestFor (lit "image/png") (Some (lit "AAAA")) analyzePrompt RESPONSE_SCHEMA;
     requestFor (lit "image/png") (Some (lit "AAAA")) morePrompt QUIZ_ONLY_SCHEMA].
Proof.
  destruct (same_image_in_both_requests quizEnv initial (lit "image/png")
              (lit "AAAA") [] eq_refl eq_refl eq_refl eq_refl eq_refl eq_refl)
    as (_ & Hread & _ & Hsame & _ & Hmore).
  cbv zeta in Hread, Hsame, Hmore.
  unfold run. cbn [foldl].
  etrans; [exact (Hmore eq_refl eq_refl eq_refl)|].
  rewrite Hsame, Hread. reflexivity.
Defined.

(** *** processFile in one piece *)





(** *** The image QuizView is given *)

Lemma handleFileChange_readable (files : list File) (s : State) :
  imagesReadable s -> Forall readable files ->
  imagesReadable (exec (handleFileChange files) s).
Proof.
  unfold imagesReadable. intros [Him Hts] Hfiles. unfold handleFileChange.
  destruct (files !! 0%nat) as [file|] eqn:Hf; [|done].
  destruct (processFile_start_cases file s) as (_ & -> & _ & _ & _ & H).
  cbv zeta in H. split; [done|].
  destruct (negb (startsWith (type file) (lit "image/")));
    destruct H as [_ ->]; [done|].
  apply Forall_app. split; [done|]. constructor; [|done].
  by apply (Forall_lookup_1 _ _ _ _ Hfiles Hf).
Qed.

Lemma step_readable (env : Env) (s : State) (e : event) :
  imagesReadable s -> Forall readable (filesOf e) ->
  imagesReadable (step env s e).
Proof.
  intros Hs Hfiles. unfold step. destruct (enabled s e); [|done].
  destruct e as [files| | |files| | |i]; unfold handler; cbn [filesOf] in Hfiles.
  - by apply handleFileChange_readable.
  - by destruct s.
  - by destruct s.
  - unfold exec. rewrite handleDrop_eq. apply handleFileChange_readable; [|done].
    by destruct s.
  - destruct Hs as [Him Hts]. unfold imagesReadable.
    destruct (generateMore_send_cases env s) as (_ & Hi & _ & _ & _ & _ & H).
    cbv zeta in *. rewrite Hi. split; [done|].
    destruct (image s) as [[|c img]|]; try (by rewrite H).
    destruct (truthyValue (result s)); [|by rewrite H].
    destruct H as (_ & _ & ->). apply Forall_app. split; [done|].
    by constructor.
  - destruct Hs as [Him Hts]. unfold imagesReadable.
    destruct (handleReset_cases s) as (_ & _ & -> & _).
    destruct (handleReset_frame s) as (_ & _ & ->). done.
  - destruct Hs as [Him Hts]. unfold imagesReadable.
    pose proof (settle_cases env i s) as Hs.
    destruct (pending s !! i) as [t|] eqn:Hi; unfold exec; rewrite Hs; [|done].
    destruct (setPending_fields (delete i) s) as (Hi0 & _ & _ & _ & _ & Hd0).
    cbv zeta in *. set (s0 := exec (setPending (delete i)) s) in *.
    pose proof (Forall_lookup_1 _ _ _ _ Hts Hi) as Ht.
    assert (Hts0 : Forall (fun t => match t with
                                    | Reading file => readable file
                                    | _ => True
                                    end) (pending s0)).
    { rewrite Hd0. by apply Forall_delete. }
    destruct t as [file|outcome|captured outcome]; cbn [continue].
    + destruct (processFile_read_cases env file s0) as (_ & _ & _ & H).
      cbv zeta in H. unfold exec in H. unfold readable in Ht.
      destruct (dataURL file) as [url|].
      * destruct H as (-> & _ & -> & _). split; [done|].
        apply Forall_app. split; [done|]. by constructor.
      * destruct H as (-> & _ & -> & _). by rewrite Hi0.
    + destruct (processFile_analyzed_cases outcome s0) as (_ & H1 & _ & _ & H2 & _).
      cbv zeta in *. unfold exec in *. by rewrite H1, H2, Hi0.
    + destruct (generateMore_settle_cases captured outcome s0)
        as (_ & H1 & _ & _ & _ & _ & H2 & _).
      cbv zeta in *. unfold exec in *. by rewrite H1, H2, Hi0.
Qed.

Lemma run_readable (env : Env) (s : State) (es : list event) :
  imagesReadable s -> Forall (fun e => Forall readable (filesOf e)) es ->
  imagesReadable (run env s es).
Proof.
  revert s. induction es as [|e es IH]; intros s Hs Hes; [done|].
  apply Forall_cons in Hes as [He Hes].
  apply IH; [|done]. by apply step_readable.
Qed.

(** In 'complete', the only status in which QuizView is rendered, the
    image it is given is a string that is not empty. *)
Lemma complete_with_image (env : Env) (es : list event) :
  Forall (fun e => Forall readable (filesOf e)) es ->
  hasStatus (run env initial es) complete = true ->
  truthy (image (run env initial es)) = true.
Proof.
  intros Hes Hst. apply hasStatus_status in Hst.
  assert (Ho : orderly (run env initial es)) by (by apply run_orderly).
  assert (Hr : imagesReadable (run env initial es)).
  { apply run_readable; [|done]. split; [done|]. by constructor. }
  destruct Ho as [Hpage _]. rewrite Hst in Hpage.
  destruct Hpage as [[url Hurl] _]. destruct Hr as [Hne _].
  rewrite Hurl in *. by destruct url.
Qed.

End AppMore.

(** ** The chat of QuizView inside the app *)

Module ChatInApp.
Import JS Types Service QuizView QuizSpec QuizFacts ChatFacts.

Local Open Scope Z_scope.

Lemma step_imageSrc (s : State) (e : event) : imageSrc (step s e) = imageSrc s.
Proof.
  destruct e as [index| | | |v|now|outcome now]; simpl; try done.
  - unfold handleOptionClick. by destruct (isAnswered s).
  - unfold handleNext. by destruct (_ <? _).
  - unfold handlePrevious. by destruct (_ >? _).
  - unfold handleChatSubmit_send. by destruct (chatGuard s).
Qed.

(** C8: in QuizView as App renders it (in 'complete' only, with the
    image of the app as imageSrc), no call of a handler and no new list of
    questions changes or removes a stored message or changes imageSrc; and
    a submission of a non-blank input, while nothing is loading, appends
    exactly the user message with the submitted text, nothing more while
    the call is pending, and when the call settles exactly one AI message:
    the answer of askAiTutor, or the fixed apology when it threw.  The
    guard of handleChatSubmit also asks for an image source: in 'complete'
    the image of the app is a string that is not empty, so that part of
    the guard never stops a submission. *)
Theorem chat_transcript_append_only (env appEnv : Env) (es : list App.event)
    (s : State) (now now' : Z) (pending : list event)
    (outcome : jsstring + thrown) :
  Forall (fun e => Forall AppSpec.readable (AppSpec.filesOf e)) es ->
  App.hasStatus (App.run appEnv App.initial es) complete = true ->
  imageSrc s = App.image (App.run appEnv App.initial es) ->
  isEmpty (trim (chatInput s)) = false ->
  isChatLoading s = false ->
  Forall (fun e => isSettled e = false) pending ->
  let userMsg := {| id := now; sender := user; text := chatInput s |} in
  let aiMsg o := {| id := now' + 1; sender := ai; text := answerText o |} in
  (forall s0 e, chatMessages s0 `prefix_of` chatMessages (step s0 e)
                /\ imageSrc (step s0 e) = imageSrc s0)
  /\ (forall s0 qs,
        chatMessages (questionsEffect (withQuestions qs s0)) = chatMessages s0
        /\ imageSrc (questionsEffect (withQuestions qs s0)) = imageSrc s0)
  /\ truthy (imageSrc s) = true
  /\ (exists req s1,
        handleChatSubmit_send now s = Some (req, s1)
        /\ chatMessages s1 = chatMessages s ++ [userMsg]
        /\ chatMessages (run s1 pending) = chatMessages s ++ [userMsg]
        /\ chatMessages (handleChatSubmit_settle outcome now' (run s1 pending))
           = chatMessages s ++ [userMsg; aiMsg outcome])
  /\ (let src := orElse (imageSrc s) [] in
      chatMessages (handleChatSubmit env now now' s)
      = chatMessages s
        ++ [userMsg;
            aiMsg (fst (askAiTutor env (rawBase64Of src) (mimeTypeOf src)
                          (chatInput s)))]).
Proof.
  intros Hfiles Hcomplete Hsrc Hblank Hload Hpending. simpl.
  assert (Himg : truthy (imageSrc s) = true).
  { rewrite Hsrc. by apply AppMore.complete_with_image. }
  split.
  { intros s0 e. split; [apply step_transcript_grows|apply step_imageSrc]. }
  split; [done|]. split; [done|].
  assert (Hguard : chatGuard s = false).
  { unfold chatGuard. by rewrite Hblank, Himg, Hload. }
  unfold handleChatSubmit, handleChatSubmit_send. rewrite Hguard.
  split.
  - eexists _, _. split; [done|]. split; [done|].
    match goal with
    | |- context [run ?s1 pending] =>
        destruct (run_while_loading s1 pending eq_refl Hpending) as [Hm _]
    end.
    simpl in Hm. split; [done|].
    unfold handleChatSubmit_settle. simpl. rewrite Hm.
    rewrite <- (assoc_L (++)). simpl. by destruct outcome.
  - simpl. rewrite <- (assoc_L (++)). simpl.
    by destruct (askAiTutor env _ _ _) as [[?|?] ?].
Qed.

Lemma chat_transcript_append_only_witness :
  let s := setChatInput (lit "What pumps?")
             (mount [AppSpec.firstQuestion]
                (App.image AppSpec.completeState)) in
  chatMessages (handleChatSubmit_settle (inl (lit "It is the pump.")) 20
                  (run (step s (ChatSubmit 10)) [Next; ChatSubmit 11]))
  = [ {| id := 10; sender := user; text := lit "What pumps?" |};
      {| id := 21; sender := ai; text := lit "It is the pump." |} ].
Proof.
  destruct (chat_transcript_append_only answeringEnv AppSpec.quizEnv
              [App.FileChange [AppSpec.pngFile]; App.Settled 0; App.Settled 0]
              (setChatInput (lit "What pumps?")
                 (mount [AppSpec.firstQuestion]
                    (App.image AppSpec.completeState)))
              10 20 [Next; ChatSubmit 11] (inl (lit "It is the pump.")))
    as (_ & _ & _ & (req & s1 & Hsend & _ & _ & Hsettle) & _).
  - repeat constructor; discriminate.
  - reflexivity.
  - reflexivity.
  - reflexivity.
  - reflexivity.
  - repeat constructor.
  - simpl. simpl in Hsend. injection Hsend as _ <-. exact Hsettle.
Defined.

End ChatInApp.
